(** * vscode-restclient: request controller, response webview and parser
      factory, with the Selector and VariableResolver of the design document.

    The development is a shallow embedding.  JavaScript strings are lists of
    UTF-16 code units, objects with identity (requests, webview panels) live in
    explicit stores keyed by an identifier, and the asynchronous controller is
    a step function over a world that holds the suspended invocations of
    [runCore]. *)

From Stdlib Require Import NArith ZArith Ascii String List Bool Lia.
From stdpp Require Import base option list gmap fin_maps.

Local Open Scope N_scope.

(** ** JavaScript strings *)

Module Js.

(** A string is a sequence of UTF-16 code units. *)
Abbreviation jsstring := (list N).

(** The code units of an ASCII literal. *)
Definition lit (s : string) : jsstring :=
  List.map N_of_ascii (list_ascii_of_string s).

(** Truthiness of [string | undefined]: defined and not empty. *)
Definition truthy (s : option jsstring) : bool :=
  match s with
  | Some (_ :: _) => true
  | _ => false
  end.

(** The class [\s]: ECMAScript WhiteSpace and LineTerminator. *)
Definition isWhiteSpace (c : N) : bool :=
  (c =? 9) || (c =? 10) || (c =? 11) || (c =? 12) || (c =? 13) || (c =? 32)
  || (c =? 160) || (c =? 5760) || ((8192 <=? c) && (c <=? 8202))
  || (c =? 8232) || (c =? 8233) || (c =? 8239) || (c =? 8287)
  || (c =? 12288) || (c =? 65279).

(** Canonicalize for a pattern without the [u] flag: the code unit is
    upper-cased, except that a code unit from 128 up is never mapped to one
    below 128.  Only the comparison with ASCII pattern characters is needed
    here, so code units from 128 up are left as they are. *)
Definition canonicalize (c : N) : N :=
  if (97 <=? c) && (c <=? 122) then c - 32 else c.

(** The pattern language the factory's regular expression needs. *)
Inductive Atom :=
| Char (c : N)
| Space.

Inductive Term :=
| Bol
| One (a : Atom)
| Star (a : Atom).

Record RegExp := { ignoreCase : bool; body : list Term }.

Definition atomMatches (ic : bool) (a : Atom) (c : N) : bool :=
  match a with
  | Char p => if ic then canonicalize c =? canonicalize p else c =? p
  | Space => isWhiteSpace c
  end.

(** Backtracking match of the terms at the current position; [atStart] says
    whether that position is the start of the input (no [m] flag). *)
Fixpoint matchHere (ic : bool) (p : list Term) (atStart : bool) (s : jsstring)
  {struct p} : bool :=
  match p with
  | [] => true
  | Bol :: rest => atStart && matchHere ic rest atStart s
  | One a :: rest =>
      match s with
      | c :: s' => atomMatches ic a c && matchHere ic rest false s'
      | [] => false
      end
  | Star a :: rest =>
      (fix star (atStart : bool) (s : jsstring) {struct s} : bool :=
         match s with
         | c :: s' =>
             (atomMatches ic a c && star false s') || matchHere ic rest atStart s
         | [] => matchHere ic rest atStart []
         end) atStart s
  end.

(** [RegExp.prototype.test] without the [g] and [y] flags: a match is tried
    at every index, from the first. *)
Fixpoint testFrom (r : RegExp) (atStart : bool) (s : jsstring) : bool :=
  matchHere (ignoreCase r) (body r) atStart s
  || match s with
     | _ :: s' => testFrom r false s'
     | [] => false
     end.

Definition test (r : RegExp) (s : jsstring) : bool := testFrom r true s.

End Js.

Import Js.

(** ** The model classes the sources read

    models/httpResponse.ts, models/configurationSettings.ts and the test
    runner are not among the sources; these records hold the fields that the
    controller, the webview and the factory read. *)

Module Models.

(** A document is known by its URI. *)
Abbreviation TextDocument := (list N).

Record HttpResponse := {
  statusCode : N;
  requestName : option jsstring;      (* response.request.name *)
  timingTotal : option N;             (* response.timingPhases.total *)
  responseBody : jsstring }.

(** A view column as JavaScript computes it: [undefined], the [NaN] that
    [undefined + 1] gives, or a number. *)
Inductive Column :=
| Undefined
| NaN
| Col (z : Z).

Definition columnTruthy (c : Column) : bool :=
  match c with
  | Col z => negb (z =? 0)%Z
  | _ => false
  end.

(** [ViewColumn.Active] *)
Definition ViewColumn_Active : Z := (-1)%Z.

Record IRestClientSettings := {
  previewColumn : Z;
  previewResponseInUntitledDocument : bool;
  timeoutInMilliseconds : N }.

(** [SystemSettings.Instance], as the webview reads it. *)
Record SystemSettings := {
  showResponseInDifferentTab : bool;
  previewResponsePanelTakeFocus : bool;
  requestNameAsResponseTabTitle : bool }.

Inductive TestRunnerResult :=
| NoTests
| Excepted
| Executed (passed failed : nat).

(** A value a promise is rejected with or a [throw] raises: [null] or
    [undefined], or a value with the properties the code reads ([stack] is
    present when it is a string). *)
Inductive Thrown :=
| Nullish
| Obj (code message stack : option jsstring).

Inductive Settled (A : Type) :=
| Fulfilled (a : A)
| Rejected (e : Thrown).
Arguments Fulfilled {A} a.
Arguments Rejected {A} e.

End Models.

Import Models.

(** ** models/requestParserFactory.ts *)

Module RequestParserFactory.

(** A parser is the class chosen together with its constructor arguments. *)
Inductive RequestParser :=
| CurlRequestParser (raw : jsstring) (settings : IRestClientSettings)
| HttpRequestParser (raw : jsstring) (settings : IRestClientSettings)
    (document : TextDocument).

(** [/^\s*curl/i] *)
Definition curlRegex : RegExp :=
  {| ignoreCase := true;
     body := [Bol; Star Space; One (Char 99); One (Char 117);
              One (Char 114); One (Char 108)] |}.

(** [systemSettings] is [SystemSettings.Instance]. *)
Definition createRequestParser (systemSettings : IRestClientSettings)
  (rawHttpRequest : jsstring) (document : TextDocument)
  (settings : option IRestClientSettings) : RequestParser :=
  let settings := default systemSettings settings in
  if test curlRegex rawHttpRequest
  then CurlRequestParser rawHttpRequest settings
  else HttpRequestParser rawHttpRequest settings document.

(** What the claim calls "begins, after optional leading whitespace, with the
    case-insensitive characters curl". *)
Definition beginsWithCurl (s : jsstring) : Prop :=
  ∃ ws c u r l rest,
    s = ws ++ c :: u :: r :: l :: rest
    ∧ Forall (λ x, isWhiteSpace x = true) ws
    ∧ (c = 99 ∨ c = 67) ∧ (u = 117 ∨ u = 85)
    ∧ (r = 114 ∨ r = 82) ∧ (l = 108 ∨ l = 76).

End RequestParserFactory.

(** ** views/httpResponseWebview.ts: HttpResponseWebview

    The fields [panels], [activePanel] and the all-panels-closed emitter are
    those of the base class, which is not among the sources; the state below
    holds them next to [panelResponses].  A panel is an object with identity:
    [window.createWebviewPanel] hands out a new one at every call. *)

Module HttpResponseWebview.

Abbreviation PanelId := nat.

Record Title := { prefix : jsstring; totalMs : N }.

Record WebviewPanel := {
  title : Title;
  viewColumn : Column;
  preserveFocus : bool;
  (* the arguments [getHtmlForWebview] last rendered the page from *)
  html : option (HttpResponse * TestRunnerResult) }.

Record State := {
  panels : list PanelId;
  activePanel : option PanelId;
  panelResponses : gmap PanelId HttpResponse;
  previewActiveContext : bool;
  panelStore : gmap PanelId WebviewPanel;
  nextPanel : PanelId }.

Definition initial : State :=
  {| panels := []; activePanel := None; panelResponses := ∅;
     previewActiveContext := false; panelStore := ∅; nextPanel := 0%nat |}.

Definition getTitle (settings : SystemSettings) (response : HttpResponse) : Title :=
  {| prefix :=
       if requestNameAsResponseTabTitle settings && truthy (requestName response)
       then default [] (requestName response)
       else lit "Response";
     totalMs := default 0 (timingTotal response) |}.

(** [this.panels.findIndex(v => v === panel)]; [None] stands for -1. *)
Fixpoint findIndex (panel : PanelId) (l : list PanelId) : option nat :=
  match l with
  | [] => None
  | v :: l' => if decide (v = panel) then Some 0%nat else S <$> findIndex panel l'
  end.

Definition render (settings : SystemSettings) (response : HttpResponse)
  (testRunnerResult : TestRunnerResult) (column : Column) (w : State) : State :=
  let created :=
    showResponseInDifferentTab settings || (length (panels w) =? 0)%nat in
  let panel :=
    if created then nextPanel w else default (nextPanel w) (last (panels w)) in
  (* both branches set the title; the page and the reveal follow *)
  let object :=
    {| title := getTitle settings response;
       viewColumn := column;
       preserveFocus := negb (previewResponsePanelTakeFocus settings);
       html := Some (response, testRunnerResult) |} in
  {| panels := if created then panels w ++ [panel] else panels w;
     activePanel := Some panel;
     panelResponses := <[panel := response]> (panelResponses w);
     previewActiveContext := previewResponsePanelTakeFocus settings;
     panelStore := <[panel := object]> (panelStore w);
     nextPanel := if created then S (nextPanel w) else nextPanel w |}.

(** The listener [render] registers with [panel.onDidDispose]; the boolean
    says whether [_onDidCloseAllWebviewPanels.fire()] was called. *)
Definition onDidDispose (panel : PanelId) (w : State) : State * bool :=
  let isActive := bool_decide (activePanel w = Some panel) in
  let index := findIndex panel (panels w) in
  let panels' :=
    match index with
    | Some i => delete i (panels w)
    | None => panels w
    end in
  ({| panels := panels';
      activePanel := if isActive then None else activePanel w;
      panelResponses :=
        match index with
        | Some _ => delete panel (panelResponses w)
        | None => panelResponses w
        end;
      previewActiveContext := if isActive then false else previewActiveContext w;
      panelStore := panelStore w;
      nextPanel := nextPanel w |},
   (length panels' =? 0)%nat).

(** What the editor can make the webview do. *)
Inductive Input :=
| Render (settings : SystemSettings) (response : HttpResponse)
    (testRunnerResult : TestRunnerResult) (column : Column)
| Dispose (panel : PanelId).

Definition step (i : Input) (w : State) : State :=
  match i with
  | Render settings response result column => render settings response result column w
  | Dispose panel => (onDidDispose panel w).1
  end.

Definition exec (inputs : list Input) (w : State) : State :=
  foldl (λ w i, step i w) w inputs.

Definition reachable (w : State) : Prop := ∃ inputs, w = exec inputs initial.

(** Every panel with a stored response is in the list of open panels. *)
Definition responsesAreOpen (w : State) : Prop :=
  ∀ p, is_Some (panelResponses w !! p) → p ∈ panels w.

(** The panels in the list are distinct objects that were created before. *)
Definition panelsAreDistinct (w : State) : Prop :=
  NoDup (panels w) ∧ ∀ p, p ∈ panels w → (p < nextPanel w)%nat.

End HttpResponseWebview.

(** ** utils/scriptRunner.ts: ScriptRunner

    The class follows HttpResponseWebview in the same source file. *)

Module ScriptRunner.

(** What running a script does, as far as [execute] can tell: the text does
    not compile ([new AsyncFunction] throws a SyntaxError), the function
    returns, or it throws a value. *)
Inductive ScriptBehaviour :=
| SyntaxError (message stack : jsstring)
| Returns
| Throws (e : Thrown).

(** What [execute] shows. *)
Inductive Shown :=
| ConsoleError (stack : option jsstring)
| ErrorMessage (stack : jsstring).

(** [showErrorMessage]: [None] when it throws a TypeError itself, which is
    reading [stack] of [null] or [undefined], or calling [split] on a missing
    [stack]; the second component is what was shown before. *)
Definition showErrorMessage (error : Thrown) : list Shown * option unit :=
  match error with
  | Nullish => ([], None)
  | Obj _ _ None => ([ConsoleError None], None)
  | Obj _ _ (Some stack) => ([ConsoleError (Some stack); ErrorMessage stack], Some ())
  end.

(** [execute]: what is shown, and how the returned promise ends.  [None]: the
    promise is never settled, because the [catch] inside the promise's
    executor threw before it reached [reject]. *)
Definition execute (scriptLines : option jsstring) (b : ScriptBehaviour)
  : list Shown * option (Settled unit) :=
  if negb (truthy scriptLines) then ([], Some (Fulfilled ()))
  else
    match b with
    | SyntaxError message stack =>
        ([], Some (Rejected (Obj None (Some message) (Some stack))))
    | Returns => ([], Some (Fulfilled ()))
    | Throws e =>
        match showErrorMessage e with
        | (shown, Some _) => (shown, Some (Rejected e))
        | (shown, None) => (shown, None)
        end
    end.

End ScriptRunner.

(** ** utils/requestVariableCache.ts: RequestVariableCache *)

Module RequestVariableCache.

(** Modelled from the spec: utils/requestVariableCache.ts is not among the
    sources.  An entry is "keyed by (documentIdentity, requestName) → last
    received response; last-write-wins, no versioning". *)
Definition add (document : TextDocument) (name : jsstring) (response : HttpResponse)
  (cache : gmap (TextDocument * jsstring) HttpResponse)
  : gmap (TextDocument * jsstring) HttpResponse :=
  <[(document, name) := response]> cache.

End RequestVariableCache.

(** ** controllers/requestController.ts: RequestController

    [runCore] is an async function: between two of its [await]s other
    commands run.  The world holds the controller's fields, the objects the
    controller shares with its callers, and one task per invocation of
    [runCore] that is suspended at an [await].  Every call the controller
    makes to a collaborator is appended to a log, tagged with the invocation
    that made it. *)

Module RequestController.

Import ScriptRunner.

Abbreviation ReqId := nat.
Abbreviation RunId := nat.

(** models/httpRequest.ts is not among the sources; these are the fields the
    controller reads. *)
Record HttpRequest := {
  name : option jsstring;
  scripts : option (list (option jsstring));
  tests : option jsstring;
  isCancelled : bool }.

(** Modelled from the spec: [HttpRequest.cancel] is not among the sources.
    "Cancellation of an in-flight network call is represented by a flag on
    the originating request object". *)
Definition HttpRequest_cancel (q : HttpRequest) : HttpRequest :=
  {| name := name q; scripts := scripts q; tests := tests q; isCancelled := true |}.

Inductive RequestState :=
| Closed
| Pending
| Received
| Error
| Cancelled.

(** The text [window.showErrorMessage] is given: [error.message], rewritten
    for three error codes, or the reason the preview failed. *)
Inductive ErrorText :=
| TimedOut (timeout : N) (details : option jsstring)
| ConnectionRejected (details : option jsstring)
| NetworkUnreachable (details : option jsstring)
| Message (message : option jsstring)
| PreviewFailure.

(** What the environment answers when an awaited promise of a task is done. *)
Inductive Answer :=
| ScriptRan (b : ScriptBehaviour)
| SendSettled (o : Settled HttpResponse)
| HistorySettled (o : Settled unit).

Inductive Action :=
| Invoke (r : ReqId) (document : option TextDocument)   (* entry of runCore *)
| Update (state : RequestState) (response : option HttpResponse)
| Execute (script : option jsstring)                     (* ScriptRunner.execute *)
| Shows (s : Shown)
| Send                                                   (* HttpClient.send *)
| Resumed (a : Answer)                                   (* an await is over *)
| CacheAdd (document : TextDocument) (name : jsstring) (response : HttpResponse)
| RunTests (response : HttpResponse) (tests : option jsstring)
| RenderText (response : HttpResponse) (column : Column)
| RenderWebview (response : HttpResponse) (result : TestRunnerResult) (column : Column)
| LogError
| ShowError (text : ErrorText)
| AddToRequestHistory (r : ReqId)
| CancelRequest (r : ReqId)                              (* HttpRequest.cancel *)
| CloseAll.                                              (* all panels closed *)

(** Where a suspended invocation of [runCore] waits.  [Stuck]: at a script
    whose promise is never settled. *)
Inductive Pc :=
| AwaitScript (script : option jsstring) (rest : list (option jsstring))
| AwaitSend
| AwaitHistory
| Stuck.

Record Task := {
  invocation : RunId;
  request : ReqId;
  settings : IRestClientSettings;
  document : option TextDocument;
  pc : Pc }.

(** What a resumed task finds around it: the active editor with its view
    column if there is one, the system settings, and the test runner. *)
Record Env := {
  activeTextEditor : option Column;
  systemSettings : SystemSettings;
  testRunner : HttpResponse → option jsstring → TestRunnerResult }.

Record World := {
  store : gmap ReqId HttpRequest;            (* the HttpRequest objects *)
  nextRequest : ReqId;
  statusEntry : option (RequestState * option HttpResponse);
  lastRequestSettingTuple : option (ReqId * IRestClientSettings);
  lastPendingRequest : option ReqId;
  webview : HttpResponseWebview.State;
  cache : gmap (TextDocument * jsstring) HttpResponse;
  tasks : list Task;                          (* most recently started first *)
  nextRun : RunId;
  log : list (option RunId * Action) }.

Definition initial : World :=
  {| store := ∅; nextRequest := 0%nat; statusEntry := None;
     lastRequestSettingTuple := None; lastPendingRequest := None;
     webview := HttpResponseWebview.initial; cache := ∅; tasks := [];
     nextRun := 0%nat; log := [] |}.

Definition setStore (x : gmap ReqId HttpRequest) (w : World) : World :=
  {| store := x; nextRequest := nextRequest w; statusEntry := statusEntry w;
     lastRequestSettingTuple := lastRequestSettingTuple w;
     lastPendingRequest := lastPendingRequest w; webview := webview w;
     cache := cache w; tasks := tasks w; nextRun := nextRun w; log := log w |}.

Definition setStatusEntry (x : option (RequestState * option HttpResponse)) (w : World) : World :=
  {| store := store w; nextRequest := nextRequest w; statusEntry := x;
     lastRequestSettingTuple := lastRequestSettingTuple w;
     lastPendingRequest := lastPendingRequest w; webview := webview w;
     cache := cache w; tasks := tasks w; nextRun := nextRun w; log := log w |}.

Definition setLastRequestSettingTuple (x : option (ReqId * IRestClientSettings)) (w : World) : World :=
  {| store := store w; nextRequest := nextRequest w; statusEntry := statusEntry w;
     lastRequestSettingTuple := x;
     lastPendingRequest := lastPendingRequest w; webview := webview w;
     cache := cache w; tasks := tasks w; nextRun := nextRun w; log := log w |}.

Definition setLastPendingRequest (x : option ReqId) (w : World) : World :=
  {| store := store w; nextRequest := nextRequest w; statusEntry := statusEntry w;
     lastRequestSettingTuple := lastRequestSettingTuple w;
     lastPendingRequest := x; webview := webview w;
     cache := cache w; tasks := tasks w; nextRun := nextRun w; log := log w |}.

Definition setWebview (x : HttpResponseWebview.State) (w : World) : World :=
  {| store := store w; nextRequest := nextRequest w; statusEntry := statusEntry w;
     lastRequestSettingTuple := lastRequestSettingTuple w;
     lastPendingRequest := lastPendingRequest w; webview := x;
     cache := cache w; tasks := tasks w; nextRun := nextRun w; log := log w |}.

Definition setCache (x : gmap (TextDocument * jsstring) HttpResponse) (w : World) : World :=
  {| store := store w; nextRequest := nextRequest w; statusEntry := statusEntry w;
     lastRequestSettingTuple := lastRequestSettingTuple w;
     lastPendingRequest := lastPendingRequest w; webview := webview w;
     cache := x; tasks := tasks w; nextRun := nextRun w; log := log w |}.

Definition setTasks (x : list Task) (w : World) : World :=
  {| store := store w; nextRequest := nextRequest w; statusEntry := statusEntry w;
     lastRequestSettingTuple := lastRequestSettingTuple w;
     lastPendingRequest := lastPendingRequest w; webview := webview w;
     cache := cache w; tasks := x; nextRun := nextRun w; log := log w |}.

(** A call to a collaborator, made by invocation [i] or by a command. *)
Definition emit (i : option RunId) (a : Action) (w : World) : World :=
  {| store := store w; nextRequest := nextRequest w; statusEntry := statusEntry w;
     lastRequestSettingTuple := lastRequestSettingTuple w;
     lastPendingRequest := lastPendingRequest w; webview := webview w;
     cache := cache w; tasks := tasks w; nextRun := nextRun w;
     log := log w ++ [(i, a)] |}.

(** [this._requestStatusEntry.update(...)] *)
Definition update (i : option RunId) (state : RequestState)
  (response : option HttpResponse) (w : World) : World :=
  emit i (Update state response) (setStatusEntry (Some (state, response)) w).

Definition isCancelledIn (r : ReqId) (w : World) : bool :=
  match store w !! r with
  | Some q => isCancelled q
  | None => false
  end.

Definition nameIn (r : ReqId) (w : World) : option jsstring :=
  q ← store w !! r; name q.

Definition scriptsIn (r : ReqId) (w : World) : list (option jsstring) :=
  default [] (q ← store w !! r; scripts q).

Definition testsIn (r : ReqId) (w : World) : option jsstring :=
  q ← store w !! r; tests q.

Fixpoint findTask (i : RunId) (ts : list Task) : option Task :=
  match ts with
  | [] => None
  | t :: ts' => if decide (invocation t = i) then Some t else findTask i ts'
  end.

Definition setPc (i : RunId) (p : Pc) (ts : list Task) : list Task :=
  (λ t, if decide (invocation t = i)
        then {| invocation := invocation t; request := request t; settings := settings t;
                document := document t; pc := p |}
        else t) <$> ts.

Definition dropTask (i : RunId) (ts : list Task) : list Task :=
  filter (λ t, invocation t ≠ i) ts.

(** The loop over [httpRequest.scripts] from the script at hand on, up to the
    first [await] that suspends: an empty script makes [execute] return at
    once, and after the last script the request is sent. *)
Fixpoint startScripts (i : RunId) (todo : list (option jsstring)) (w : World)
  : World * Pc :=
  match todo with
  | [] => (emit (Some i) Send w, AwaitSend)
  | script :: rest =>
      let w := emit (Some i) (Execute script) w in
      if truthy script then (w, AwaitScript script rest)
      else startScripts i rest w
  end.

(** [runCore], from its entry to its first [await]. *)
Definition runCore (r : ReqId) (s : IRestClientSettings)
  (d : option TextDocument) (w : World) : World :=
  let i := nextRun w in
  let w := emit (Some i) (Invoke r d) w in
  let w := update (Some i) Pending None w in
  let w := setLastPendingRequest (Some r) w in
  let w := setLastRequestSettingTuple (Some (r, s)) w in
  let '(w, p) := startScripts i (scriptsIn r w) w in
  {| store := store w; nextRequest := nextRequest w; statusEntry := statusEntry w;
     lastRequestSettingTuple := lastRequestSettingTuple w;
     lastPendingRequest := lastPendingRequest w; webview := webview w;
     cache := cache w;
     tasks := {| invocation := i; request := r; settings := s; document := d; pc := p |}
              :: tasks w;
     nextRun := S i; log := log w |}.

(** The [finally] block. *)
Definition finally (r : ReqId) (w : World) : World :=
  if decide (lastPendingRequest w = Some r) then setLastPendingRequest None w else w.

(** The outer [catch] block.  Reading [code] of [null] or [undefined] throws,
    and the rest of the block is skipped. *)
Definition errorText (s : IRestClientSettings) (code message : option jsstring)
  : ErrorText :=
  if decide (code = Some (lit "ETIMEDOUT"))
  then TimedOut (timeoutInMilliseconds s) message
  else if decide (code = Some (lit "ECONNREFUSED"))
  then ConnectionRejected message
  else if decide (code = Some (lit "ENETUNREACH"))
  then NetworkUnreachable message
  else Message message.

Definition catchBlock (t : Task) (error : Thrown) (w : World) : World :=
  if isCancelledIn (request t) w then w
  else
    match error with
    | Nullish => w
    | Obj code message _ =>
        let w := update (Some (invocation t)) Error None w in
        let w := emit (Some (invocation t)) LogError w in
        emit (Some (invocation t)) (ShowError (errorText (settings t) code message)) w
    end.

(** [settings.previewColumn === ViewColumn.Active ? activeColumn
    : activeColumn + 1] *)
Definition previewColumnOf (s : IRestClientSettings) (activeColumn : Column) : Column :=
  if decide (previewColumn s = ViewColumn_Active)
  then activeColumn
  else match activeColumn with
       | Col z => Col (z + 1)
       | _ => NaN
       end.

(** The inner [try] with its [catch]: the preview of the response.  Without
    an active editor, reading its view column throws. *)
Definition preview (t : Task) (env : Env) (response : HttpResponse)
  (result : TestRunnerResult) (w : World) : World :=
  match activeTextEditor env with
  | None =>
      emit (Some (invocation t)) (ShowError PreviewFailure) (emit (Some (invocation t)) LogError w)
  | Some activeColumn =>
      let column := previewColumnOf (settings t) activeColumn in
      if previewResponseInUntitledDocument (settings t)
      then emit (Some (invocation t)) (RenderText response column) w
      else if columnTruthy column
      then emit (Some (invocation t)) (RenderWebview response result column)
             (setWebview
                (HttpResponseWebview.render (systemSettings env) response result
                   column (webview w)) w)
      else w
  end.

(** [runCore] after [send] has given a response, up to the next [await]. *)
Definition received (t : Task) (env : Env) (response : HttpResponse) (w : World)
  : World * option Pc :=
  if isCancelledIn (request t) w then (finally (request t) w, None)
  else
    let w := update (Some (invocation t)) Received (Some response) w in
    let w :=
      match nameIn (request t) w, document t with
      | Some (c :: n), Some d =>
          emit (Some (invocation t)) (CacheAdd d (c :: n) response)
            (setCache (RequestVariableCache.add d (c :: n) response (cache w)) w)
      | _, _ => w
      end in
    let result := testRunner env response (testsIn (request t) w) in
    let w := emit (Some (invocation t)) (RunTests response (testsIn (request t) w)) w in
    let w := preview t env response result w in
    let w := emit (Some (invocation t)) (AddToRequestHistory (request t)) w in
    (w, Some AwaitHistory).

(** [runCore] from the [await] the task is suspended at, given the answer,
    to the next [await] (the new place) or to its end ([None]). *)
Definition resume (t : Task) (a : Answer) (env : Env) (w : World)
  : World * option Pc :=
  match pc t, a with
  | AwaitScript script rest, ScriptRan b =>
      let w := emit (Some (invocation t)) (Resumed a) w in
      let '(shown, promise) := execute script b in
      let w := foldl (λ w s, emit (Some (invocation t)) (Shows s) w) w shown in
      match promise with
      | None => (w, Some Stuck)
      | Some (Fulfilled _) =>
          let '(w, p) := startScripts (invocation t) rest w in (w, Some p)
      | Some (Rejected e) => (finally (request t) (catchBlock t e w), None)
      end
  | AwaitSend, SendSettled o =>
      let w := emit (Some (invocation t)) (Resumed a) w in
      match o with
      | Fulfilled response => received t env response w
      | Rejected e => (finally (request t) (catchBlock t e w), None)
      end
  | AwaitHistory, HistorySettled o =>
      let w := emit (Some (invocation t)) (Resumed a) w in
      match o with
      | Fulfilled _ => (finally (request t) w, None)
      | Rejected e => (finally (request t) (catchBlock t e w), None)
      end
  | p, _ => (w, Some p)
  end.

Definition settle (i : RunId) (a : Answer) (env : Env) (w : World) : World :=
  match findTask i (tasks w) with
  | None => w
  | Some t =>
      match resume t a env w with
      | (w, Some p) => setTasks (setPc i p (tasks w)) w
      | (w, None) => setTasks (dropTask i (tasks w)) w
      end
  end.

(** [run], from the parsed request on: selecting the text, the confirmation
    and the parser are not among the sources.  The parser builds a new
    request object at every call. *)
Definition run (n : option jsstring) (sc : option (list (option jsstring)))
  (ts : option jsstring) (s : IRestClientSettings) (d : TextDocument)
  (w : World) : World :=
  let r := nextRequest w in
  let w :=
    {| store := <[r := {| name := n; scripts := sc; tests := ts;
                          isCancelled := false |}]> (store w);
       nextRequest := S r; statusEntry := statusEntry w;
       lastRequestSettingTuple := lastRequestSettingTuple w;
       lastPendingRequest := lastPendingRequest w; webview := webview w;
       cache := cache w; tasks := tasks w; nextRun := nextRun w; log := log w |} in
  runCore r s (Some d) w.

Definition rerun (w : World) : World :=
  match lastRequestSettingTuple w with
  | None => w
  | Some (r, s) => runCore r s None w
  end.

Definition cancel (w : World) : World :=
  let w :=
    match lastPendingRequest w with
    | Some r =>
        emit None (CancelRequest r)
          (setStore (alter HttpRequest_cancel r (store w)) w)
    | None => w
    end in
  update None Cancelled None w.

(** A panel is disposed; the constructor has subscribed the status entry to
    the webview's all-panels-closed event. *)
Definition panelDisposed (p : HttpResponseWebview.PanelId) (w : World) : World :=
  let '(v, fired) := HttpResponseWebview.onDidDispose p (webview w) in
  let w := setWebview v w in
  if fired then update None Closed None (emit None CloseAll w) else w.

(** The commands of the user and the answers of the environment. *)
Inductive Input :=
| RunCommand (n : option jsstring) (sc : option (list (option jsstring)))
    (ts : option jsstring) (s : IRestClientSettings) (d : TextDocument)
| RerunCommand
| CancelCommand
| Settle (i : RunId) (a : Answer) (env : Env)
| PanelDisposed (p : HttpResponseWebview.PanelId).

Definition step (x : Input) (w : World) : World :=
  match x with
  | RunCommand n sc ts s d => run n sc ts s d w
  | RerunCommand => rerun w
  | CancelCommand => cancel w
  | Settle i a env => settle i a env w
  | PanelDisposed p => panelDisposed p w
  end.

Definition exec (inputs : list Input) (w : World) : World :=
  foldl (λ w x, step x w) w inputs.

Definition reachable (w : World) : Prop := ∃ inputs, w = exec inputs initial.

(** The actions of invocation [i], in the order they were made. *)
Definition actionsOf (i : RunId) (l : list (option RunId * Action)) : list Action :=
  snd <$> filter (λ e, e.1 = Some i) l.

(** The cache the [CacheAdd] actions of a log build up. *)
Definition cacheOf (l : list (option RunId * Action))
  : gmap (TextDocument * jsstring) HttpResponse :=
  foldl (λ m e, match e.2 with
                | CacheAdd d n response => RequestVariableCache.add d n response m
                | _ => m
                end) ∅ l.

Definition isCacheAdd (a : Action) : Prop :=
  match a with
  | CacheAdd _ _ _ => True
  | _ => False
  end.

(** What an invocation does about its scripts before it sends, when every
    script returns: each script is handed to [execute] in list order, and
    after a script that is not empty the invocation waits until it is told
    that the script returned. *)
Definition scriptTrace (l : list (option jsstring)) : list Action :=
  l ≫= λ script,
    if truthy script then [Execute script; Resumed (ScriptRan Returns)]
    else [Execute script].

(** The tasks are in the order of their start, the last started first. *)
Fixpoint descending (ts : list Task) : Prop :=
  match ts with
  | [] => True
  | t :: ts' => (∀ t', t' ∈ ts' → (invocation t' < invocation t)%nat) ∧ descending ts'
  end.

(** Several calls at once. *)
Definition appendLog (l : list (option RunId * Action)) (w : World) : World :=
  {| store := store w; nextRequest := nextRequest w; statusEntry := statusEntry w;
     lastRequestSettingTuple := lastRequestSettingTuple w;
     lastPendingRequest := lastPendingRequest w; webview := webview w;
     cache := cache w; tasks := tasks w; nextRun := nextRun w;
     log := log w ++ l |}.

(** What [startScripts] does and where it stops. *)
Fixpoint startActions (todo : list (option jsstring)) : list Action :=
  match todo with
  | [] => [Send]
  | script :: rest => Execute script :: if truthy script then [] else startActions rest
  end.

Fixpoint startPc (todo : list (option jsstring)) : Pc :=
  match todo with
  | [] => AwaitSend
  | script :: rest => if truthy script then AwaitScript script rest else startPc rest
  end.

(** The calls a resumed task makes, as lists: what [catchBlock], [preview],
    [received] and [resume] append to the log. *)
Definition catchActions (t : Task) (error : Thrown) (w : World) : list Action :=
  if isCancelledIn (request t) w then []
  else
    match error with
    | Nullish => []
    | Obj code message _ =>
        [Update Error None; LogError; ShowError (errorText (settings t) code message)]
    end.

Definition previewActions (t : Task) (env : Env) (response : HttpResponse)
  (result : TestRunnerResult) : list Action :=
  match activeTextEditor env with
  | None => [LogError; ShowError PreviewFailure]
  | Some activeColumn =>
      let column := previewColumnOf (settings t) activeColumn in
      if previewResponseInUntitledDocument (settings t)
      then [RenderText response column]
      else if columnTruthy column then [RenderWebview response result column]
      else []
  end.

Definition cacheActions (t : Task) (response : HttpResponse) (w : World) : list Action :=
  match nameIn (request t) w, document t with
  | Some (c :: n), Some d => [CacheAdd d (c :: n) response]
  | _, _ => []
  end.

Definition receivedActions (t : Task) (env : Env) (response : HttpResponse)
  (w : World) : list Action :=
  if isCancelledIn (request t) w then []
  else
    Update Received (Some response)
    :: cacheActions t response w
    ++ RunTests response (testsIn (request t) w)
    :: previewActions t env response
         (testRunner env response (testsIn (request t) w))
    ++ [AddToRequestHistory (request t)].

Definition resumeActions (t : Task) (a : Answer) (env : Env) (w : World)
  : list Action :=
  match pc t, a with
  | AwaitScript script rest, ScriptRan b =>
      Resumed a
      :: (Shows <$> (execute script b).1)
      ++ match (execute script b).2 with
         | None => []
         | Some (Fulfilled _) => startActions rest
         | Some (Rejected e) => catchActions t e w
         end
  | AwaitSend, SendSettled o =>
      Resumed a
      :: match o with
         | Fulfilled response => receivedActions t env response w
         | Rejected e => catchActions t e w
         end
  | AwaitHistory, HistorySettled o =>
      Resumed a
      :: match o with
         | Fulfilled _ => []
         | Rejected e => catchActions t e w
         end
  | _, _ => []
  end.

(** Where the resumed task waits next; [None] when [runCore] is over. *)
Definition nextPc (t : Task) (a : Answer) (w : World) : option Pc :=
  match pc t, a with
  | AwaitScript script rest, ScriptRan b =>
      match (execute script b).2 with
      | None => Some Stuck
      | Some (Fulfilled _) => Some (startPc rest)
      | Some (Rejected _) => None
      end
  | AwaitSend, SendSettled (Fulfilled _) =>
      if isCancelledIn (request t) w then None else Some AwaitHistory
  | AwaitSend, SendSettled (Rejected _) => None
  | AwaitHistory, HistorySettled _ => None
  | p, _ => Some p
  end.

(** The status entry after the [Update] actions of a list. *)
Definition statusAfter (l : list Action)
  (s : option (RequestState * option HttpResponse))
  : option (RequestState * option HttpResponse) :=
  foldl (λ s a, match a with
                | Update state response => Some (state, response)
                | _ => s
                end) s l.

(** The cache after the [CacheAdd] actions of a list. *)
Definition cacheAfter (l : list Action)
  (m : gmap (TextDocument * jsstring) HttpResponse)
  : gmap (TextDocument * jsstring) HttpResponse :=
  foldl (λ m a, match a with
                | CacheAdd d n response => RequestVariableCache.add d n response m
                | _ => m
                end) m l.

(** A call together with what it does to the world: the status entry, the
    cache and the webview are the only state the calls of a task change. *)
Definition perform (i : option RunId) (env : Env) (w : World) (a : Action) : World :=
  emit i a
    match a with
    | Update state response => setStatusEntry (Some (state, response)) w
    | CacheAdd d n response =>
        setCache (RequestVariableCache.add d n response (cache w)) w
    | RenderWebview response result column =>
        setWebview
          (HttpResponseWebview.render (systemSettings env) response result column
             (webview w)) w
    | _ => w
    end.

(** The webview after the [RenderWebview] actions of a list. *)
Definition webviewAfter (env : Env) (l : list Action) (v : HttpResponseWebview.State)
  : HttpResponseWebview.State :=
  foldl (λ v a, match a with
                | RenderWebview response result column =>
                    HttpResponseWebview.render (systemSettings env) response
                      result column v
                | _ => v
                end) v l.

(** The numbering of invocations and requests, the pending request and the
    cache, as they are in every world the controller reaches. *)
Definition wellNumbered (w : World) : Prop :=
  (∀ t, t ∈ tasks w →
     (invocation t < nextRun w)%nat ∧ (request t < nextRequest w)%nat)
  ∧ descending (tasks w)
  ∧ (∀ i a, (Some i, a) ∈ log w → (i < nextRun w)%nat)
  ∧ (∀ r s, lastRequestSettingTuple w = Some (r, s) → (r < nextRequest w)%nat)
  ∧ (∀ r, lastPendingRequest w = Some r →
       ∃ t ts, tasks w = t :: ts ∧ request t = r)
  ∧ cache w = cacheOf (log w).

(** An invocation that makes no call any more: it is over, or it waits for a
    promise that is never settled. *)
Definition idle (i : RunId) (w : World) : Prop :=
  findTask i (tasks w) = None
  ∨ ∃ t, findTask i (tasks w) = Some t ∧ pc t = Stuck.

(** The request objects are those the parser has built so far. *)
Definition requestsExist (w : World) : Prop :=
  ∀ r, is_Some (store w !! r) ↔ (r < nextRequest w)%nat.

(** A task at another place. *)
Definition withPc (t : Task) (p : Pc) : Task :=
  {| invocation := invocation t; request := request t; settings := settings t;
     document := document t; pc := p |}.

(** How a step relates the calls and the task of one invocation before and
    after: nothing changed; the invocation was started by the step; or it was
    resumed by the step. *)
Definition unchangedAt (i : RunId) (w w' : World) : Prop :=
  actionsOf i (log w') = actionsOf i (log w)
  ∧ findTask i (tasks w') = findTask i (tasks w).

Definition started (r : ReqId) (s : IRestClientSettings) (d : option TextDocument)
  (w w' : World) : Prop :=
  (∀ i, i ≠ nextRun w → unchangedAt i w w')
  ∧ actionsOf (nextRun w) (log w) = []
  ∧ findTask (nextRun w) (tasks w) = None
  ∧ actionsOf (nextRun w) (log w')
    = Invoke r d :: Update Pending None :: startActions (scriptsIn r w')
  ∧ findTask (nextRun w) (tasks w')
    = Some {| invocation := nextRun w; request := r; settings := s; document := d;
              pc := startPc (scriptsIn r w') |}.

Definition resumed (j : RunId) (t : Task) (a : Answer) (env : Env) (w w' : World)
  : Prop :=
  (∀ i, i ≠ j → unchangedAt i w w')
  ∧ actionsOf j (log w') = actionsOf j (log w) ++ resumeActions t a env w
  ∧ findTask j (tasks w') = withPc t <$> nextPc t a w.

(** The calls of an invocation after its entry make no write, or exactly one
    write: the one that follows the arrival of the response, under the
    document of the invocation and the name of its request. *)
Definition writeShape (w : World) (r : ReqId) (d : option TextDocument)
  (tl : list Action) : Prop :=
  (∀ a, a ∈ tl → ¬ isCacheAdd a)
  ∨ ∃ pre response d' c n post,
      d = Some d' ∧ nameIn r w = Some (c :: n)
      ∧ tl = pre ++ [Resumed (SendSettled (Fulfilled response));
                     Update Received (Some response);
                     CacheAdd d' (c :: n) response] ++ post
      ∧ (∀ a, a ∈ pre ++ post → ¬ isCacheAdd a).

Definition writesOnce (w : World) (i : RunId) : Prop :=
  (∀ t, findTask i (tasks w) = Some t →
     ∃ tl, actionsOf i (log w) = Invoke (request t) (document t) :: tl)
  ∧ (∀ t, findTask i (tasks w) = Some t → pc t ≠ AwaitHistory →
       ∀ a, a ∈ actionsOf i (log w) → ¬ isCacheAdd a)
  ∧ (actionsOf i (log w) = []
     ∨ ∃ r d tl, actionsOf i (log w) = Invoke r d :: tl
                 ∧ (r < nextRequest w)%nat ∧ writeShape w r d tl).

(** The calls of an invocation up to its send: the entry, then the scripts in
    list order, each returned before the next, then the send. *)
Definition scriptsInOrder (w : World) (i : RunId) : Prop :=
  (∀ t, findTask i (tasks w) = Some t →
     (request t < nextRequest w)%nat
     ∧ match pc t with
       | AwaitScript script rest =>
           truthy script = true
           ∧ ∃ before, scriptsIn (request t) w = before ++ script :: rest
               ∧ actionsOf i (log w)
                 = Invoke (request t) (document t) :: Update Pending None
                     :: scriptTrace before ++ [Execute script]
       | AwaitSend =>
           actionsOf i (log w)
           = Invoke (request t) (document t) :: Update Pending None
               :: scriptTrace (scriptsIn (request t) w) ++ [Send]
       | AwaitHistory => True
       | Stuck => Send ∉ actionsOf i (log w)
       end)
  ∧ (Send ∈ actionsOf i (log w) →
     ∃ r d post,
       (r < nextRequest w)%nat
       ∧ actionsOf i (log w)
         = Invoke r d :: Update Pending None
             :: scriptTrace (scriptsIn r w) ++ Send :: post).

(** The responses that have arrived for invocations of request [r], in the
    order of their arrival. *)
Definition responsesFor (r : ReqId) (w : World) : list HttpResponse :=
  omap (λ e, match e with
             | (Some i, Resumed (SendSettled (Fulfilled response))) =>
                 match actionsOf i (log w) with
                 | Invoke r' _ :: _ => if decide (r' = r) then Some response else None
                 | _ => None
                 end
             | _ => None
             end) (log w).

End RequestController.

(** ** Selector

    Modelled from the spec: utils/selector.ts is not among the sources; the
    definitions of this module follow section 4.1 of the design document. *)

Module Selector.

(** Modelled from the spec: "RequestBlock: { rawText, range (ordered
    start/end position), metadata: mapping of recognized key → optional string
    value }".  The range is in lines, and [rawText] is the body. *)
Record RequestBlock := {
  rawText : jsstring;
  range : nat * nat;
  metadata : gmap jsstring (option jsstring) }.

(** Modelled from the spec: the pieces of a list between the elements that
    separate it; the lines of a text are its pieces between line feeds, the
    candidate blocks of a document the pieces between its boundary lines. *)
Fixpoint splitOn {A} (sep : A → bool) (l : list A) : list (list A) :=
  match l with
  | [] => [[]]
  | x :: l' =>
      if sep x then [] :: splitOn sep l'
      else match splitOn sep l' with
           | piece :: pieces => (x :: piece) :: pieces
           | [] => [[x]]
           end
  end.

Definition lines (text : jsstring) : list jsstring := splitOn (N.eqb 10) text.

Fixpoint startsWith (p s : jsstring) : bool :=
  match p, s with
  | [], _ => true
  | a :: p', b :: s' => (a =? b) && startsWith p' s'
  | _ :: _, [] => false
  end.

Fixpoint trimStart (s : jsstring) : jsstring :=
  match s with
  | c :: s' => if isWhiteSpace c then trimStart s' else s
  | [] => []
  end.

Definition trim (s : jsstring) : jsstring := reverse (trimStart (reverse (trimStart s))).

(** Modelled from the spec: "A line consisting of ### (optionally followed by
    a name) at the start of a line (leading whitespace ignored) marks a block
    boundary". *)
Definition isBoundary (line : jsstring) : bool :=
  startsWith (lit "###") (trimStart line).

Definition isBlank (line : jsstring) : bool := forallb isWhiteSpace line.

(** The text up to the first [c], and the text after it if there is one. *)
Fixpoint cut (c : N) (s : jsstring) : jsstring * option jsstring :=
  match s with
  | [] => ([], None)
  | x :: s' =>
      if x =? c then ([], Some s')
      else let '(before, after) := cut c s' in (x :: before, after)
  end.

(** Modelled from the spec: "Metadata lines are comment-prefixed lines (# or
    //) ... of the form @key[:value]". *)
Definition metadataOf (line : jsstring) : option (jsstring * option jsstring) :=
  let afterPrefix :=
    match trimStart line with
    | 35 :: rest => Some rest                    (* # *)
    | 47 :: 47 :: rest => Some rest              (* // *)
    | _ => None
    end in
  match trimStart <$> afterPrefix with
  | Some (64 :: entry) =>                        (* @ *)
      let '(key, value) := cut 58 entry in      (* : *)
      Some (trim key, trim <$> value)
  | _ => None
  end.

(** Modelled from the spec: "parsing of metadata stops at the first
    non-metadata, non-blank line, which becomes the body start"; "unknown
    metadata keys are ignored". *)
Fixpoint parseBlock (recognized : jsstring → bool) (ls : list jsstring)
  (found : gmap jsstring (option jsstring))
  : gmap jsstring (option jsstring) * list jsstring :=
  match ls with
  | [] => (found, [])
  | l :: ls' =>
      if isBlank l then parseBlock recognized ls' found
      else match metadataOf l with
           | Some (key, value) =>
               parseBlock recognized ls'
                 (if recognized key then <[key := value]> found else found)
           | None => (found, l :: ls')
           end
  end.

Fixpoint joinLines (ls : list jsstring) : jsstring :=
  match ls with
  | [] => []
  | [l] => l
  | l :: ls' => l ++ 10 :: joinLines ls'
  end.

(** The body of a candidate block. *)
Definition bodyOf (recognized : jsstring → bool) (candidate : list jsstring) : jsstring :=
  joinLines (parseBlock recognized candidate ∅).2.

(** Modelled from the spec: "Blocks whose trimmed body is empty are
    dropped". *)
Definition hasEmptyBody (recognized : jsstring → bool) (candidate : list jsstring) : bool :=
  bool_decide (trim (bodyOf recognized candidate) = []).

Definition candidates (documentText : jsstring) : list (list jsstring) :=
  splitOn isBoundary (lines documentText).

(** The blocks of the candidates from line [first] on; a boundary line lies
    between two candidates. *)
Fixpoint blocksFrom (recognized : jsstring → bool) (first : nat)
  (cs : list (list jsstring)) : list RequestBlock :=
  match cs with
  | [] => []
  | c :: cs' =>
      let rest := blocksFrom recognized (first + length c + 1) cs' in
      if hasEmptyBody recognized c then rest
      else {| rawText := bodyOf recognized c;
              range := (first, first + length c - 1)%nat;
              metadata := (parseBlock recognized c ∅).1 |} :: rest
  end.

(** Modelled from the spec: "split(documentText) -> ordered list of
    RequestBlock"; "text before the first boundary (or the whole document if
    none) is block 0". *)
Definition split (recognized : jsstring → bool) (documentText : jsstring)
  : list RequestBlock :=
  blocksFrom recognized 0 (candidates documentText).

End Selector.

(** ** The contract of the Selector

    Modelled from the spec: the words of section 4.1 and of the invariant on
    the count of blocks, as relations.  None of them uses a function of
    [Selector]; the theorems on [split] compare the two. *)

Module SelectorContract.

(** The pieces of a list between its separators: no piece holds a separator,
    and the list is the pieces with one separator between each two. *)
Inductive pieces {A} (sep : A → Prop) : list A → list (list A) → Prop :=
| pieces_last piece :
    Forall (λ x, ¬ sep x) piece → pieces sep piece [piece]
| pieces_next piece x rest ps :
    Forall (λ x, ¬ sep x) piece → sep x → pieces sep rest ps →
    pieces sep (piece ++ x :: rest) (piece :: ps).

(** The elements of a list that have a property, in their order. *)
Inductive selected {A} (P : A → Prop) : list A → list A → Prop :=
| selected_nil : selected P [] []
| selected_keep x l k : P x → selected P l k → selected P (x :: l) (x :: k)
| selected_drop x l k : ¬ P x → selected P l k → selected P (x :: l) k.

(** A text of white space only: its trimmed text is empty. *)
Definition whiteSpace (s : jsstring) : Prop :=
  Forall (λ c, isWhiteSpace c = true) s.

(** The lines of a text are its pieces between line feeds. *)
Definition lineFeed (c : N) : Prop := c = 10.

Definition linesOf (text : jsstring) (ls : list jsstring) : Prop :=
  pieces lineFeed text ls.

(** Modelled from the spec: "A line consisting of ### (optionally followed by
    a name) at the start of a line (leading whitespace ignored) marks a block
    boundary". *)
Definition boundary (line : jsstring) : Prop :=
  ∃ indent name, whiteSpace indent ∧ line = indent ++ lit "###" ++ name.

(** Modelled from the spec: "text before the first boundary (or the whole
    document if none) is block 0": the candidate blocks are the pieces of the
    lines between the boundaries. *)
Definition candidatesOf (ls : list jsstring) (cs : list (list jsstring)) : Prop :=
  pieces boundary ls cs.

(** Modelled from the spec: "Metadata lines are comment-prefixed lines (# or
    //) ... of the form @key[:value]". *)
Definition metadataLine (line : jsstring) : Prop :=
  ∃ indent comment gap entry,
    whiteSpace indent ∧ (comment = lit "#" ∨ comment = lit "//")
    ∧ whiteSpace gap ∧ line = indent ++ comment ++ gap ++ 64 :: entry.

(** A line that the search for the body start passes over. *)
Definition passedOver (line : jsstring) : Prop :=
  whiteSpace line ∨ metadataLine line.

(** Modelled from the spec: "parsing of metadata stops at the first
    non-metadata, non-blank line, which becomes the body start".  The body is
    the text whose lines are the lines of the candidate from the body start
    on, and the empty text when the candidate has no body start. *)
Inductive bodyIs : list jsstring → jsstring → Prop :=
| body_none candidate :
    Forall passedOver candidate → bodyIs candidate []
| body_from before start after body :
    Forall passedOver before → ¬ passedOver start →
    linesOf body (start :: after) →
    bodyIs (before ++ start :: after) body.

(** Modelled from the spec: "Blocks whose trimmed body is empty". *)
Definition emptyBody (candidate : list jsstring) : Prop :=
  ∃ body, bodyIs candidate body ∧ whiteSpace body.

End SelectorContract.

(** ** VariableResolver and VariableProviders

    Modelled from the spec: the resolver and the providers are not among the
    sources; the definitions of this module follow sections 3, 4.4 and 4.5 of
    the design document.  Where the document leaves a behaviour open, the
    choice made is said at the definition. *)

Module VariableResolver.

(** Modelled from the spec: a value is a string, or a native value that is
    "stringified (JSON-encoded for non-string values) before interpolation";
    a native value is kept as its JSON encoding. *)
Inductive Value :=
| Text (s : jsstring)
| Native (json : jsstring).

Definition stringify (v : Value) : jsstring :=
  match v with
  | Text s => s
  | Native json => json
  end.

(** Modelled from the spec: the scanner yields literal text and "top-level
    {{ ... }} spans". *)
Inductive Segment :=
| Literal (text : jsstring)
| Placeholder (inner : jsstring).

Definition rawToken (inner : jsstring) : jsstring :=
  [123; 123] ++ inner ++ [125; 125].

Definition render (segments : list Segment) : jsstring :=
  segments ≫= λ g, match g with
                   | Literal text => text
                   | Placeholder inner => rawToken inner
                   end.

(** The scanner is outside a span, with the literal text read since the last
    span, or inside one, at nesting level one or two, with the literal text
    read before the span and the text of the span read so far. *)
Inductive ScanState :=
| Outside (text : jsstring)
| Inside (text : jsstring) (nested : bool) (inner : jsstring).

Definition literal (text : jsstring) : list Segment :=
  match text with
  | [] => []
  | _ => [Literal text]
  end.

(** Modelled from the spec: "a single-pass balanced-brace scanner (one level
    of internal nesting permitted ...; deeper nesting is not supported and is
    treated as literal text)".  A span that is not closed at the end of the
    text is literal text too. *)
Fixpoint scanFrom (st : ScanState) (s : jsstring) {struct s} : list Segment :=
  match s with
  | [] =>
      match st with
      | Outside text => literal text
      | Inside text _ inner => literal (text ++ [123; 123] ++ inner)
      end
  | c :: s' =>
      let single :=
        scanFrom match st with
                 | Outside text => Outside (text ++ [c])
                 | Inside text nested inner => Inside text nested (inner ++ [c])
                 end s' in
      match s' with
      | c' :: s'' =>
          if (c =? 123) && (c' =? 123) then
            match st with
            | Outside text => scanFrom (Inside text false []) s''
            | Inside text false inner => scanFrom (Inside text true (inner ++ [123; 123])) s''
            | Inside text true inner =>
                scanFrom (Outside (text ++ [123; 123] ++ inner ++ [123; 123])) s''
            end
          else if (c =? 125) && (c' =? 125) then
            match st with
            | Outside _ => single
            | Inside text false inner =>
                literal text ++ Placeholder inner :: scanFrom (Outside []) s''
            | Inside text true inner => scanFrom (Inside text false (inner ++ [125; 125])) s''
            end
          else single
      | [] => single
      end
  end.

Definition scan (s : jsstring) : list Segment := scanFrom (Outside []) s.

(** Modelled from the spec: "Placeholder occurrence: { rawToken, variableName,
    optional path/fallback expression, ... }" and "parse
    variableName[.path][|fallback]".  A system function is followed by its
    arguments, separated by spaces. *)
Record Reference := {
  variableName : jsstring;
  path : option jsstring;
  arguments : list jsstring;
  fallback : option jsstring }.

Definition parseSpan (inner : jsstring) : Reference :=
  let '(body, alternative) := Selector.cut 124 inner in        (* | *)
  let body := Selector.trim body in
  if Selector.startsWith [36] body then                         (* $ *)
    match filter (λ word, word ≠ []) (Selector.splitOn (N.eqb 32) body) with
    | function :: args =>
        {| variableName := function; path := None; arguments := args;
           fallback := Selector.trim <$> alternative |}
    | [] =>
        {| variableName := body; path := None; arguments := [];
           fallback := Selector.trim <$> alternative |}
    end
  else
    let '(n, p) := Selector.cut 46 body in                      (* . *)
    {| variableName := n; path := p; arguments := [];
       fallback := Selector.trim <$> alternative |}.

(** Modelled from the spec: "Each provider: canResolve(name) -> bool,
    resolve(name, args, context) -> value | notFound"; a bad argument of a
    system function is an error of the span. *)
Inductive Lookup :=
| Found (v : Value)
| NotFound
| BadArgument.

Record Provider := {
  canResolve : Reference → bool;
  resolve : Reference → Lookup }.

(** Modelled from the spec: "(1) system functions ($-prefixed names)"; the
    built-ins, with their clock and random source, are a parameter. *)
Definition system (builtin : jsstring → list jsstring → Lookup) : Provider :=
  {| canResolve ref := Selector.startsWith [36] (variableName ref);
     resolve ref := builtin (variableName ref) (arguments ref) |}.

(** Modelled from the spec: "(2) request-variable references (name.response.*
    / name.request.* against the cache snapshot)"; "must treat a missing
    entry as not-found rather than an error".  Reading a path off a response
    is a parameter. *)
Definition requestVariable
  (cacheSnapshot : gmap (TextDocument * jsstring) HttpResponse)
  (document : TextDocument)
  (extract : HttpResponse → jsstring → Lookup) : Provider :=
  {| canResolve ref :=
       match path ref with
       | Some p => Selector.startsWith (lit "response") p
                   || Selector.startsWith (lit "request") p
       | None => false
       end;
     resolve ref :=
       match cacheSnapshot !! (document, variableName ref), path ref with
       | Some response, Some p => extract response p
       | _, _ => NotFound
       end |}.

(** Modelled from the spec: "File-scoped and environment providers are
    effectively static mappings"; the process environment is one too.  A
    mapping knows the names it holds, without a path. *)
Definition mapping (variables : gmap jsstring jsstring) : Provider :=
  {| canResolve ref :=
       match path ref with
       | None => bool_decide (is_Some (variables !! variableName ref))
       | Some _ => false
       end;
     resolve ref :=
       match variables !! variableName ref with
       | Some v => Found (Text v)
       | None => NotFound
       end |}.

(** Modelled from the spec: "Query providers strictly in this priority order,
    first match wins: (1) system functions, (2) request-variable references,
    (3) file-scoped variables, (4) environment-profile variables, (5)
    process/host environment variables". *)
Definition providersOf (builtin : jsstring → list jsstring → Lookup)
  (cacheSnapshot : gmap (TextDocument * jsstring) HttpResponse)
  (document : TextDocument) (extract : HttpResponse → jsstring → Lookup)
  (fileScoped environment processEnv : gmap jsstring jsstring) : list Provider :=
  [system builtin; requestVariable cacheSnapshot document extract;
   mapping fileScoped; mapping environment; mapping processEnv].

(** Modelled from the spec: "ResolutionOutcome: { name, resolvedValue |
    warning("unresolved") | error("circular"/"bad-argument") }"; the circular
    error "reports the full name chain". *)
Inductive Problem :=
| UnresolvedVariableWarning
| CircularVariableReference (chain : list jsstring)
| UnknownSystemFunctionArgument.

Record ResolutionOutcome := { name : jsstring; problem : Problem }.

Definition isError (o : ResolutionOutcome) : Prop :=
  match problem o with
  | UnresolvedVariableWarning => False
  | _ => True
  end.

(** What becomes of a span: it is replaced by a value, with the warnings of
    the values resolved on the way; it is kept as literal text, with a
    warning; or it is aborted with an error. *)
Inductive SpanResult :=
| Replaced (v : Value) (warnings : list ResolutionOutcome)
| Kept (warning : ResolutionOutcome)
| Failed (error : ResolutionOutcome).

(** What becomes of the text of a value that is resolved again. *)
Inductive TextResult :=
| Resolved (text : jsstring) (warnings : list ResolutionOutcome)
| Aborted (error : ResolutionOutcome).

Section Resolution.

Variable providers : list Provider.

(** A value that is resolved again: its text is scanned, and each span of it
    is resolved by [recur], one level down; an error in one of them aborts
    the whole. *)
Definition resolveSegment (recur : jsstring → SpanResult) (acc : TextResult)
  (g : Segment) : TextResult :=
  match acc with
  | Aborted e => Aborted e
  | Resolved text ws =>
      match g with
      | Literal l => Resolved (text ++ l) ws
      | Placeholder inner =>
          match recur inner with
          | Replaced v ws' => Resolved (text ++ stringify v) (ws ++ ws')
          | Kept w => Resolved (text ++ rawToken inner) (ws ++ [w])
          | Failed e => Aborted e
          end
      end
  end.

(** [recur] is missing when the maximum depth is reached: the value is then
    taken as it is. *)
Definition resolveAgain (recur : option (jsstring → SpanResult)) (s : jsstring)
  : SpanResult :=
  match recur with
  | None => Replaced (Text s) []
  | Some f =>
      match foldl (resolveSegment f) (Resolved [] []) (scan s) with
      | Resolved text ws => Replaced (Text text) ws
      | Aborted e => Failed e
      end
  end.

(** Modelled from the spec: "A resolved value that itself contains
    placeholders is resolved again, up to a fixed maximum recursion depth per
    top-level span; if a name is revisited within the same resolution chain
    before termination, abort that span with a CircularVariableReference error
    identifying the full chain of names"; "If no provider recognizes the name,
    leave the placeholder's literal text unchanged in the output and record an
    UnresolvedVariableWarning naming it".  [depth] is the number of further
    levels allowed; [chain] holds the names in progress.  A fallback stands in
    for a value that the recognizing provider does not find. *)
Fixpoint resolveSpan (depth : nat) (chain : list jsstring) (inner : jsstring)
  {struct depth} : SpanResult :=
  let ref := parseSpan inner in
  if bool_decide (variableName ref ∈ chain) then
    Failed {| name := default (variableName ref) (head chain);
              problem := CircularVariableReference (chain ++ [variableName ref]) |}
  else
    match find (λ p, canResolve p ref) providers with
    | None => Kept {| name := variableName ref; problem := UnresolvedVariableWarning |}
    | Some p =>
        let again :=
          resolveAgain
            match depth with
            | 0%nat => None
            | S depth' => Some (resolveSpan depth' (chain ++ [variableName ref]))
            end in
        match resolve p ref with
        | Found (Text s) => again s
        | Found (Native json) => Replaced (Native json) []
        | NotFound =>
            match fallback ref with
            | Some s => again s
            | None =>
                Kept {| name := variableName ref; problem := UnresolvedVariableWarning |}
            end
        | BadArgument =>
            Failed {| name := variableName ref; problem := UnknownSystemFunctionArgument |}
        end
    end.

(** A span of a field, at the top level of the resolution. *)
Definition resolveTop (maxDepth : nat) (inner : jsstring)
  : jsstring * list ResolutionOutcome :=
  match resolveSpan maxDepth [] inner with
  | Replaced v ws => (stringify v, ws)
  | Kept w => (rawToken inner, [w])
  | Failed e => (rawToken inner, [e])
  end.

(** Modelled from the spec: "When a field's entire value is exactly one
    placeholder (no surrounding literal text) and the descriptor's encoding
    permits it, substitute the provider's native value structurally ...;
    otherwise values are stringified ... before interpolation". *)
Definition resolveField (maxDepth : nat) (permitsNative : bool) (v : Value)
  : Value * list ResolutionOutcome :=
  match v with
  | Native _ => (v, [])
  | Text s =>
      match scan s, permitsNative with
      | [Placeholder inner], true =>
          match resolveSpan maxDepth [] inner with
          | Replaced v' ws => (v', ws)
          | Kept w => (Text s, [w])
          | Failed e => (Text s, [e])
          end
      | segments, _ =>
          let '(text, outcomes) :=
            foldl (λ acc g,
                     match g with
                     | Literal l => (acc.1 ++ l, acc.2)
                     | Placeholder inner =>
                         let '(t, os) := resolveTop maxDepth inner in
                         (acc.1 ++ t, acc.2 ++ os)
                     end) ([], []) segments in
          (Text text, outcomes)
      end
  end.

(** Modelled from the spec: "RequestDescriptor: { method, url, headers:
    ordered mapping ..., body: text or binary-file reference, name,
    preRequestScript, testScript }". *)
Inductive Body :=
| Content (v : Value)
| FileReference (filePath : jsstring).

Record RequestDescriptor := {
  method : Value;
  url : Value;
  headers : list (jsstring * Value);
  body : option Body;
  requestName : option Value;
  preRequestScript : option Value;
  testScript : option Value }.

Definition resolveOptional (maxDepth : nat) (v : option Value)
  : option Value * list ResolutionOutcome :=
  match v with
  | Some x => let '(y, os) := resolveField maxDepth false x in (Some y, os)
  | None => (None, [])
  end.

Definition resolveHeaders (maxDepth : nat) (hs : list (jsstring * Value))
  : list (jsstring * Value) * list ResolutionOutcome :=
  foldr (λ h acc,
           let '(y, os) := resolveField maxDepth false h.2 in
           ((h.1, y) :: acc.1, os ++ acc.2)) ([], []) hs.

Definition resolveBody (maxDepth : nat) (permitsNative : bool) (b : option Body)
  : option Body * list ResolutionOutcome :=
  match b with
  | Some (Content v) =>
      let '(y, os) := resolveField maxDepth permitsNative v in (Some (Content y), os)
  | other => (other, [])
  end.

(** Modelled from the spec: "resolve(descriptor, providers, cacheSnapshot) ->
    (resolvedDescriptor, list of warnings/errors)"; "For every string-valued
    field, scan ...".  The providers hold the cache snapshot. *)
Definition resolveDescriptor (maxDepth : nat) (permitsNative : bool)
  (d : RequestDescriptor) : RequestDescriptor * list ResolutionOutcome :=
  let '(m, o1) := resolveField maxDepth false (method d) in
  let '(u, o2) := resolveField maxDepth false (url d) in
  let '(hs, o3) := resolveHeaders maxDepth (headers d) in
  let '(b, o4) := resolveBody maxDepth permitsNative (body d) in
  let '(n, o5) := resolveOptional maxDepth (requestName d) in
  let '(p, o6) := resolveOptional maxDepth (preRequestScript d) in
  let '(t, o7) := resolveOptional maxDepth (testScript d) in
  ({| method := m; url := u; headers := hs; body := b; requestName := n;
      preRequestScript := p; testScript := t |},
   o1 ++ o2 ++ o3 ++ o4 ++ o5 ++ o6 ++ o7).

End Resolution.

(** A name that stands for itself in a span: not empty, no [$] in front, and
    without braces, bars, dots and white space. *)
Definition plainName (a : jsstring) : Prop :=
  a ≠ [] ∧ head a ≠ Some 36
  ∧ Forall (λ c, c ≠ 123 ∧ c ≠ 125 ∧ c ≠ 124 ∧ c ≠ 46 ∧ isWhiteSpace c = false) a.

(** No provider recognizes the span. *)
Definition unrecognized (providers : list Provider) (inner : jsstring) : Prop :=
  find (λ p, canResolve p (parseSpan inner)) providers = None.

(** A field in which no recognizable placeholder is left. *)
Definition settled (providers : list Provider) (v : Value) : Prop :=
  match v with
  | Text s => ∀ inner, Placeholder inner ∈ scan s → unrecognized providers inner
  | Native _ => True
  end.

Definition settledOptional (providers : list Provider) (v : option Value) : Prop :=
  match v with
  | Some x => settled providers x
  | None => True
  end.

Definition fullyResolved (providers : list Provider) (d : RequestDescriptor) : Prop :=
  settled providers (method d) ∧ settled providers (url d)
  ∧ Forall (λ h, settled providers h.2) (headers d)
  ∧ match body d with
    | Some (Content v) => settled providers v
    | _ => True
    end
  ∧ settledOptional providers (requestName d)
  ∧ settledOptional providers (preRequestScript d)
  ∧ settledOptional providers (testScript d).

(** The warnings of the placeholders that stand in a field as literal text. *)
Definition warningOf (g : Segment) : option ResolutionOutcome :=
  match g with
  | Placeholder inner =>
      Some {| name := variableName (parseSpan inner);
              problem := UnresolvedVariableWarning |}
  | Literal _ => None
  end.

Definition standing (v : Value) : list ResolutionOutcome :=
  match v with
  | Text s => omap warningOf (scan s)
  | Native _ => []
  end.

Definition standingOptional (v : option Value) : list ResolutionOutcome :=
  match v with
  | Some x => standing x
  | None => []
  end.

Definition standingIn (d : RequestDescriptor) : list ResolutionOutcome :=
  standing (method d) ++ standing (url d)
  ++ (headers d ≫= λ h, standing h.2)
  ++ match body d with
     | Some (Content v) => standing v
     | _ => []
     end
  ++ standingOptional (requestName d)
  ++ standingOptional (preRequestScript d)
  ++ standingOptional (testScript d).

(** The text the scanner has read and not yet given out. *)
Definition pending (st : ScanState) : jsstring :=
  match st with
  | Outside text => text
  | Inside text _ inner => text ++ [123; 123] ++ inner
  end.

End VariableResolver.

(** ** Example data for the concrete runs below *)

Module Examples.

Import RequestController.

Definition systemSettings0 : SystemSettings :=
  {| showResponseInDifferentTab := false;
     previewResponsePanelTakeFocus := true;
     requestNameAsResponseTabTitle := false |}.

Definition env0 : Env :=
  {| activeTextEditor := Some (Col 1);
     systemSettings := systemSettings0;
     testRunner := λ _ _, NoTests |}.

Definition settings0 : IRestClientSettings :=
  {| previewColumn := (-2)%Z;
     previewResponseInUntitledDocument := false;
     timeoutInMilliseconds := 0 |}.

Definition response1 : HttpResponse :=
  {| statusCode := 200; requestName := Some (lit "login");
     timingTotal := Some 5; responseBody := lit "one" |}.

Definition response2 : HttpResponse :=
  {| statusCode := 200; requestName := Some (lit "login");
     timingTotal := Some 7; responseBody := lit "two" |}.

(** A thrown [Error] object. *)
Definition error0 : Thrown :=
  Obj None (Some (lit "boom")) (Some (lit "Error: boom")).

(** The named request of a.http is sent. *)
Definition sent : World :=
  exec [RunCommand (Some (lit "login")) None None settings0 (lit "a.http")] initial.

(** Its response has arrived and the history is written. *)
Definition done : World :=
  exec [Settle 0 (SendSettled (Fulfilled response1)) env0;
        Settle 0 (HistorySettled (Fulfilled ())) env0] sent.

(** It is run again by rerun. *)
Definition resent : World := exec [RerunCommand] done.

(** A second request is sent while the first is still under way. *)
Definition twoSent : World :=
  exec [RunCommand None None None settings0 (lit "b.http")] sent.

(** A request with one script, which is running. *)
Definition scripted : World :=
  exec [RunCommand None (Some [Some (lit "throw new Error()")]) None settings0
          (lit "a.http")] initial.

(** The request is cancelled while it is sent. *)
Definition cancelled : World := exec [CancelCommand] sent.

(** The request is cancelled while its script runs; then the script throws. *)
Definition scriptCancelled : World :=
  exec [CancelCommand; Settle 0 (ScriptRan (ScriptRunner.Throws error0)) env0]
    scripted.

(** The response to the rerun has arrived. *)
Definition reanswered : World :=
  exec [Settle 1 (SendSettled (Fulfilled response2)) env0] resent.

(** The resolver's stores: one file-scoped variable, nothing else. *)
Definition fileVariables0 : gmap jsstring jsstring :=
  {[ lit "host" := lit "example.com" ]}.

Definition providers0 : list VariableResolver.Provider :=
  VariableResolver.providersOf (λ _ _, VariableResolver.NotFound) ∅ []
    (λ _ _, VariableResolver.NotFound) fileVariables0 ∅ ∅.

(** A descriptor after resolution: the one placeholder left names a variable
    that nothing defines. *)
Definition resolved0 : VariableResolver.RequestDescriptor :=
  {| VariableResolver.method := VariableResolver.Text (lit "GET");
     VariableResolver.url :=
       VariableResolver.Text (lit "https://example.com/{{missing}}");
     VariableResolver.headers :=
       [(lit "Accept", VariableResolver.Text (lit "*/*"))];
     VariableResolver.body := None;
     VariableResolver.requestName := Some (VariableResolver.Text (lit "login"));
     VariableResolver.preRequestScript := None;
     VariableResolver.testScript := None |}.

(** File-scoped variables [a] and [b] that are defined by each other. *)
Definition circularVariables : gmap jsstring jsstring :=
  {[ lit "a" := VariableResolver.rawToken (lit "b");
     lit "b" := VariableResolver.rawToken (lit "a") ]}.

(** A document of three candidate blocks, the second with metadata and a
    blank line only; the last body holds ### inside a line. *)
Definition documentLines0 : list jsstring :=
  [lit "GET https://a/x";
   lit "### second";
   lit "# @name n";
   [];
   lit "  ### third";
   lit "// @note";
   lit "POST https://a/y";
   [];
   lit "note=a ### b"].

Definition document0 : jsstring :=
  lit "GET https://a/x" ++ 10 :: lit "### second" ++ 10 :: lit "# @name n"
  ++ 10 :: 10 :: lit "  ### third" ++ 10 :: lit "// @note"
  ++ 10 :: lit "POST https://a/y" ++ 10 :: 10 :: lit "note=a ### b".

Definition recognized0 (key : jsstring) : bool :=
  bool_decide (key ∈ [lit "name"; lit "note"]).

End Examples.

(** ** Strings of the page

    What the page builders use of [String.prototype]: [indexOf], and
    [replace] with a global regular expression and a function. *)

Module JsString.

(** The code units of [p] stand at the start of [s]. *)
Fixpoint hasPrefix (p s : jsstring) : bool :=
  match p, s with
  | [], _ => true
  | a :: p', b :: s' => (a =? b) && hasPrefix p' s'
  | _ :: _, [] => false
  end.

(** [s.indexOf(p)]; [None] stands for -1. *)
Fixpoint indexOf (p s : jsstring) : option nat :=
  if hasPrefix p s then Some 0%nat
  else match s with
       | [] => None
       | _ :: s' => S <$> indexOf p s'
       end.

(** One pattern character at the start of [s]: what follows it. *)
Definition eatChar (ic : bool) (p : N) (s : jsstring) : option jsstring :=
  match s with
  | c :: s' => if atomMatches ic (Char p) c then Some s' else None
  | [] => None
  end.

(** A sequence of pattern characters at the start of [s]. *)
Fixpoint eatLit (ic : bool) (p s : jsstring) : option jsstring :=
  match p with
  | [] => Some s
  | x :: p' => eatChar ic x s ≫= eatLit ic p'
  end.

Section Replace.
Context {St : Type}.

(** The length of the match of the regular expression that starts at the
    start of the text, if there is one.  The expressions of the page match no
    empty text; a length of 0 counts as no match. *)
Variable matchAt : jsstring → option nat.

(** The function given to [replace]; it may keep a state of its own. *)
Variable replacer : St → jsstring → St * jsstring.

(** [s.replace(regexp, replacer)] for a regular expression with the [g]
    flag: the text is searched from the left, a match is replaced by what the
    function returns for it and the search goes on behind the match; what no
    match covers is copied.  [skip] counts the code units that still belong
    to the last match. *)
Fixpoint replaceFrom (st : St) (skip : nat) (s : jsstring) : jsstring :=
  match s with
  | [] => []
  | c :: s' =>
      match skip with
      | S k => replaceFrom st k s'
      | O =>
          match matchAt s with
          | Some (S n) =>
              let '(st', out) := replacer st (take (S n) s) in
              out ++ replaceFrom st' n s'
          | _ => c :: replaceFrom st 0 s'
          end
      end
  end.

End Replace.

End JsString.

(** ** views/httpResponseWebview.ts: cleanLineBreaks and addUrlLinks *)

Module ResponseHtml.

Import JsString.

(** *** cleanLineBreaks *)

(** [[^>]*>]: the number of code units up to the first [>], with it.  The
    class takes every code unit before that [>], and nothing shorter can be
    followed by [>]. *)
Fixpoint upToGt (s : jsstring) : option nat :=
  match s with
  | [] => None
  | c :: s' => if c =? 62 then Some 1%nat else S <$> upToGt s'
  end.

(** [span[^>]*>] *)
Definition spanName (s : jsstring) : option nat :=
  eatLit true (lit "span") s ≫= λ s', (λ n, 4 + n)%nat <$> upToGt s'.

(** [<\/?span[^>]*>]: with the slash first, and without it when that fails. *)
Definition spanTag (s : jsstring) : option nat :=
  eatChar true 60 s ≫= λ s1,
    match eatChar true 47 s1 ≫= spanName with
    | Some n => Some (2 + n)%nat
    | None => (λ n, 1 + n)%nat <$> spanName s1
    end.

(** [\r\n|\r|\n] *)
Definition lineBreak (s : jsstring) : option nat :=
  match s with
  | c :: s' =>
      if c =? 13 then
        match s' with
        | d :: _ => if d =? 10 then Some 2%nat else Some 1%nat
        | [] => Some 1%nat
        end
      else if c =? 10 then Some 1%nat else None
  | [] => None
  end.

(** [/<\/?span[^>]*>|\r\n|\r|\n/ig] at the start of [s]. *)
Definition matcher (s : jsstring) : option nat :=
  match spanTag s with
  | Some n => Some n
  | None => lineBreak s
  end.

Definition isLineBreak (c : N) : bool := (c =? 13) || (c =? 10).

(** [newline.test(match)]: the expression is not anchored. *)
Definition hasLineBreak (m : jsstring) : bool := existsb isLineBreak m.

(** The function given to [replace], with the array [openSpans] it closes
    over: the last element of the list is the span opened last. *)
Definition onMatch (openSpans : list jsstring) (m : jsstring)
  : list jsstring * jsstring :=
  if hasLineBreak m then
    (openSpans,
     match openSpans with
     | _ :: _ => concat ((λ _, lit "</span>") <$> openSpans) ++ m ++ concat openSpans
     | [] => m
     end)
  else if hasPrefix (lit "</") m then (removelast openSpans, m)
  else (openSpans ++ [m], m).

Definition cleanLineBreaks (code : jsstring) : jsstring :=
  replaceFrom matcher onMatch [] 0 code.

(** *** addUrlLinks *)

(** The class of [urlRegex]: every code unit but white space, the two
    quotes, the angle brackets, the closing square bracket, the closing
    parenthesis and the backslash. *)
Definition isUrlChar (c : N) : bool :=
  negb (isWhiteSpace c || (c =? 34) || (c =? 39) || (c =? 60) || (c =? 62)
        || (c =? 93) || (c =? 41) || (c =? 92)).

(** The code units the class takes with [+]: as many as there are. *)
Fixpoint urlRun (s : jsstring) : nat :=
  match s with
  | c :: s' => if isUrlChar c then S (urlRun s') else 0%nat
  | [] => 0%nat
  end.

(** The colon, the two slashes and one or more code units of the class. *)
Definition afterScheme (s : jsstring) : option nat :=
  eatLit true (lit "://") s ≫= λ s',
    match urlRun s' with
    | O => None
    | S n => Some (3 + S n)%nat
    end.

(** [urlRegex] at the start of [s]: [http], case-insensitive, an optional
    [s] (with it first, and without it when that fails), and the rest. *)
Definition urlRegex (s : jsstring) : option nat :=
  eatLit true (lit "http") s ≫= λ s1,
    match eatChar true 115 s1 ≫= afterScheme with
    | Some n => Some (5 + n)%nat
    | None => (λ n, 4 + n)%nat <$> afterScheme s1
    end.

Definition encodedEndCharacters : list jsstring :=
  [lit "&lt;"; lit "&gt;"; lit "&quot;"; lit "&apos;"].

(** The [forEach] over [encodedEndCharacters]. *)
Definition urlEndPosition (m : jsstring) : nat :=
  foldl (λ position char,
           match indexOf char m with
           | Some index => if (index <? position)%nat then index else position
           | None => position
           end) (length m) encodedEndCharacters.

(** The function given to [replace]. *)
Definition link (m : jsstring) : jsstring :=
  let url := take (urlEndPosition m) m in
  let extraCharacters := drop (urlEndPosition m) m in
  lit "<a href=" ++ [34] ++ url ++ [34] ++ lit " target=" ++ [34]
  ++ lit "_blank" ++ [34] ++ lit " rel=" ++ [34] ++ lit "noopener noreferrer"
  ++ [34] ++ lit ">" ++ url ++ lit "</a>" ++ extraCharacters.

Definition addUrlLinks (innerHtml : jsstring) : jsstring :=
  replaceFrom urlRegex (λ (_ : unit) m, ((), link m)) () 0 innerHtml.

End ResponseHtml.

(** ** Highlighted code

    What [cleanLineBreaks] is given when the code comes from the
    highlighter: text in which [<] is escaped, spans, and line breaks. *)

Module Highlighted.

Import JsString ResponseHtml.

Inductive LineBreak := CRLF | CR | LF.

Inductive Piece :=
| Open (attributes : jsstring)      (* <span ATTRIBUTES> *)
| Close                             (* </span> *)
| Break (b : LineBreak)
| Text (c : N).

Definition breakText (b : LineBreak) : jsstring :=
  match b with
  | CRLF => [13; 10]
  | CR => [13]
  | LF => [10]
  end.

Definition openTag (attributes : jsstring) : jsstring :=
  lit "<span" ++ attributes ++ lit ">".

Definition pieceText (p : Piece) : jsstring :=
  match p with
  | Open attributes => openTag attributes
  | Close => lit "</span>"
  | Break b => breakText b
  | Text c => [c]
  end.

(** The code the pieces stand for. *)
Definition flatten (pieces : list Piece) : jsstring :=
  concat (pieceText <$> pieces).

(** The pieces are read back from the code as they are: a tag has neither
    [>] nor a line break in its attributes, a code unit of the text is
    neither [<] nor a line break, and a single carriage return is not followed
    by a single line feed. *)
Fixpoint wellFormed (pieces : list Piece) : Prop :=
  match pieces with
  | [] => True
  | p :: rest =>
      match p with
      | Open attributes =>
          Forall (λ c, c ≠ 62 ∧ isLineBreak c = false) attributes
      | Close => True
      | Break b => b = CR → head rest ≠ Some (Break LF)
      | Text c => c ≠ 60 ∧ isLineBreak c = false
      end
      ∧ wellFormed rest
  end.

(** The number of open spans after the pieces, from [depth] open spans;
    [None] when a span is closed that is not open. *)
Fixpoint depthAfter (depth : nat) (pieces : list Piece) : option nat :=
  match pieces with
  | [] => Some depth
  | Open _ :: rest => depthAfter (S depth) rest
  | Close :: rest =>
      match depth with
      | S d => depthAfter d rest
      | O => None
      end
  | _ :: rest => depthAfter depth rest
  end.

(** A line closes the spans it opens. *)
Definition balanced (line : list Piece) : Prop := depthAfter 0 line = Some 0%nat.

Definition isBreak (p : Piece) : bool :=
  match p with
  | Break _ => true
  | _ => false
  end.

(** The lines of the pieces: what stands between the line breaks. *)
Fixpoint linesOf (pieces : list Piece) : list (list Piece) :=
  match pieces with
  | [] => [[]]
  | p :: rest =>
      if isBreak p then [] :: linesOf rest
      else match linesOf rest with
           | line :: lines => (p :: line) :: lines
           | [] => [[p]]
           end
  end.

(** What [cleanLineBreaks] makes of the pieces, with the attributes of the
    spans that are open: at a line break the open spans are closed before it
    and opened again behind it. *)
Fixpoint clean (openSpans : list jsstring) (pieces : list Piece) : list Piece :=
  match pieces with
  | [] => []
  | Open attributes :: rest =>
      Open attributes :: clean (openSpans ++ [attributes]) rest
  | Close :: rest => Close :: clean (removelast openSpans) rest
  | Break b :: rest =>
      ((λ _, Close) <$> openSpans) ++ Break b :: (Open <$> openSpans)
      ++ clean openSpans rest
  | Text c :: rest => Text c :: clean openSpans rest
  end.

End Highlighted.

(** ** views/httpResponseWebview.ts: getFoldingRange

    The folding ranges of the lines of the highlighted code, by their
    indentation. *)

Module ResponsePage.

(** [line.search(/\S/)]: the index of the first code unit that is not white
    space; [None] stands for -1. *)
Fixpoint search (line : jsstring) : option nat :=
  match line with
  | [] => None
  | c :: line' => if isWhiteSpace c then S <$> search line' else Some 0%nat
  end.

(** [lines.map((line, index) => [index, line.search(/\S/)])
          .filter(([, num]) => num !== -1)] *)
Definition leadingSpaceCount (lines : list jsstring) : list (nat * nat) :=
  omap (λ e, (λ num, (e.1, num)) <$> search e.2) (imap pair lines).

(** The [while] loop.  The top of the stack is the head of the list: while
    the entry on top has a count that is not below [count], it is popped and
    its line gets the range that ends at [lineIndex]. *)
Fixpoint popWhile (count lineIndex : nat) (stack : list (nat * nat))
  (result : gmap nat (nat * nat)) : list (nat * nat) * gmap nat (nat * nat) :=
  match stack with
  | prev :: stack' =>
      if (count <=? prev.2)%nat
      then popWhile count lineIndex stack'
             (<[S prev.1 := (S prev.1, lineIndex)]> result)
      else (stack, result)
  | [] => ([], result)
  end.

(** The body of the [for] loop for an entry and the entry before it. *)
Definition visit (prev cur : nat * nat)
  (st : list (nat * nat) * gmap nat (nat * nat))
  : list (nat * nat) * gmap nat (nat * nat) :=
  if (prev.2 <? cur.2)%nat then (prev :: st.1, st.2)
  else if (cur.2 <? prev.2)%nat then popWhile cur.2 cur.1 st.1 st.2
  else st.

Fixpoint loop (prev : nat * nat) (rest : list (nat * nat))
  (st : list (nat * nat) * gmap nat (nat * nat))
  : list (nat * nat) * gmap nat (nat * nat) :=
  match rest with
  | [] => st
  | cur :: rest' => loop cur rest' (visit prev cur st)
  end.

(** The result maps the number of a line (from 1) to its range. *)
Definition getFoldingRange (lines : list jsstring) : gmap nat (nat * nat) :=
  match leadingSpaceCount lines with
  | [] => ∅
  | first :: rest => (loop first rest ([], ∅)).2
  end.

(** The indentation of line [i] (from 0), when the line exists and is not
    blank. *)
Definition indentOf (lines : list jsstring) (i : nat) : option nat :=
  lines !! i ≫= search.

(** The entry that closes a block of indentation [c]: the first with a count
    that is not above [c]. *)
Fixpoint closing (c : nat) (rest : list (nat * nat)) : option nat :=
  match rest with
  | [] => None
  | y :: rest' => if (y.2 <=? c)%nat then Some y.1 else closing c rest'
  end.

(** The ranges of the blocks that start in a list of entries, added to [m]:
    an entry starts a block when the next entry has a greater count, and the
    block has a range when an entry closes it. *)
Fixpoint rangesOnto (entries : list (nat * nat)) (m : gmap nat (nat * nat))
  : gmap nat (nat * nat) :=
  match entries with
  | [] => m
  | x :: rest =>
      let m' := rangesOnto rest m in
      match rest with
      | y :: _ =>
          if (x.2 <? y.2)%nat
          then match closing x.2 rest with
               | Some e => <[S x.1 := (S x.1, e)]> m'
               | None => m'
               end
          else m'
      | [] => m'
      end
  end.

(** The ranges of the entries on the stack that the entries to come close. *)
Definition closeStack (rest stack : list (nat * nat)) (m : gmap nat (nat * nat))
  : gmap nat (nat * nat) :=
  foldr (λ x m, match closing x.2 rest with
                | Some e => <[S x.1 := (S x.1, e)]> m
                | None => m
                end) m stack.

(** The counts on the stack grow towards the top and stay below [c]; so do
    the line indexes, below [i]. *)
Fixpoint below (i c : nat) (stack : list (nat * nat)) : Prop :=
  match stack with
  | [] => True
  | x :: stack' => (x.1 < i)%nat ∧ (x.2 < c)%nat ∧ below x.1 x.2 stack'
  end.

(** The line indexes of the entries grow. *)
Fixpoint ascending (entries : list (nat * nat)) : Prop :=
  match entries with
  | [] => True
  | x :: rest => Forall (λ y, (x.1 < y.1)%nat) rest ∧ ascending rest
  end.

(** Among the entries, line [p] of indentation [c] starts a block that the
    entry of line [e] closes: an entry lies between the two, the entries
    between them are indented more than [c], and that of [e] is not. *)
Definition foldsAt (entries : list (nat * nat)) (p c e : nat) : Prop :=
  (p, c) ∈ entries
  ∧ (∃ c', (e, c') ∈ entries ∧ (c' ≤ c)%nat)
  ∧ (∃ n cn, (n, cn) ∈ entries ∧ (p < n < e)%nat)
  ∧ (∀ n cn, (n, cn) ∈ entries → (p < n < e)%nat → (c < cn)%nat).

End ResponsePage.

(** ** views/httpResponseWebview.ts: the active panel and the commands *)

Module ResponseCommands.

Import HttpResponseWebview.

(** The getter [activeResponse]. *)
Definition activeResponse (w : State) : option HttpResponse :=
  match activePanel w with
  | Some p => panelResponses w !! p
  | None => None
  end.

(** [copyBody]: the text written to the clipboard, if any is. *)
Definition copyBody (w : State) : option jsstring :=
  responseBody <$> activeResponse w.

(** The listener [render] registers with [panel.onDidChangeViewState];
    [active] is the [active] property of the panels when the event fires. *)
Definition onDidChangeViewState (webviewPanel : PanelId) (active : PanelId → bool)
  (w : State) : State :=
  {| panels := panels w;
     activePanel := if active webviewPanel then Some webviewPanel else None;
     panelResponses := panelResponses w;
     previewActiveContext := existsb active (panels w);
     panelStore := panelStore w;
     nextPanel := nextPanel w |}.

(** What happens to the webview: a render, and the events of its panels. *)
Inductive Event :=
| Rendered (settings : SystemSettings) (response : HttpResponse)
    (testRunnerResult : TestRunnerResult) (column : Column)
| Disposed (panel : PanelId)
| ViewStateChanged (webviewPanel : PanelId) (active : PanelId → bool).

Definition handle (e : Event) (w : State) : State :=
  match e with
  | Rendered settings response result column =>
      render settings response result column w
  | Disposed panel => (onDidDispose panel w).1
  | ViewStateChanged webviewPanel active => onDidChangeViewState webviewPanel active w
  end.

Definition play (events : list Event) (w : State) : State :=
  foldl (λ w e, handle e w) w events.

(** The editor reports the view state of panels that are open. *)
Definition expected (e : Event) (w : State) : Prop :=
  match e with
  | ViewStateChanged webviewPanel _ => webviewPanel ∈ panels w
  | _ => True
  end.

Inductive reached : State → Prop :=
| reached_initial : reached initial
| reached_handle (e : Event) (w : State) :
    reached w → expected e w → reached (handle e w).

(** Every open panel has a stored response, and it is the response its page
    was rendered from. *)
Definition pagesShowResponses (w : State) : Prop :=
  ∀ p, p ∈ panels w →
    ∃ response result object,
      panelResponses w !! p = Some response
      ∧ panelStore w !! p = Some object
      ∧ html object = Some (response, result).

Definition activeIsOpen (w : State) : Prop :=
  ∀ p, activePanel w = Some p → p ∈ panels w.

(** Every render of the events has [showResponseInDifferentTab] off. *)
Definition sameTab (events : list Event) : Prop :=
  Forall (λ e, match e with
               | Rendered settings _ _ _ => showResponseInDifferentTab settings = false
               | _ => True
               end) events.

End ResponseCommands.

(** ** controllers/requestController.ts: what an invocation does in all *)

Module ControllerCourse.

Import ScriptRunner RequestController.

Definition isSend (a : Action) : bool :=
  match a with
  | Send => true
  | _ => false
  end.

Definition isHistory (a : Action) : bool :=
  match a with
  | AddToRequestHistory _ => true
  | _ => false
  end.

Definition isResumed (a : Action) : bool :=
  match a with
  | Resumed _ => true
  | _ => false
  end.

(** How many calls of a kind a list holds. *)
Fixpoint count (f : Action → bool) (l : list Action) : nat :=
  match l with
  | [] => 0
  | a :: l' => (if f a then 1 else 0) + count f l'
  end.

(** The calls of an invocation of request [r] that has added the request to
    the history: the entry follows the send, the arrival of a response and
    the update to Received, with no other [await] in between. *)
Definition recorded (r : ReqId) (acts : list Action) : Prop :=
  ∃ d before response mid post,
    acts = Invoke r d :: before
           ++ [Send; Resumed (SendSettled (Fulfilled response));
               Update Received (Some response)]
           ++ mid ++ AddToRequestHistory r :: post
    ∧ count isResumed mid = 0%nat.

(** The sends and the history entries of an invocation whose task waits at
    a place. *)
Definition sendsAt (p : Pc) : nat :=
  match p with
  | AwaitSend | AwaitHistory => 1
  | _ => 0
  end.

Definition historiesAt (p : Pc) : nat :=
  match p with
  | AwaitHistory => 1
  | _ => 0
  end.

(** One send and one history entry at most, by the place of the task. *)
Definition course (w : World) (i : RunId) : Prop :=
  match findTask i (tasks w) with
  | Some t =>
      count isSend (actionsOf i (log w)) = sendsAt (pc t)
      ∧ count isHistory (actionsOf i (log w)) = historiesAt (pc t)
  | None =>
      (count isSend (actionsOf i (log w)) ≤ 1)%nat
      ∧ (count isHistory (actionsOf i (log w))
         ≤ count isSend (actionsOf i (log w)))%nat
  end
  ∧ (∀ r, AddToRequestHistory r ∈ actionsOf i (log w) →
       recorded r (actionsOf i (log w))).

(** [_lastRequestSettingTuple] holds the request of the invocation that was
    started last. *)
Definition lastStarted (w : World) : Prop :=
  match lastRequestSettingTuple w with
  | None => nextRun w = 0%nat
  | Some (r, s) =>
      ∃ i d tl, nextRun w = S i ∧ actionsOf i (log w) = Invoke r d :: tl
  end.

End ControllerCourse.

(** ** views/httpTreeProvider.ts: openDocument *)

Module HttpTreeProvider.

(** [tab.input]: a text document with its URI, as [uri.toString()] gives it,
    or an input of another class. *)
Inductive TabInput :=
| TabInputText (uri : jsstring)
| OtherInput.

Record TabGroup := { tabs : list TabInput; viewColumn : Z }.

(** The arguments of [vscode.window.showTextDocument]. *)
Record ShowTextDocument := {
  shownUri : jsstring;
  preview : bool;
  shownColumn : Z;
  selection : option (nat * nat) }.

(** [ViewColumn.One] *)
Definition ViewColumn_One : Z := 1%Z.

(** The inner [for] loop: whether a tab of the group shows the document. *)
Fixpoint tabLoop (uri : jsstring) (tabs : list TabInput) : bool :=
  match tabs with
  | [] => false
  | TabInputText u :: rest => if decide (u = uri) then true else tabLoop uri rest
  | OtherInput :: rest => tabLoop uri rest
  end.

(** The outer [for] loop: the column of the call it returns after. *)
Fixpoint groupLoop (uri : jsstring) (tabGroups : list TabGroup) : option Z :=
  match tabGroups with
  | [] => None
  | tabGroup :: rest =>
      if tabLoop uri (tabs tabGroup) then Some (viewColumn tabGroup)
      else groupLoop uri rest
  end.

(** The one call of [showTextDocument] that [openDocument] makes. *)
Definition openDocument (uri : jsstring) (range : option (nat * nat))
  (tabGroups : list TabGroup) : ShowTextDocument :=
  {| shownUri := uri; preview := false;
     shownColumn := default ViewColumn_One (groupLoop uri tabGroups);
     selection := range |}.

End HttpTreeProvider.

(* ================================================================== *)
(** * Theorems *)
(* ================================================================== *)

(** ** The parser factory *)

Section FactoryProofs.
Import RequestParserFactory.

Lemma canonicalize_upper (c p : N) :
  65 <= p <= 90 → canonicalize c = p ↔ (c = p + 32 ∨ c = p).
Proof.
  intros Hp. unfold canonicalize.
  destruct (97 <=? c) eqn:Hlo; destruct (c <=? 122) eqn:Hhi; simpl;
    rewrite ?N.leb_le, ?N.leb_gt in *; split; intros; lia.
Qed.

Lemma atomMatches_letter (c p : N) :
  97 <= p <= 122 →
  atomMatches true (Char p) c = true ↔ (c = p ∨ c = p - 32).
Proof.
  intros Hp. simpl. rewrite N.eqb_eq.
  assert (Hc : canonicalize p = p - 32).
  { unfold canonicalize.
    destruct (97 <=? p) eqn:Hlo; destruct (p <=? 122) eqn:Hhi; simpl;
      rewrite ?N.leb_le, ?N.leb_gt in *; lia. }
  rewrite Hc, (canonicalize_upper c (p - 32)) by lia.
  split; intros [?|?]; subst; [left|right|left|right]; lia.
Qed.

(** The four letters, at a position that is or is not the start. *)
Lemma matchHere_curl_letters (b : bool) (s : jsstring) :
  matchHere true [One (Char 99); One (Char 117); One (Char 114); One (Char 108)] b s = true
  ↔ ∃ c u r l rest, s = c :: u :: r :: l :: rest
      ∧ (c = 99 ∨ c = 67) ∧ (u = 117 ∨ u = 85)
      ∧ (r = 114 ∨ r = 82) ∧ (l = 108 ∨ l = 76).
Proof.
  split.
  - destruct s as [|c [|u [|r [|l rest]]]]; cbn [matchHere];
      rewrite ?andb_true_iff, ?andb_false_r; try (intuition discriminate).
    intros (Hc & Hu & Hr & Hl & _).
    apply atomMatches_letter in Hc, Hu, Hr, Hl; try lia.
    exists c, u, r, l, rest. cbn in *. intuition.
  - intros (c & u & r & l & rest & -> & Hc & Hu & Hr & Hl).
    cbn [matchHere]. rewrite !andb_true_iff.
    repeat split; try (apply atomMatches_letter; [lia | cbn; intuition]).
Qed.

(** The greedy star with backtracking finds a match exactly when some
    whitespace prefix is followed by the letters. *)
Lemma matchHere_curl (s : jsstring) :
  matchHere true (body curlRegex) true s = true ↔ beginsWithCurl s.
Proof.
  unfold curlRegex, body. cbn [matchHere andb].
  set (letters := [One (Char 99); One (Char 117); One (Char 114); One (Char 108)]).
  match goal with |- ?f true s = true ↔ _ => set (star := f) end.
  assert (Hstar : ∀ s b, star b s = true
            ↔ ∃ ws rest, s = ws ++ rest
                ∧ Forall (λ x, isWhiteSpace x = true) ws
                ∧ matchHere true letters (b && bool_decide (ws = [])) rest = true).
  { clear s. induction s as [|c s IH]; intros b.
    - cbn. split.
      + discriminate.
      + intros (ws & rest & Heq & _ & Hm).
        symmetry in Heq. apply app_eq_nil in Heq as [-> ->]. exact Hm.
    - change (star b (c :: s))
        with ((atomMatches true Space c && star false s) || matchHere true letters b (c :: s)).
      rewrite orb_true_iff, andb_true_iff, IH. split.
      + intros [[Hc (ws & rest & -> & Hws & Hm)] | Hm].
        * exists (c :: ws), rest. split; [done|]. split; [by constructor|].
          rewrite andb_false_l in Hm. by rewrite andb_comm.
        * exists [], (c :: s). split; [done|]. split; [constructor|].
          apply matchHere_curl_letters in Hm. by apply matchHere_curl_letters.
      + intros (ws & rest & Heq & Hws & Hm). destruct ws as [|w ws].
        * right. simpl in Heq. subst rest.
          apply matchHere_curl_letters in Hm. by apply matchHere_curl_letters.
        * left. injection Heq as -> ->. inversion Hws; subst.
          split; [done|]. exists ws, rest. split; [done|]. split; [done|].
          apply matchHere_curl_letters in Hm. by apply matchHere_curl_letters. }
  rewrite Hstar. unfold beginsWithCurl. split.
  - intros (ws & rest & -> & Hws & Hm).
    apply matchHere_curl_letters in Hm as (c & u & r & l & rest' & -> & H).
    exists ws, c, u, r, l, rest'. tauto.
  - intros (ws & c & u & r & l & rest & -> & Hws & H).
    exists ws, (c :: u :: r :: l :: rest). split; [done|]. split; [done|].
    apply matchHere_curl_letters. exists c, u, r, l, rest. tauto.
Qed.

(** [^] never holds at an index after the first. *)
Lemma testFrom_curl_later (s : jsstring) : testFrom curlRegex false s = false.
Proof. induction s as [|c s IH]; [done|]. cbn. exact IH. Qed.

Lemma test_curl (s : jsstring) : test curlRegex s = true ↔ beginsWithCurl s.
Proof.
  unfold test. destruct s as [|c s].
  - cbn. split; [discriminate|].
    intros (ws & c & u & r & l & rest & Heq & _). by destruct ws.
  - change (testFrom curlRegex true (c :: s))
      with (matchHere true (body curlRegex) true (c :: s) || testFrom curlRegex false s).
    rewrite testFrom_curl_later, orb_false_r. apply matchHere_curl.
Qed.

(** C3.  The factory builds the curl parser exactly for the texts that begin,
    after optional white space, with the letters c, u, r, l in either case,
    and the plain HTTP parser for every other text; both receive the raw text
    as it is. *)
Theorem createRequestParser_selects_curl_iff
  (sys : IRestClientSettings) (raw document : jsstring)
  (settings : option IRestClientSettings) :
  (createRequestParser sys raw document settings
     = CurlRequestParser raw (default sys settings) ↔ beginsWithCurl raw)
  ∧ (createRequestParser sys raw document settings
     = HttpRequestParser raw (default sys settings) document ↔ ¬ beginsWithCurl raw).
Proof.
  unfold createRequestParser. rewrite <- test_curl.
  destruct (test curlRegex raw); split; split; intros; try done.
Qed.

End FactoryProofs.

(** ** The response webview *)

Section WebviewProofs.
Import HttpResponseWebview.

Lemma findIndex_Some (p : PanelId) (l : list PanelId) (i : nat) :
  findIndex p l = Some i → l !! i = Some p.
Proof.
  revert i. induction l as [|v l IH]; intros i; simpl; [done|].
  case_decide as Hv.
  - intros [= <-]. by subst.
  - destruct (findIndex p l) as [j|]; [|done]. intros [= <-]. by apply IH.
Qed.

Lemma findIndex_None (p : PanelId) (l : list PanelId) :
  findIndex p l = None ↔ p ∉ l.
Proof.
  induction l as [|v l IH]; cbn [findIndex].
  - split; [intros _; apply not_elem_of_nil | done].
  - rewrite not_elem_of_cons. case_decide as Hv.
    + split; [done | intros [? _]; congruence].
    + destruct (findIndex p l); cbn.
      * split; [done|]. intros [_ Hl]. by apply IH in Hl.
      * split; [|done]. intros _. split; [congruence | by apply IH].
Qed.

(** Removing the element at a position of a list without repetition removes
    exactly that element. *)
Lemma elem_of_delete_NoDup (l : list PanelId) (i : nat) (p q : PanelId) :
  NoDup l → l !! i = Some p → q ∈ delete i l ↔ q ∈ l ∧ q ≠ p.
Proof.
  intros Hnd Hi. rewrite delete_take_drop.
  pose proof (take_drop_middle l i p Hi) as Hmid.
  assert (Hl : q ∈ l ↔ q ∈ take i l ∨ q = p ∨ q ∈ drop (S i) l).
  { rewrite <- Hmid at 1. by rewrite elem_of_app, elem_of_cons. }
  rewrite <- Hmid in Hnd.
  apply NoDup_app in Hnd as (_ & Hdisj & Htail).
  apply NoDup_cons in Htail as [Hp _].
  rewrite Hl, elem_of_app. split.
  - intros [Hq|Hq].
    + split; [by left|]. intros ->. apply (Hdisj p Hq). by left.
    + split; [by right; right|]. by intros ->.
  - intros [[Hq|[->|Hq]] Hne]; [by left | done | by right].
Qed.

Lemma NoDup_delete (l : list PanelId) (i : nat) : NoDup l → NoDup (delete i l).
Proof. intros. eapply sublist_NoDup; [done | apply sublist_delete]. Qed.

Lemma render_keeps_invariants settings response result column (w : State) :
  responsesAreOpen w → panelsAreDistinct w →
  responsesAreOpen (render settings response result column w)
  ∧ panelsAreDistinct (render settings response result column w).
Proof.
  intros Hopen [Hnd Hlt]. unfold responsesAreOpen, panelsAreDistinct, render.
  cbn [panels panelResponses nextPanel].
  destruct (showResponseInDifferentTab settings || (length (panels w) =? 0)%nat)
    eqn:Hc.
  - split; [|split].
    + intros p. destruct (decide (p = nextPanel w)) as [->|Hne].
      * intros _. apply elem_of_app. right. by left.
      * rewrite lookup_insert_ne by done. intros Hp.
        apply elem_of_app. left. by apply Hopen.
    + apply NoDup_app. split; [done|]. split; [|apply NoDup_singleton].
      intros p Hp. rewrite list_elem_of_singleton. intros ->.
      apply Hlt in Hp. lia.
    + intros p [Hp|Hp]%elem_of_app.
      * apply Hlt in Hp. lia.
      * apply list_elem_of_singleton in Hp. lia.
  - apply orb_false_iff in Hc as [_ Hlen].
    destruct (last (panels w)) as [q|] eqn:Hlast.
    + split; [|done]. intros p. cbn [default].
      destruct (decide (p = q)) as [->|Hne].
      * intros _. by eapply last_Some_elem_of.
      * rewrite lookup_insert_ne by done. apply Hopen.
    + apply last_None in Hlast. rewrite Hlast in Hlen. discriminate.
Qed.

Lemma onDidDispose_keeps_invariants (p : PanelId) (w : State) :
  responsesAreOpen w → panelsAreDistinct w →
  responsesAreOpen (onDidDispose p w).1 ∧ panelsAreDistinct (onDidDispose p w).1.
Proof.
  intros Hopen [Hnd Hlt]. unfold responsesAreOpen, panelsAreDistinct, onDidDispose.
  cbn [fst panels panelResponses nextPanel].
  destruct (findIndex p (panels w)) as [i|] eqn:Hi; [|done].
  apply findIndex_Some in Hi. split; [|split].
  - intros q Hq. destruct (decide (q = p)) as [->|Hne].
    + rewrite lookup_delete_eq in Hq. by destruct Hq.
    + rewrite lookup_delete_ne in Hq by done.
      apply (elem_of_delete_NoDup _ _ p); auto.
  - by apply NoDup_delete.
  - intros q Hq. apply (elem_of_delete_NoDup _ _ p) in Hq as [Hq _]; auto.
Qed.

Lemma reachable_invariants (w : State) :
  reachable w → responsesAreOpen w ∧ panelsAreDistinct w.
Proof.
  intros [inputs ->]. induction inputs as [|x inputs IH] using rev_ind.
  - split; [|split].
    + intros p [? Hp]. cbn in Hp. by rewrite lookup_empty in Hp.
    + constructor.
    + intros p Hp. by apply elem_of_nil in Hp.
  - unfold exec in *. rewrite foldl_snoc. destruct IH as [Ho Hd].
    destruct x; simpl.
    + by apply render_keeps_invariants.
    + by apply onDidDispose_keeps_invariants.
Qed.

(** C10.  In every state the webview reaches by renders and panel disposals,
    each panel with a stored response is in the list of open panels.  A render
    leaves its panel in the list with the response stored for it; when
    showResponseInDifferentTab is false and the list is not empty that panel
    is the last of the list and no panel is created, otherwise it is a new
    panel appended to the list.  The disposal of an open panel removes it from
    the list and from the stored responses and touches no other panel, and it
    fires the all-panels-closed event exactly when the list, which was not
    empty, is empty afterwards; a render never leaves the list empty. *)
Theorem webview_panels_and_responses (w : State) :
  reachable w →
  responsesAreOpen w
  ∧ (∀ settings response result column,
       ∃ p, activePanel (render settings response result column w) = Some p
         ∧ p ∈ panels (render settings response result column w)
         ∧ panelResponses (render settings response result column w) !! p = Some response
         ∧ panels (render settings response result column w) ≠ []
         ∧ (showResponseInDifferentTab settings = false → panels w ≠ [] →
              last (panels w) = Some p
              ∧ panels (render settings response result column w) = panels w
              ∧ nextPanel (render settings response result column w) = nextPanel w)
         ∧ (showResponseInDifferentTab settings = true ∨ panels w = [] →
              (p ∉ panels w)
              ∧ panels (render settings response result column w) = panels w ++ [p]))
  ∧ (∀ p, p ∈ panels w →
       (p ∉ panels (onDidDispose p w).1)
       ∧ (panelResponses (onDidDispose p w).1) !! p = None
       ∧ (∀ q, q ≠ p →
            (q ∈ panels (onDidDispose p w).1 ↔ q ∈ panels w)
            ∧ (panelResponses (onDidDispose p w).1) !! q = panelResponses w !! q)
       ∧ panels w ≠ []
       ∧ ((onDidDispose p w).2 = true ↔ panels (onDidDispose p w).1 = [])).
Proof.
  intros Hr. destruct (reachable_invariants w Hr) as [Hopen [Hnd Hlt]].
  split; [done|]. split.
  - intros settings response result column. unfold render.
    cbn [panels panelResponses nextPanel activePanel].
    destruct (showResponseInDifferentTab settings) eqn:Hs; cbn [orb].
    + exists (nextPanel w). rewrite lookup_insert_eq.
      split; [done|]. split; [apply elem_of_app; right; by left|].
      split; [done|]. split; [by destruct (panels w)|].
      split; [done|]. intros _. split; [|done].
      intros Hp. apply Hlt in Hp. lia.
    + destruct (panels w) as [|a l] eqn:Hl; cbn [length Nat.eqb].
      * exists (nextPanel w). rewrite lookup_insert_eq.
        split; [done|]. split; [by left|]. split; [done|]. split; [done|].
        split; [done|]. intros _. split; [apply not_elem_of_nil | done].
      * destruct (last (a :: l)) as [q|] eqn:Hlast.
        -- exists q. cbn [default]. rewrite lookup_insert_eq.
           split; [done|]. split; [by eapply last_Some_elem_of|].
           split; [done|]. split; [done|]. split; [done|].
           intros [?|?]; done.
        -- by apply last_None in Hlast.
  - intros p Hp. unfold onDidDispose. cbn [fst snd panels panelResponses].
    destruct (findIndex p (panels w)) as [i|] eqn:Hi.
    + apply findIndex_Some in Hi.
      split; [rewrite (elem_of_delete_NoDup _ _ p) by done; tauto|].
      split; [apply lookup_delete_eq|].
      split.
      { intros q Hq. rewrite (elem_of_delete_NoDup _ _ p) by done.
        rewrite lookup_delete_ne by done. tauto. }
      split; [intros Hnil; rewrite Hnil in Hp; by apply elem_of_nil in Hp|].
      rewrite Nat.eqb_eq. apply length_zero_iff_nil.
    + apply findIndex_None in Hi. done.
Qed.

(** Two renders into one tab, then the tab is closed. *)
Lemma webview_panels_and_responses_witness :
  let systemSettings :=
    {| showResponseInDifferentTab := false; previewResponsePanelTakeFocus := true;
       requestNameAsResponseTabTitle := false |} in
  let response :=
    {| statusCode := 200; requestName := None; timingTotal := None;
       responseBody := [] |} in
  let w := exec [Render systemSettings response NoTests (Col 2);
                 Render systemSettings response NoTests (Col 2)] initial in
  reachable w
  ∧ responsesAreOpen w
  ∧ panels w = [0%nat]
  ∧ (onDidDispose 0%nat w).2 = true.
Proof.
  cbv zeta.
  match goal with |- reachable ?w ∧ _ => 
    assert (Hr : reachable w) by (eexists; reflexivity);
    pose proof (webview_panels_and_responses w Hr) as (Hopen & _ & Hd)
  end.
  split; [exact Hr|]. split; [exact Hopen|]. split; [reflexivity|].
  apply (Hd 0%nat); [by left | reflexivity].
Defined.

End WebviewProofs.

(** ** The request controller *)

(** An action is not in a list that is written out. *)
Ltac no_such_member :=
  unfold not;
  repeat (rewrite elem_of_cons || rewrite elem_of_app || rewrite elem_of_nil);
  intuition (try discriminate; eauto).

Section ControllerProofs.
Import ScriptRunner RequestController Examples.

(** *** The log and the tasks *)

Lemma actionsOf_app (i : RunId) (l k : list (option RunId * Action)) :
  actionsOf i (l ++ k) = actionsOf i l ++ actionsOf i k.
Proof. unfold actionsOf. by rewrite filter_app, fmap_app. Qed.

Lemma actionsOf_own (i : RunId) (a : Action) : actionsOf i [(Some i, a)] = [a].
Proof.
  unfold actionsOf. rewrite filter_cons, decide_True by done. done.
Qed.

Lemma actionsOf_other (i j : RunId) (a : Action) :
  j ≠ i → actionsOf i [(Some j, a)] = [].
Proof.
  intros. unfold actionsOf.
  rewrite filter_cons, decide_False by (cbn; congruence). done.
Qed.

Lemma actionsOf_command (i : RunId) (a : Action) : actionsOf i [(None, a)] = [].
Proof.
  unfold actionsOf. rewrite filter_cons, decide_False by done. done.
Qed.

Lemma findTask_Some (i : RunId) (ts : list Task) (t : Task) :
  findTask i ts = Some t → invocation t = i ∧ t ∈ ts.
Proof.
  induction ts as [|u ts IH]; cbn [findTask]; [done|].
  case_decide as Hu.
  - intros [= <-]. split; [done | by left].
  - intros [? ?]%IH. split; [done | by right].
Qed.

Lemma findTask_setPc (i j : RunId) (p : Pc) (ts : list Task) :
  findTask j (setPc i p ts)
  = if decide (j = i)
    then (λ t, {| invocation := invocation t; request := request t;
                  settings := settings t; document := document t; pc := p |})
           <$> findTask i ts
    else findTask j ts.
Proof.
  induction ts as [|u ts IH].
  - cbn. by case_decide.
  - unfold setPc in *. rewrite fmap_cons. cbn [findTask]. rewrite IH. clear IH.
    repeat case_decide; simplify_eq/=; try done.
Qed.

Lemma findTask_dropTask (i j : RunId) (ts : list Task) :
  findTask j (dropTask i ts) = if decide (j = i) then None else findTask j ts.
Proof.
  unfold dropTask. induction ts as [|u ts IH].
  - cbn. by case_decide.
  - rewrite filter_cons. cbn [findTask].
    repeat case_decide; simplify_eq/=; rewrite ?IH; repeat case_decide; simplify_eq/=; try done.
Qed.
(** *** What a resumed task does *)

Lemma startScripts_perform (i : RunId) (env : Env) (todo : list (option jsstring)) (w : World) :
  startScripts i todo w
  = (foldl (perform (Some i) env) w (startActions todo), startPc todo).
Proof.
  revert w. induction todo as [|script rest IH]; intros w;
    cbn [startScripts startActions startPc]; [done|].
  destruct (truthy script); [done|]. by rewrite IH.
Qed.

Lemma shown_perform (i : RunId) (env : Env) (shown : list Shown) (w : World) :
  foldl (λ w s, emit (Some i) (Shows s) w) w shown
  = foldl (perform (Some i) env) w (Shows <$> shown).
Proof. revert w. induction shown as [|s l IH]; intros w; cbn; [done|]. by rewrite IH. Qed.

Lemma catchBlock_perform (t : Task) (env : Env) (e : Thrown) (w : World) :
  catchBlock t e w = foldl (perform (Some (invocation t)) env) w (catchActions t e w).
Proof.
  unfold catchBlock, catchActions.
  destruct (isCancelledIn (request t) w); [done|]. by destruct e.
Qed.

Lemma preview_perform (t : Task) (env : Env) response result (w : World) :
  preview t env response result w
  = foldl (perform (Some (invocation t)) env) w (previewActions t env response result).
Proof.
  unfold preview, previewActions.
  destruct (activeTextEditor env); [|done]. cbn zeta.
  destruct (previewResponseInUntitledDocument (settings t)); [done|].
  by destruct (columnTruthy _).
Qed.

(** The calls change neither the request objects nor the controller's
    fields other than the status entry. *)
Lemma perform_frame (i : option RunId) (env : Env) (l : list Action) (w : World) :
  store (foldl (perform i env) w l) = store w
  ∧ nextRequest (foldl (perform i env) w l) = nextRequest w
  ∧ nextRun (foldl (perform i env) w l) = nextRun w
  ∧ tasks (foldl (perform i env) w l) = tasks w
  ∧ lastRequestSettingTuple (foldl (perform i env) w l) = lastRequestSettingTuple w
  ∧ lastPendingRequest (foldl (perform i env) w l) = lastPendingRequest w.
Proof.
  revert w. induction l as [|a l IH]; intros w; [done|].
  cbn [foldl]. destruct (IH (perform i env w a)) as (-> & -> & -> & -> & -> & ->).
  by destruct a.
Qed.

Lemma perform_log (i : option RunId) (env : Env) (l : list Action) (w : World) :
  log (foldl (perform i env) w l) = log w ++ ((λ a, (i, a)) <$> l).
Proof.
  revert w. induction l as [|a l IH]; intros w; cbn [foldl fmap list_fmap].
  - by rewrite app_nil_r.
  - rewrite IH. destruct a; cbn; by rewrite <- app_assoc.
Qed.

Lemma perform_cache (i : option RunId) (env : Env) (l : list Action) (w : World) :
  cache (foldl (perform i env) w l) = cacheAfter l (cache w).
Proof.
  unfold cacheAfter. revert w. induction l as [|a l IH]; intros w; [done|].
  cbn [foldl]. rewrite IH. by destruct a.
Qed.

Lemma perform_statusEntry (i : option RunId) (env : Env) (l : list Action) (w : World) :
  statusEntry (foldl (perform i env) w l) = statusAfter l (statusEntry w).
Proof.
  unfold statusAfter. revert w. induction l as [|a l IH]; intros w; [done|].
  cbn [foldl]. rewrite IH. by destruct a.
Qed.

Lemma perform_webview (i : option RunId) (env : Env) (l : list Action) (w : World) :
  webview (foldl (perform i env) w l) = webviewAfter env l (webview w).
Proof.
  unfold webviewAfter. revert w. induction l as [|a l IH]; intros w; [done|].
  cbn [foldl]. rewrite IH. by destruct a.
Qed.

Lemma catchActions_store (t : Task) (e : Thrown) (w w' : World) :
  store w' = store w → catchActions t e w' = catchActions t e w.
Proof. intros H. unfold catchActions, isCancelledIn. by rewrite H. Qed.

(** [resume] makes the calls of [resumeActions], one after the other, and
    runs the [finally] block when [runCore] is over. *)
Lemma resume_perform (t : Task) (a : Answer) (env : Env) (w : World) :
  resume t a env w
  = (let w1 := foldl (perform (Some (invocation t)) env) w (resumeActions t a env w) in
     if nextPc t a w is Some _ then w1 else finally (request t) w1,
     nextPc t a w).
Proof.
  unfold resume, nextPc, resumeActions.
  destruct (pc t) as [script rest| | |] eqn:Hpc; destruct a as [b|o|o];
    try reflexivity.
  - destruct (execute script b) as [shown promise]. cbn [fst snd].
    rewrite (shown_perform _ env), (startScripts_perform _ env).
    destruct promise as [[[]|e]|]; cbn [foldl]; rewrite ?foldl_app.
    + reflexivity.
    + rewrite (catchBlock_perform _ env).
      erewrite catchActions_store; [reflexivity|].
      exact (proj1 (perform_frame (Some (invocation t)) env (Shows <$> shown)
                      (perform (Some (invocation t)) env w (Resumed (ScriptRan b))))).
    + reflexivity.
  - destruct o as [response|e].
    + unfold received, receivedActions.
      change (isCancelledIn (request t) (emit (Some (invocation t))
                 (Resumed (SendSettled (Fulfilled response))) w))
        with (isCancelledIn (request t) w).
      destruct (isCancelledIn (request t) w) eqn:Hc; [done|].
      cbn zeta. rewrite (preview_perform _ env).
      unfold cacheActions.
      change (nameIn (request t) (update (Some (invocation t)) Received (Some response)
                (emit (Some (invocation t)) (Resumed (SendSettled (Fulfilled response))) w)))
        with (nameIn (request t) w).
      destruct (nameIn (request t) w) as [[|c n]|], (document t) as [d|];
        cbn [foldl app]; rewrite ?foldl_app; reflexivity.
    + cbn zeta. by rewrite (catchBlock_perform _ env).
  - destruct o as [[]|e]; [done|]. cbn zeta. by rewrite (catchBlock_perform _ env).
Qed.

Lemma appendLog_app (l k : list (option RunId * Action)) (w : World) :
  appendLog k (appendLog l w) = appendLog (l ++ k) w.
Proof. unfold appendLog. cbn. by rewrite app_assoc. Qed.

Lemma startScripts_appendLog (i : RunId) (todo : list (option jsstring)) (w : World) :
  startScripts i todo w
  = (appendLog ((λ a, (Some i, a)) <$> startActions todo) w, startPc todo).
Proof.
  revert w. induction todo as [|script rest IH]; intros w;
    cbn [startScripts startActions startPc]; [done|].
  destruct (truthy script); [done|]. rewrite IH.
  change (emit (Some i) (Execute script) w)
    with (appendLog [(Some i, Execute script)] w).
  by rewrite appendLog_app.
Qed.

Lemma runCore_spec (r : ReqId) (s : IRestClientSettings) (d : option TextDocument)
  (w : World) :
  log (runCore r s d w)
  = log w ++ ((λ a, (Some (nextRun w), a))
                <$> Invoke r d :: Update Pending None :: startActions (scriptsIn r w))
  ∧ tasks (runCore r s d w)
    = {| invocation := nextRun w; request := r; settings := s; document := d;
         pc := startPc (scriptsIn r w) |} :: tasks w
  ∧ store (runCore r s d w) = store w
  ∧ nextRequest (runCore r s d w) = nextRequest w
  ∧ nextRun (runCore r s d w) = S (nextRun w)
  ∧ lastRequestSettingTuple (runCore r s d w) = Some (r, s)
  ∧ lastPendingRequest (runCore r s d w) = Some r
  ∧ cache (runCore r s d w) = cache w
  ∧ statusEntry (runCore r s d w) = Some (Pending, None)
  ∧ webview (runCore r s d w) = webview w.
Proof.
  unfold runCore. rewrite startScripts_appendLog. cbn.
  rewrite <- !app_assoc. done.
Qed.

Lemma settle_absent (i : RunId) (a : Answer) (env : Env) (w : World) :
  findTask i (tasks w) = None → settle i a env w = w.
Proof. intros H. unfold settle. by rewrite H. Qed.

Lemma settle_present (i : RunId) (a : Answer) (env : Env) (w : World) (t : Task) :
  findTask i (tasks w) = Some t →
  log (settle i a env w)
  = log w ++ ((λ x, (Some i, x)) <$> resumeActions t a env w)
  ∧ tasks (settle i a env w)
    = match nextPc t a w with
      | Some p => setPc i p (tasks w)
      | None => dropTask i (tasks w)
      end
  ∧ store (settle i a env w) = store w
  ∧ nextRequest (settle i a env w) = nextRequest w
  ∧ nextRun (settle i a env w) = nextRun w
  ∧ lastRequestSettingTuple (settle i a env w) = lastRequestSettingTuple w
  ∧ cache (settle i a env w) = cacheAfter (resumeActions t a env w) (cache w)
  ∧ statusEntry (settle i a env w)
    = statusAfter (resumeActions t a env w) (statusEntry w)
  ∧ webview (settle i a env w) = webviewAfter env (resumeActions t a env w) (webview w)
  ∧ lastPendingRequest (settle i a env w)
    = match nextPc t a w with
      | Some _ => lastPendingRequest w
      | None => if decide (lastPendingRequest w = Some (request t)) then None
                else lastPendingRequest w
      end.
Proof.
  intros Ht. destruct (findTask_Some _ _ _ Ht) as [Hi _].
  unfold settle. rewrite Ht, resume_perform. cbn zeta. rewrite Hi.
  set (acts := resumeActions t a env w).
  destruct (perform_frame (Some i) env acts w) as (Hs & Hq & Hn & Hk & Hl & Hp).
  pose proof (perform_log (Some i) env acts w) as Hlog.
  pose proof (perform_cache (Some i) env acts w) as Hc.
  pose proof (perform_statusEntry (Some i) env acts w) as Hst.
  pose proof (perform_webview (Some i) env acts w) as Hw.
  destruct (nextPc t a w) as [p|]; cbn.
  - rewrite Hk. done.
  - unfold finally. rewrite Hp. case_decide; cbn; rewrite Hk; done.
Qed.

(** *** The invariants of the reachable worlds *)

Lemma cacheOf_app (i : option RunId) (l : list (option RunId * Action))
  (acts : list Action) :
  cacheOf (l ++ ((λ a, (i, a)) <$> acts)) = cacheAfter acts (cacheOf l).
Proof.
  unfold cacheOf, cacheAfter. rewrite foldl_app. generalize (foldl
    (λ m e, match e.2 with
            | CacheAdd d n response => RequestVariableCache.add d n response m
            | _ => m
            end) ∅ l).
  induction acts as [|a acts IH]; intros m; [done|]. cbn. apply IH.
Qed.

Lemma cacheAfter_free (acts : list Action)
  (m : gmap (TextDocument * jsstring) HttpResponse) :
  (∀ a, a ∈ acts → ¬ isCacheAdd a) → cacheAfter acts m = m.
Proof.
  unfold cacheAfter. revert m. induction acts as [|a acts IH]; intros m H; [done|].
  cbn [foldl]. rewrite IH.
  - assert (Ha : ¬ isCacheAdd a) by (apply H; by left). by destruct a.
  - intros b Hb. apply H. by right.
Qed.

Lemma startActions_no_CacheAdd (todo : list (option jsstring)) (a : Action) :
  a ∈ startActions todo → ¬ isCacheAdd a.
Proof.
  induction todo as [|s rest IH]; cbn [startActions].
  - intros ->%list_elem_of_singleton. by intros [].
  - intros [->|H]%elem_of_cons; [by intros []|].
    destruct (truthy s); [by apply elem_of_nil in H | by apply IH].
Qed.

Lemma elem_of_setPc (i : RunId) (p : Pc) (ts : list Task) (t' : Task) :
  t' ∈ setPc i p ts →
  ∃ t, t ∈ ts ∧ invocation t' = invocation t ∧ request t' = request t
       ∧ settings t' = settings t ∧ document t' = document t.
Proof.
  unfold setPc. intros (u & -> & Hu)%list_elem_of_fmap.
  exists u. split; [done|]. by case_decide.
Qed.

Lemma elem_of_dropTask (i : RunId) (ts : list Task) (t : Task) :
  t ∈ dropTask i ts → t ∈ ts.
Proof. unfold dropTask. by intros [_ ?]%list_elem_of_filter. Qed.

Lemma descending_setPc (i : RunId) (p : Pc) (ts : list Task) :
  descending ts → descending (setPc i p ts).
Proof.
  induction ts as [|t ts IH]; [done|]. intros [Hlt Hd].
  unfold setPc in *. rewrite fmap_cons. split; [|by apply IH].
  intros t' (u & Hu & Hi & _)%elem_of_setPc. rewrite Hi.
  specialize (Hlt u Hu). by case_decide.
Qed.

Lemma descending_dropTask (i : RunId) (ts : list Task) :
  descending ts → descending (dropTask i ts).
Proof.
  induction ts as [|t ts IH]; [done|]. intros [Hlt Hd].
  unfold dropTask in *. rewrite filter_cons. case_decide.
  - split; [|by apply IH]. intros t' Ht'%elem_of_dropTask. by apply Hlt.
  - by apply IH.
Qed.

Lemma initial_wellNumbered : wellNumbered initial.
Proof.
  unfold wellNumbered. cbn.
  split; [by intros t ?%elem_of_nil|]. split; [done|].
  split; [by intros i a ?%elem_of_nil|]. done.
Qed.

Lemma runCore_wellNumbered (r : ReqId) (s : IRestClientSettings)
  (d : option TextDocument) (w : World) :
  (r < nextRequest w)%nat → wellNumbered w → wellNumbered (runCore r s d w).
Proof.
  intros Hr (Hts & Hd & Hlog & Hl & Hp & Hc).
  destruct (runCore_spec r s d w)
    as (El & Et & Es & Eq & En & Etu & Ep & Ec & _ & _).
  unfold wellNumbered. rewrite El, Et, Eq, En, Etu, Ep, Ec.
  split; [|split; [|split; [|split; [|split]]]].
  - intros t [->|Ht]%elem_of_cons; cbn; [lia|].
    destruct (Hts t Ht). lia.
  - split; [|done]. intros t' Ht'. destruct (Hts t' Ht'). cbn. lia.
  - intros i a [Hi|Hi]%elem_of_app.
    + specialize (Hlog i a Hi). lia.
    + apply list_elem_of_fmap in Hi as (b & [= -> ->] & _). lia.
  - intros r' s' [= <- <-]. done.
  - intros r' [= <-]. eauto.
  - rewrite (cacheOf_app (Some (nextRun w))), cacheAfter_free; [done|].
    intros a [->|[->|Ha]%elem_of_cons]%elem_of_cons; [by intros []..|].
    by eapply startActions_no_CacheAdd.
Qed.

Lemma cacheOf_snoc (l : list (option RunId * Action)) (i : option RunId) (a : Action) :
  cacheOf (l ++ [(i, a)]) = cacheAfter [a] (cacheOf l).
Proof. exact (cacheOf_app i l [a]). Qed.

Lemma run_wellNumbered n sc ts s d (w : World) :
  wellNumbered w → wellNumbered (run n sc ts s d w).
Proof.
  intros (Hts & Hd & Hlog & Hl & Hp & Hc). unfold run.
  apply runCore_wellNumbered; [cbn; lia|].
  unfold wellNumbered. cbn.
  split; [|split; [done|split; [done|split; [|split; done]]]].
  - intros t Ht. destruct (Hts t Ht). lia.
  - intros r s' Hr. specialize (Hl r s' Hr). lia.
Qed.

Lemma rerun_wellNumbered (w : World) : wellNumbered w → wellNumbered (rerun w).
Proof.
  intros Hw. unfold rerun.
  destruct (lastRequestSettingTuple w) as [[r s]|] eqn:Hl; [|done].
  apply runCore_wellNumbered; [|done].
  destruct Hw as (_ & _ & _ & Hl' & _). by eapply Hl'.
Qed.

Lemma cancel_wellNumbered (w : World) : wellNumbered w → wellNumbered (cancel w).
Proof.
  intros (Hts & Hd & Hlog & Hl & Hp & Hc). unfold cancel, wellNumbered.
  destruct (lastPendingRequest w) as [r|] eqn:Hr; cbn; rewrite ?Hr.
  - split; [done|]. split; [done|]. split.
    { intros i a [[Hi|Hi]%elem_of_app|Hi]%elem_of_app; [by eapply Hlog|..];
        by apply list_elem_of_singleton in Hi. }
    split; [done|]. split; [done|].
    by rewrite !cacheOf_snoc.
  - split; [done|]. split; [done|]. split.
    { intros i a [Hi|Hi]%elem_of_app; [by eapply Hlog|];
        by apply list_elem_of_singleton in Hi. }
    split; [done|]. split; [done|].
    by rewrite !cacheOf_snoc.
Qed.

Lemma panelDisposed_wellNumbered p (w : World) :
  wellNumbered w → wellNumbered (panelDisposed p w).
Proof.
  intros (Hts & Hd & Hlog & Hl & Hp & Hc). unfold panelDisposed, wellNumbered.
  destruct (HttpResponseWebview.onDidDispose p (webview w)) as [v [|]]; cbn; [|done].
  split; [done|]. split; [done|]. split.
  { intros i a [[Hi|Hi]%elem_of_app|Hi]%elem_of_app; [by eapply Hlog|..];
      by apply list_elem_of_singleton in Hi. }
  split; [done|]. split; [done|].
  by rewrite !cacheOf_snoc.
Qed.

Lemma settle_wellNumbered i a env (w : World) :
  wellNumbered w → wellNumbered (settle i a env w).
Proof.
  intros (Hts & Hd & Hlog & Hl & Hp & Hc).
  destruct (findTask i (tasks w)) as [t|] eqn:Ht;
    [|by rewrite settle_absent].
  destruct (settle_present i a env w t Ht)
    as (El & Et & Es & Eq & En & Etu & Ec & _ & _ & Ep).
  destruct (findTask_Some _ _ _ Ht) as [Hi Hin].
  unfold wellNumbered. rewrite El, Et, Eq, En, Etu, Ec, Ep.
  split; [|split; [|split; [|split; [|split]]]].
  - intros t' Ht'. destruct (nextPc t a w).
    + apply elem_of_setPc in Ht' as (u & Hu & -> & -> & _). by apply Hts.
    + apply elem_of_dropTask in Ht'. by apply Hts.
  - destruct (nextPc t a w); [by apply descending_setPc | by apply descending_dropTask].
  - intros j b [Hj|Hj]%elem_of_app; [by eapply Hlog|].
    apply list_elem_of_fmap in Hj as (c & [= -> ->] & _).
    destruct (Hts t Hin). lia.
  - done.
  - intros r Hr. destruct (nextPc t a w) as [p|].
    + destruct (Hp r Hr) as (t0 & ts0 & E0 & R0). rewrite E0.
      unfold setPc. rewrite fmap_cons. eexists _, _. split; [done|].
      by case_decide.
    + case_decide as Hdec; [done|].
      destruct (Hp r Hr) as (t0 & ts0 & E0 & R0). rewrite E0.
      unfold dropTask. rewrite filter_cons.
      destruct (decide (invocation t0 ≠ i)) as [Hne|He]; [eauto|].
      apply dec_stable in He. rewrite E0 in Ht. cbn in Ht.
      rewrite decide_True in Ht by done. injection Ht as <-. congruence.
  - by rewrite Hc, (cacheOf_app (Some i)).
Qed.

Lemma step_wellNumbered (x : Input) (w : World) :
  wellNumbered w → wellNumbered (step x w).
Proof.
  destruct x; cbn [step];
    auto using run_wellNumbered, rerun_wellNumbered, cancel_wellNumbered,
      settle_wellNumbered, panelDisposed_wellNumbered.
Qed.

Lemma exec_snoc (inputs : list Input) (x : Input) (w : World) :
  exec (inputs ++ [x]) w = step x (exec inputs w).
Proof. unfold exec. by rewrite foldl_snoc. Qed.

Lemma exec_wellNumbered (inputs : list Input) (w : World) :
  wellNumbered w → wellNumbered (exec inputs w).
Proof.
  intros Hw. induction inputs as [|x inputs IH] using rev_ind; [done|].
  rewrite exec_snoc. by apply step_wellNumbered.
Qed.

Lemma reachable_wellNumbered (w : World) : reachable w → wellNumbered w.
Proof. intros [inputs ->]. apply exec_wellNumbered, initial_wellNumbered. Qed.

Lemma reachable_step (x : Input) (w : World) : reachable w → reachable (step x w).
Proof. intros [inputs ->]. exists (inputs ++ [x]). by rewrite exec_snoc. Qed.

Lemma reachable_exec (inputs : list Input) (w : World) :
  reachable w → reachable (exec inputs w).
Proof.
  intros Hw. induction inputs as [|x inputs IH] using rev_ind; [done|].
  rewrite exec_snoc. by apply reachable_step.
Qed.

(** *** An invocation that is over, or stuck, makes no call *)

Lemma actionsOf_tag_own (i : RunId) (acts : list Action) :
  actionsOf i ((λ a, (Some i, a)) <$> acts) = acts.
Proof.
  induction acts as [|a acts IH]; [done|].
  rewrite fmap_cons. change (?x :: ?l) with ([x] ++ l).
  by rewrite actionsOf_app, actionsOf_own, IH.
Qed.

Lemma actionsOf_tag_other (i : RunId) (j : option RunId) (acts : list Action) :
  j ≠ Some i → actionsOf i ((λ a, (j, a)) <$> acts) = [].
Proof.
  intros Hj. induction acts as [|a acts IH]; [done|].
  rewrite fmap_cons. change (?x :: ?l) with ([x] ++ l).
  rewrite actionsOf_app, IH, app_nil_r.
  destruct j as [j|]; [apply actionsOf_other; congruence | apply actionsOf_command].
Qed.

Lemma idle_step (i : RunId) (x : Input) (w : World) :
  (i < nextRun w)%nat → idle i w →
  (i < nextRun (step x w))%nat ∧ idle i (step x w)
  ∧ actionsOf i (log (step x w)) = actionsOf i (log w).
Proof.
  intros Hi Hidle.
  assert (Hrun : ∀ r s d w0, tasks w0 = tasks w → nextRun w0 = nextRun w →
            log w0 = log w →
            (i < nextRun (runCore r s d w0))%nat ∧ idle i (runCore r s d w0)
            ∧ actionsOf i (log (runCore r s d w0)) = actionsOf i (log w)).
  { intros r s d w0 Et En El.
    destruct (runCore_spec r s d w0) as (El' & Et' & _ & _ & En' & _).
    rewrite En', En. split; [lia|]. split.
    - unfold idle. rewrite Et', Et. cbn [findTask invocation].
      rewrite En, decide_False by lia. exact Hidle.
    - rewrite El', El, actionsOf_app, actionsOf_tag_other, app_nil_r; [done|].
      rewrite En. intros [= ?]. lia. }
  destruct x as [n sc ts s d| | |j a env|p]; cbn [step].
  - unfold run. by apply Hrun.
  - unfold rerun. destruct (lastRequestSettingTuple w) as [[r s]|]; [|done].
    by apply Hrun.
  - unfold cancel. destruct (lastPendingRequest w); cbn -[actionsOf];
      rewrite !actionsOf_app, !actionsOf_command, ?app_nil_r; done.
  - destruct (findTask j (tasks w)) as [t|] eqn:Ht; [|by rewrite settle_absent].
    destruct (settle_present j a env w t Ht) as (El & Et & _ & _ & En & _).
    rewrite En. split; [done|].
    destruct (decide (j = i)) as [->|Hne].
    + destruct Hidle as [Hnone|(t' & Ht' & Hpc)]; [congruence|].
      assert (t' = t) as -> by congruence.
      assert (Hacts : resumeActions t a env w = []).
      { unfold resumeActions. rewrite Hpc. by destruct a. }
      assert (Hnext : nextPc t a w = Some Stuck).
      { unfold nextPc. rewrite Hpc. by destruct a. }
      split.
      * right. exists t. split; [|done].
        rewrite Et, Hnext, findTask_setPc, decide_True, Ht by done.
        destruct t; cbn in *. by subst.
      * by rewrite El, Hacts, app_nil_r.
    + split.
      * unfold idle. rewrite Et.
        destruct (nextPc t a w);
          rewrite ?findTask_setPc, ?findTask_dropTask, decide_False by done; done.
      * rewrite El, actionsOf_app, actionsOf_tag_other, app_nil_r; [done|].
        congruence.
  - unfold panelDisposed.
    destruct (HttpResponseWebview.onDidDispose p (webview w)) as [v [|]]; cbn -[actionsOf];
      rewrite ?actionsOf_app, ?actionsOf_command, ?app_nil_r; done.
Qed.

Lemma idle_exec (i : RunId) (inputs : list Input) (w : World) :
  (i < nextRun w)%nat → idle i w →
  (i < nextRun (exec inputs w))%nat ∧ idle i (exec inputs w)
  ∧ actionsOf i (log (exec inputs w)) = actionsOf i (log w).
Proof.
  intros Hi Hidle. induction inputs as [|x inputs IH] using rev_ind; [done|].
  rewrite exec_snoc. destruct IH as (Hi' & Hidle' & <-).
  by apply idle_step.
Qed.

Lemma step_requestsExist (x : Input) (w : World) :
  requestsExist w → requestsExist (step x w).
Proof.
  intros Hw. unfold requestsExist in *.
  destruct x as [n sc ts s d| | |j a env|p]; cbn [step].
  - unfold run. intros r.
    match goal with |- context [runCore ?r ?s ?d ?w0] =>
      destruct (runCore_spec r s d w0) as (_ & _ & -> & -> & _) end.
    cbn. destruct (decide (r = nextRequest w)) as [->|Hne].
    + rewrite lookup_insert_eq. split; [lia | eauto].
    + rewrite lookup_insert_ne by done. rewrite Hw. lia.
  - unfold rerun. destruct (lastRequestSettingTuple w) as [[r s]|]; [|done].
    intros r'. destruct (runCore_spec r s None w) as (_ & _ & -> & -> & _). apply Hw.
  - unfold cancel. destruct (lastPendingRequest w) as [r|]; cbn; [|done].
    intros r'. rewrite <- Hw. rewrite lookup_alter. case_decide; [|done].
    subst. by rewrite fmap_is_Some.
  - destruct (findTask j (tasks w)) as [t|] eqn:Ht; [|by rewrite settle_absent].
    destruct (settle_present j a env w t Ht) as (_ & _ & -> & -> & _). done.
  - unfold panelDisposed.
    by destruct (HttpResponseWebview.onDidDispose p (webview w)) as [v [|]].
Qed.

Lemma reachable_requestsExist (w : World) : reachable w → requestsExist w.
Proof.
  intros [inputs ->]. induction inputs as [|x inputs IH] using rev_ind.
  - intros r. cbn. rewrite lookup_empty. split; [by intros [] | lia].
  - rewrite exec_snoc. by apply step_requestsExist.
Qed.

(** The pending request, if there is one, is the request of the task that
    was started last. *)
Lemma descending_head (t : Task) (ts : list Task) (t' : Task) :
  descending (t :: ts) → t' ∈ t :: ts → (invocation t' ≤ invocation t)%nat.
Proof.
  intros [Hlt _] [->|Ht']%elem_of_cons; [done|]. specialize (Hlt t' Ht'). lia.
Qed.

(** C9.  In every world the controller reaches: runCore sets the pending
    request to its request on entry; the step in which an invocation ends, by
    whatever path, clears the field if and only if it still refers to that
    invocation's request, and a step in which it does not end leaves the field
    alone; a pending request belongs to the task that was started last among
    those still waiting; and cancel changes the flag of no request but the
    pending one. *)
Theorem pending_request_is_last_started (w : World) :
  reachable w →
  (∀ r s d, lastPendingRequest (runCore r s d w) = Some r)
  ∧ (∀ i t a env, findTask i (tasks w) = Some t →
       (findTask i (tasks (settle i a env w)) = None →
          lastPendingRequest (settle i a env w)
          = if decide (lastPendingRequest w = Some (request t)) then None
            else lastPendingRequest w)
       ∧ (is_Some (findTask i (tasks (settle i a env w))) →
            lastPendingRequest (settle i a env w) = lastPendingRequest w))
  ∧ (∀ r, lastPendingRequest w = Some r →
       ∃ t, t ∈ tasks w ∧ request t = r
            ∧ ∀ t', t' ∈ tasks w → (invocation t' ≤ invocation t)%nat)
  ∧ (∀ r, isCancelledIn r (cancel w) ≠ isCancelledIn r w →
       lastPendingRequest w = Some r)
  ∧ lastPendingRequest (cancel w) = lastPendingRequest w.
Proof.
  intros Hr. destruct (reachable_wellNumbered w Hr) as (_ & Hd & _ & _ & Hp & _).
  split; [|split; [|split; [|split]]].
  - intros r s d. by destruct (runCore_spec r s d w) as (_ & _ & _ & _ & _ & _ & -> & _).
  - intros i t a env Ht.
    destruct (settle_present i a env w t Ht) as (_ & Et & _ & _ & _ & _ & _ & _ & _ & Ep).
    rewrite Et, Ep. destruct (nextPc t a w) as [p|].
    + rewrite findTask_setPc, decide_True, Ht by done. cbn. split; [done|done].
    + rewrite findTask_dropTask, decide_True by done. split; [done|]. by intros [].
  - intros r Hpr. destruct (Hp r Hpr) as (t & ts & Et & <-).
    exists t. rewrite Et in *. split; [by left|]. split; [done|].
    intros t' Ht'. by eapply descending_head.
  - intros r. unfold cancel, isCancelledIn.
    destruct (lastPendingRequest w) as [r0|]; cbn; [|done].
    rewrite lookup_alter. case_decide; [by subst | congruence].
  - unfold cancel. by destruct (lastPendingRequest w) eqn:E.
Qed.

Lemma reachable_intro (inputs : list Input) : reachable (exec inputs initial).
Proof. by exists inputs. Qed.

Lemma sent_reachable : reachable sent.
Proof. apply reachable_intro. Qed.

Lemma twoSent_reachable : reachable twoSent.
Proof. apply reachable_exec, sent_reachable. Qed.

(** Two requests under way: the pending one is the second. *)
Lemma pending_request_is_last_started_witness :
  reachable twoSent
  ∧ lastPendingRequest twoSent = Some 1%nat
  ∧ ∃ t, t ∈ tasks twoSent ∧ request t = 1%nat
         ∧ ∀ t', t' ∈ tasks twoSent → (invocation t' ≤ invocation t)%nat.
Proof.
  split; [exact twoSent_reachable|]. split; [reflexivity|].
  apply (pending_request_is_last_started twoSent twoSent_reachable).
  reflexivity.
Defined.

(** *** Cancellation *)

Lemma resume_cancelled_send (t : Task) (o : Settled HttpResponse) (env : Env)
  (w : World) :
  pc t = AwaitSend → isCancelledIn (request t) w = true →
  resumeActions t (SendSettled o) env w = [Resumed (SendSettled o)]
  ∧ nextPc t (SendSettled o) w = None.
Proof.
  intros Hpc Hc. unfold resumeActions, nextPc, receivedActions, catchActions.
  rewrite Hpc, Hc. by destruct o.
Qed.

(** C4.  In every world the controller reaches: cancel sets the cancelled
    flag of the pending request object, if there is one, and changes no other
    request, no task, and neither the cache nor the webview; and when the send
    of an invocation is settled, with a response or with an error, while the
    flag of its request is set, the controller makes no call at all (no status
    update, no cache write, no test run, no preview, no history entry), the
    status entry, the cache and the webview stay as they are, and the
    invocation is over: whatever happens afterwards, it makes no call. *)
Theorem cancelled_request_is_dropped (w : World) :
  reachable w →
  (∀ r, lastPendingRequest w = Some r →
     store (cancel w) = alter HttpRequest_cancel r (store w)
     ∧ isCancelledIn r (cancel w) = true)
  ∧ (lastPendingRequest w = None → store (cancel w) = store w)
  ∧ (tasks (cancel w) = tasks w ∧ cache (cancel w) = cache w
     ∧ webview (cancel w) = webview w)
  ∧ (∀ i t o env,
       findTask i (tasks w) = Some t → pc t = AwaitSend →
       isCancelledIn (request t) w = true →
       log (settle i (SendSettled o) env w)
       = log w ++ [(Some i, Resumed (SendSettled o))]
       ∧ statusEntry (settle i (SendSettled o) env w) = statusEntry w
       ∧ cache (settle i (SendSettled o) env w) = cache w
       ∧ webview (settle i (SendSettled o) env w) = webview w
       ∧ findTask i (tasks (settle i (SendSettled o) env w)) = None
       ∧ ∀ inputs,
           actionsOf i (log (exec inputs (settle i (SendSettled o) env w)))
           = actionsOf i (log w) ++ [Resumed (SendSettled o)]).
Proof.
  intros Hr.
  destruct (reachable_wellNumbered w Hr) as (Hts & _ & _ & _ & Hp & _).
  pose proof (reachable_requestsExist w Hr) as Hex.
  split; [|split; [|split]].
  - intros r Hpr. unfold cancel, isCancelledIn. rewrite Hpr. cbn.
    split; [done|]. rewrite lookup_alter_eq.
    destruct (Hp r Hpr) as (t & ts & Et & <-).
    assert (Hin : t ∈ tasks w) by (rewrite Et; by left).
    destruct (Hts t Hin) as [_ Hlt]. apply Hex in Hlt as [q ->]. done.
  - intros Hpr. unfold cancel. by rewrite Hpr.
  - unfold cancel. by destruct (lastPendingRequest w).
  - intros i t o env Ht Hpc Hc.
    destruct (resume_cancelled_send t o env w Hpc Hc) as [Hacts Hnext].
    destruct (settle_present i (SendSettled o) env w t Ht)
      as (El & Et & _ & _ & En & _ & Ec & Es & Ew & _).
    rewrite Hacts in *. rewrite Hnext in *.
    split; [done|]. split; [done|]. split; [done|]. split; [done|].
    assert (Hnone : findTask i (tasks (settle i (SendSettled o) env w)) = None).
    { by rewrite Et, findTask_dropTask, decide_True. }
    split; [done|]. intros inputs.
    destruct (findTask_Some _ _ _ Ht) as [Hi Hin].
    destruct (idle_exec i inputs (settle i (SendSettled o) env w))
      as (_ & _ & ->).
    + rewrite En. destruct (Hts t Hin). lia.
    + by left.
    + by rewrite El, actionsOf_app, actionsOf_tag_own.
Qed.

Lemma cancelled_reachable : reachable cancelled.
Proof. apply reachable_exec, sent_reachable. Qed.

(** The request is cancelled while it is sent; then the response arrives. *)
Lemma cancelled_request_is_dropped_witness :
  reachable cancelled
  ∧ isCancelledIn 0%nat cancelled = true
  ∧ log (settle 0%nat (SendSettled (Fulfilled response1)) env0 cancelled)
    = log cancelled ++ [(Some 0%nat, Resumed (SendSettled (Fulfilled response1)))]
  ∧ statusEntry (settle 0%nat (SendSettled (Fulfilled response1)) env0 cancelled)
    = Some (Cancelled, None)
  ∧ cache (settle 0%nat (SendSettled (Fulfilled response1)) env0 cancelled) = ∅
  ∧ findTask 0%nat (tasks (settle 0%nat (SendSettled (Fulfilled response1)) env0 cancelled))
    = None.
Proof.
  split; [exact cancelled_reachable|]. split; [reflexivity|].
  destruct (cancelled_request_is_dropped cancelled cancelled_reachable)
    as (_ & _ & _ & H).
  destruct (H 0%nat
              {| invocation := 0%nat; request := 0%nat; settings := settings0;
                 document := Some (lit "a.http"); pc := AwaitSend |}
              (Fulfilled response1) env0 eq_refl eq_refl eq_refl)
    as (Hl & Hs & Hc & _ & Ht & _).
  split; [exact Hl|]. split; [exact Hs|]. split; [exact Hc|]. exact Ht.
Defined.

(** *** Writes to the cache *)

Lemma catchActions_no_CacheAdd (t : Task) (e : Thrown) (w : World) (a : Action) :
  a ∈ catchActions t e w → ¬ isCacheAdd a.
Proof.
  unfold catchActions. destruct (isCancelledIn (request t) w), e;
    rewrite ?elem_of_cons, ?elem_of_nil; intros H; intuition (subst; auto).
Qed.

Lemma previewActions_no_CacheAdd (t : Task) (env : Env) response result (a : Action) :
  a ∈ previewActions t env response result → ¬ isCacheAdd a.
Proof.
  unfold previewActions. destruct (activeTextEditor env); cbn zeta;
    [destruct (previewResponseInUntitledDocument (settings t));
      [|destruct (columnTruthy _)]|];
    rewrite ?elem_of_cons, ?elem_of_nil; intros H; intuition (subst; auto).
Qed.

(** The only write of a resumed task is the one after a response, for a
    request that is not cancelled and has a name and a document. *)
Lemma resumeActions_CacheAdd (t : Task) (a0 : Answer) (env : Env) (w : World)
  (a : Action) :
  a ∈ resumeActions t a0 env w → isCacheAdd a →
  ∃ response d c n,
    pc t = AwaitSend ∧ a0 = SendSettled (Fulfilled response)
    ∧ isCancelledIn (request t) w = false
    ∧ document t = Some d ∧ nameIn (request t) w = Some (c :: n)
    ∧ a = CacheAdd d (c :: n) response
    ∧ resumeActions t a0 env w
      = [Resumed a0; Update Received (Some response); a]
        ++ RunTests response (testsIn (request t) w)
           :: previewActions t env response
                (testRunner env response (testsIn (request t) w))
           ++ [AddToRequestHistory (request t)].
Proof.
  unfold resumeActions.
  destruct (pc t) as [script rest| | |] eqn:Hpc; destruct a0 as [b|o|o];
    try (by intros ?%elem_of_nil).
  - intros [->|[Ha|Ha]%elem_of_app]%elem_of_cons Hw; [done|..].
    + apply list_elem_of_fmap in Ha as (s & -> & _). done.
    + destruct (execute script b).2 as [[[]|e]|].
      * by apply startActions_no_CacheAdd in Ha.
      * by apply catchActions_no_CacheAdd in Ha.
      * by apply elem_of_nil in Ha.
  - intros [->|Ha]%elem_of_cons Hw; [done|]. destruct o as [response|e].
    + unfold receivedActions, cacheActions in *.
      destruct (isCancelledIn (request t) w) eqn:Hc; [by apply elem_of_nil in Ha|].
      apply elem_of_cons in Ha as [->|Ha]; [done|].
      apply elem_of_app in Ha as [Ha|Ha].
      * destruct (nameIn (request t) w) as [[|c n]|]; try by apply elem_of_nil in Ha.
        destruct (document t) as [d|]; [|by apply elem_of_nil in Ha].
        apply list_elem_of_singleton in Ha as ->.
        by exists response, d, c, n.
      * apply elem_of_cons in Ha as [->|Ha]; [done|].
        apply elem_of_app in Ha as [Ha|Ha].
        -- by apply previewActions_no_CacheAdd in Ha.
        -- by apply list_elem_of_singleton in Ha as ->.
    + by apply catchActions_no_CacheAdd in Ha.
  - intros [->|Ha]%elem_of_cons Hw; [done|]. destruct o as [[]|e].
    + by apply elem_of_nil in Ha.
    + by apply catchActions_no_CacheAdd in Ha.
Qed.

Lemma cacheAfter_app (l k : list Action) m :
  cacheAfter (l ++ k) m = cacheAfter k (cacheAfter l m).
Proof. unfold cacheAfter. by rewrite foldl_app. Qed.

(** C1, as the code has it.  In every world the controller reaches: an
    invocation started by run carries the document it was started from and a
    new request object; when the send of an invocation with a document and a
    non-empty name gives a response while its request is not cancelled, the
    cache entry of that document and name is overwritten with the response;
    rerun starts an invocation of the last request without a document, and an
    invocation without a document never changes the cache; and the cache is
    at any time what the writes logged so far make it, the last write to a key
    winning. *)
Theorem cache_written_for_documents_only (w : World) :
  reachable w →
  (∀ n sc ts s d,
     ∃ t, tasks (run n sc ts s d w) = t :: tasks w
          ∧ document t = Some d ∧ request t = nextRequest w
          ∧ nameIn (request t) (run n sc ts s d w) = n)
  ∧ (∀ i t env response d c n,
       findTask i (tasks w) = Some t → pc t = AwaitSend →
       document t = Some d → nameIn (request t) w = Some (c :: n) →
       isCancelledIn (request t) w = false →
       cache (settle i (SendSettled (Fulfilled response)) env w)
       = <[(d, c :: n) := response]> (cache w))
  ∧ (∀ r s, lastRequestSettingTuple w = Some (r, s) →
       ∃ t, tasks (rerun w) = t :: tasks w ∧ request t = r ∧ document t = None)
  ∧ (∀ i t a env,
       findTask i (tasks w) = Some t → document t = None →
       cache (settle i a env w) = cache w)
  ∧ cache w = cacheOf (log w).
Proof.
  intros Hr. split; [|split; [|split; [|split]]].
  - intros n sc ts s d. unfold run.
    match goal with |- context [runCore ?r ?s ?d ?w0] =>
      destruct (runCore_spec r s d w0) as (_ & Et & Es & _) end.
    eexists. split; [exact Et|]. cbn. split; [done|]. split; [done|].
    unfold nameIn. rewrite Es. cbn. by rewrite lookup_insert_eq.
  - intros i t env response d c n Ht Hpc Hd Hn Hc.
    destruct (settle_present i (SendSettled (Fulfilled response)) env w t Ht)
      as (_ & _ & _ & _ & _ & _ & -> & _).
    unfold resumeActions, receivedActions, cacheActions.
    rewrite Hpc, Hc, Hn, Hd.
    change (cacheAfter ?l (cache w))
      with (cacheAfter
              (RunTests response (testsIn (request t) w)
               :: previewActions t env response
                    (testRunner env response (testsIn (request t) w))
               ++ [AddToRequestHistory (request t)])
              (<[(d, c :: n) := response]> (cache w))).
    apply cacheAfter_free.
    intros a [->|[Ha|Ha]%elem_of_app]%elem_of_cons; [by intros []|..].
    + by eapply previewActions_no_CacheAdd.
    + apply list_elem_of_singleton in Ha as ->. by intros [].
  - intros r s Hl. unfold rerun. rewrite Hl.
    destruct (runCore_spec r s None w) as (_ & Et & _). eauto.
  - intros i t a env Ht Hd.
    destruct (settle_present i a env w t Ht) as (_ & _ & _ & _ & _ & _ & -> & _).
    apply cacheAfter_free. intros b Hb Hw.
    destruct (resumeActions_CacheAdd t a env w b Hb Hw)
      as (? & ? & ? & ? & _ & _ & _ & Hd' & _). congruence.
  - by destruct (reachable_wellNumbered w Hr) as (_ & _ & _ & _ & _ & ?).
Qed.

(** *** What a step does to one invocation *)

Lemma actionsOf_fresh (n : RunId) (l : list (option RunId * Action)) :
  (∀ i a, (Some i, a) ∈ l → (i < n)%nat) → actionsOf n l = [].
Proof.
  intros H. unfold actionsOf. induction l as [|[j a] l IH]; [done|].
  rewrite filter_cons. case_decide as Hj.
  - cbn in Hj. subst j. specialize (H n a (list_elem_of_here _ _)). lia.
  - apply IH. intros i b Hb. apply (H i b). by right.
Qed.

Lemma findTask_fresh (n : RunId) (ts : list Task) :
  (∀ t, t ∈ ts → (invocation t < n)%nat) → findTask n ts = None.
Proof.
  intros H. destruct (findTask n ts) as [t|] eqn:Ht; [|done].
  apply findTask_Some in Ht as [Hi Hin]. specialize (H t Hin). lia.
Qed.

Lemma runCore_view (r : ReqId) (s : IRestClientSettings) (d : option TextDocument)
  (w0 w : World) :
  wellNumbered w → tasks w0 = tasks w → nextRun w0 = nextRun w → log w0 = log w →
  started r s d w (runCore r s d w0).
Proof.
  intros (Hts & _ & Hlog & _) Et En El.
  destruct (runCore_spec r s d w0) as (El' & Et' & Es' & _).
  assert (Hsc : scriptsIn r (runCore r s d w0) = scriptsIn r w0).
  { unfold scriptsIn. by rewrite Es'. }
  unfold started, unchangedAt. rewrite Hsc, El', Et', En, El, Et.
  assert (Hfresh : actionsOf (nextRun w) (log w) = []) by by apply actionsOf_fresh.
  assert (Hnone : findTask (nextRun w) (tasks w) = None).
  { apply findTask_fresh. intros t Ht. by destruct (Hts t Ht). }
  split; [|split; [done|split; [done|split]]].
  - intros i Hi. split.
    + rewrite actionsOf_app, actionsOf_tag_other, app_nil_r; [done|congruence].
    + cbn [findTask invocation]. by rewrite decide_False.
  - by rewrite actionsOf_app, Hfresh, actionsOf_tag_own.
  - cbn [findTask invocation]. by rewrite decide_True.
Qed.

Lemma nameIn_insert (r r0 : ReqId) (q : HttpRequest) (w w' : World) :
  store w' = <[r0 := q]> (store w) → r ≠ r0 →
  nameIn r w' = nameIn r w ∧ scriptsIn r w' = scriptsIn r w.
Proof.
  intros E Hne. unfold nameIn, scriptsIn. rewrite E, lookup_insert_ne by done. done.
Qed.

Lemma nameIn_same_store (r : ReqId) (w w' : World) :
  store w' = store w → nameIn r w' = nameIn r w ∧ scriptsIn r w' = scriptsIn r w.
Proof. intros E. unfold nameIn, scriptsIn. by rewrite E. Qed.

Lemma step_view (x : Input) (w : World) :
  wellNumbered w →
  (nextRequest w ≤ nextRequest (step x w))%nat
  ∧ (nextRun w ≤ nextRun (step x w))%nat
  ∧ (∀ r, (r < nextRequest w)%nat →
       nameIn r (step x w) = nameIn r w ∧ scriptsIn r (step x w) = scriptsIn r w)
  ∧ ((∀ i, unchangedAt i w (step x w))
     ∨ (∃ r s d, (r < nextRequest (step x w))%nat ∧ started r s d w (step x w))
     ∨ (∃ j t a env, findTask j (tasks w) = Some t
                     ∧ resumed j t a env w (step x w))).
Proof.
  intros Hw. destruct x as [n sc ts s d| | |j a env|p]; cbn [step].
  - unfold run.
    match goal with |- context [runCore ?r ?s ?d ?w0] =>
      pose proof (runCore_view r s d w0 w Hw eq_refl eq_refl eq_refl) as Hv;
      destruct (runCore_spec r s d w0) as (_ & _ & Es & Eq & En & _) end.
    rewrite Eq, En. cbn [nextRequest nextRun].
    split; [lia|]. split; [lia|]. split.
    + intros r Hr. eapply nameIn_insert; [exact Es | lia].
    + right. left. eexists _, _, _. split; [|exact Hv]. lia.
  - unfold rerun. destruct (lastRequestSettingTuple w) as [[r s]|] eqn:Hl.
    + pose proof (runCore_view r s None w w Hw eq_refl eq_refl eq_refl) as Hv.
      destruct (runCore_spec r s None w) as (_ & _ & Es & Eq & En & _).
      rewrite Eq, En. split; [lia|]. split; [lia|]. split.
      * intros r' _. by apply nameIn_same_store.
      * right. left. eexists _, _, _. split; [|exact Hv].
        destruct Hw as (_ & _ & _ & Hl' & _). by eapply Hl'.
    + split; [lia|]. split; [lia|]. split; [done|]. by left.
  - split; [|split; [|split]].
    + unfold cancel. destruct (lastPendingRequest w); cbn; lia.
    + unfold cancel. destruct (lastPendingRequest w); cbn; lia.
    + intros r _. unfold cancel, nameIn, scriptsIn.
      destruct (lastPendingRequest w) as [r0|]; cbn; [|done].
      rewrite lookup_alter. case_decide; [|done]. subst.
      by destruct (store w !! r).
    + left. intros i. unfold unchangedAt, cancel.
      destruct (lastPendingRequest w); cbn -[actionsOf];
        rewrite !actionsOf_app, !actionsOf_command, ?app_nil_r; done.
  - destruct (findTask j (tasks w)) as [t|] eqn:Ht.
    + destruct (settle_present j a env w t Ht) as (El & Et & Es & Eq & En & _).
      rewrite Eq, En. split; [lia|]. split; [lia|]. split.
      * intros r _. by apply nameIn_same_store.
      * right. right. exists j, t, a, env. split; [done|].
        unfold resumed, unchangedAt. rewrite El, Et. split; [|split].
        -- intros i Hi. rewrite actionsOf_app, actionsOf_tag_other, app_nil_r
             by congruence.
           split; [done|]. destruct (nextPc t a w);
             rewrite ?findTask_setPc, ?findTask_dropTask, decide_False by done; done.
        -- by rewrite actionsOf_app, actionsOf_tag_own.
        -- destruct (nextPc t a w);
             rewrite ?findTask_setPc, ?findTask_dropTask, decide_True, ?Ht by done; done.
    + rewrite settle_absent by done.
      split; [lia|]. split; [lia|]. split; [done|]. by left.
  - unfold panelDisposed.
    destruct (HttpResponseWebview.onDidDispose p (webview w)) as [v [|]];
      (split; [cbn; lia|]; split; [cbn; lia|]; split; [done|]); left; intros i;
      unfold unchangedAt; cbn -[actionsOf];
      rewrite ?actionsOf_app, ?actionsOf_command, ?app_nil_r; done.
Qed.

(** *** One write for each invocation, after the response *)

Lemma app_cons_unique {A} (P : A → Prop) (l1 l2 k1 k2 : list A) (x y : A) :
  l1 ++ x :: l2 = k1 ++ y :: k2 → P x → P y →
  (∀ a, a ∈ l1 → ¬ P a) → (∀ a, a ∈ l2 → ¬ P a) →
  l1 = k1 ∧ x = y ∧ l2 = k2.
Proof.
  intros E Hx Hy H1 H2. revert k1 E.
  induction l1 as [|a l1 IH]; intros [|b k1] E; cbn in E.
  - by injection E as -> ->.
  - injection E as -> ->. destruct (H2 y); [|done].
    apply elem_of_app. right. by left.
  - injection E as -> _. destruct (H1 y); [by left | done].
  - injection E as -> E. destruct (IH (λ c Hc, H1 c (list_elem_of_further _ _ _ Hc)) k1 E)
      as (-> & -> & ->). done.
Qed.

#[local] Instance isCacheAdd_dec (a : Action) : Decision (isCacheAdd a).
Proof. destruct a; cbn; apply _. Defined.

Lemma resumeActions_write_or_not (t : Task) (a0 : Answer) (env : Env) (w : World) :
  (∀ a, a ∈ resumeActions t a0 env w → ¬ isCacheAdd a)
  ∨ ∃ response d c n tail,
      pc t = AwaitSend ∧ nextPc t a0 w = Some AwaitHistory
      ∧ document t = Some d ∧ nameIn (request t) w = Some (c :: n)
      ∧ resumeActions t a0 env w
        = [Resumed (SendSettled (Fulfilled response));
           Update Received (Some response);
           CacheAdd d (c :: n) response] ++ tail
      ∧ (∀ a, a ∈ tail → ¬ isCacheAdd a).
Proof.
  destruct (decide (Exists isCacheAdd (resumeActions t a0 env w))) as [He|Hn].
  - right. apply Exists_exists in He as (a & Ha & Hw).
    destruct (resumeActions_CacheAdd t a0 env w a Ha Hw)
      as (response & d & c & n & Hpc & -> & Hc & Hd & Hname & -> & E).
    exists response, d, c, n. eexists. split; [done|]. split.
    { unfold nextPc. by rewrite Hpc, Hc. }
    split; [done|]. split; [done|]. split; [exact E|].
    intros a [->|[Hb|Hb]%elem_of_app]%elem_of_cons; [by intros []|..].
    + by eapply previewActions_no_CacheAdd.
    + apply list_elem_of_singleton in Hb as ->. by intros [].
  - left. intros a Ha Hw. apply Hn, Exists_exists. eauto.
Qed.

Lemma writeShape_later (w w' : World) (r : ReqId) (d : option TextDocument)
  (tl : list Action) :
  nameIn r w' = nameIn r w → writeShape w r d tl → writeShape w' r d tl.
Proof.
  intros E [H|(pre & response & d' & c & n & post & ? & ? & ? & ?)]; [by left|].
  right. exists pre, response, d', c, n, post. by rewrite E.
Qed.

Lemma writesOnce_unchanged (w w' : World) (i : RunId) :
  (nextRequest w ≤ nextRequest w')%nat →
  (∀ r, (r < nextRequest w)%nat → nameIn r w' = nameIn r w) →
  unchangedAt i w w' → writesOnce w i → writesOnce w' i.
Proof.
  intros Hq Hname [El Et] (H1 & H2 & H3). unfold writesOnce. rewrite El, Et.
  split; [done|]. split; [done|].
  destruct H3 as [?|(r & d & tl & E & Hr & Hs)]; [by left|].
  right. exists r, d, tl. split; [done|]. split; [lia|].
  eapply writeShape_later; [|done]. by apply Hname.
Qed.

Lemma step_writesOnce (x : Input) (w : World) :
  wellNumbered w → (∀ i, writesOnce w i) → ∀ i, writesOnce (step x w) i.
Proof.
  intros Hw Hall i.
  destruct (step_view x w Hw)
    as (Hq & _ & Hname & [Hsame|[(r & s & d & Hr & Hst)|(j & t & a & env & Ht & Hres)]]).
  - eapply writesOnce_unchanged; [done| |done|done]. intros r Hr. by apply Hname.
  - destruct Hst as (Hother & _ & _ & El & Et).
    destruct (decide (i = nextRun w)) as [->|Hi].
    + unfold writesOnce. rewrite El, Et.
      assert (Hfree : ∀ a, a ∈ Update Pending None
                            :: startActions (scriptsIn r (step x w)) → ¬ isCacheAdd a).
      { intros a [->|Ha]%elem_of_cons; [by intros []|].
        by eapply startActions_no_CacheAdd. }
      split; [|split].
      * intros t' [= <-]. cbn. eauto.
      * intros t' _ _ a [->|Ha]%elem_of_cons; [by intros []|]. by apply Hfree.
      * right. eexists r, d, _. split; [done|]. split; [done|]. by left.
    + eapply writesOnce_unchanged; [done| |by apply Hother|done].
      intros r' Hr'. by apply Hname.
  - destruct Hres as (Hother & El & Et).
    destruct (decide (i = j)) as [->|Hi].
    2:{ eapply writesOnce_unchanged; [done| |by apply Hother|done].
        intros r' Hr'. by apply Hname. }
    destruct (Hall j) as (H1 & H2 & H3).
    destruct (H1 t Ht) as [tl Eold].
    destruct H3 as [H3|(r & d & tl' & E3 & Hr & Hshape)]; [congruence|].
    rewrite Eold in E3. injection E3 as <- <- <-.
    assert (Hin : t ∈ tasks w) by by eapply findTask_Some.
    unfold writesOnce. rewrite El, Et, Eold.
    destruct (resumeActions_write_or_not t a env w)
      as [Hfree|(response & d & c & n & tail & Hpc & Hnext & Hd & Hn & Eacts & Htail)].
    + split; [|split].
      * intros t' Ht'. destruct (nextPc t a w); [|done].
        injection Ht' as <-. cbn. eauto.
      * intros t' Ht' Hpc' b Hb. destruct (nextPc t a w) as [p|] eqn:Hp; [|done].
        injection Ht' as <-. cbn in Hpc'.
        apply elem_of_cons in Hb as [->|[Hb|Hb]%elem_of_app]; [by intros []|..].
        -- apply (H2 t Ht); [|rewrite Eold; by right].
           intros Hh. unfold nextPc in Hp. rewrite Hh in Hp.
           destruct a; congruence.
        -- by apply Hfree.
      * right. exists (request t), (document t), (tl ++ resumeActions t a env w).
        split; [done|]. split; [lia|].
        destruct Hshape as [Hl|(pre & response & d' & c & n & post & Hd & Hn & -> & Hpp)].
        -- left. intros b [Hb|Hb]%elem_of_app; auto.
        -- right. exists pre, response, d', c, n, (post ++ resumeActions t a env w).
           split; [done|]. split; [by rewrite (proj1 (Hname _ Hr))|].
           split; [by rewrite <- !app_assoc|].
           intros b Hb. rewrite app_assoc in Hb.
           apply elem_of_app in Hb as [Hb|Hb]; auto.
    + rewrite Hnext, Eacts. cbn [fmap option_fmap option_map].
      assert (Hold : ∀ b, b ∈ tl → ¬ isCacheAdd b).
      { intros b Hb. apply (H2 t Ht); [by rewrite Hpc | rewrite Eold; by right]. }
      split; [|split].
      * intros t' [= <-]. cbn. eauto.
      * intros t' [= <-]. cbn. done.
      * right. exists (request t), (document t), (tl ++
          [Resumed (SendSettled (Fulfilled response)); Update Received (Some response);
           CacheAdd d (c :: n) response] ++ tail).
        split; [done|]. split; [lia|]. right.
        exists tl, response, d, c, n, tail.
        split; [done|]. split; [by rewrite (proj1 (Hname _ Hr))|]. split; [done|].
        intros b [Hb|Hb]%elem_of_app; auto.
Qed.

Lemma reachable_writesOnce (w : World) : reachable w → ∀ i, writesOnce w i.
Proof.
  intros [inputs ->]. induction inputs as [|x inputs IH] using rev_ind.
  - intros i. unfold writesOnce. cbn. split; [done|]. split; [done|]. by left.
  - rewrite exec_snoc. apply step_writesOnce; [|done].
    apply exec_wellNumbered, initial_wellNumbered.
Qed.

(** C2.  In every world the controller reaches, the cache is what the logged
    writes make it, and for every invocation of runCore: a write to the cache
    comes after the arrival of the very response it stores; no other write is
    made by the same invocation, before or after; the write is keyed by the
    document the invocation was given and by the name of its request, which is
    not empty; and an invocation without a document, or whose request has no
    name or an empty one, makes no write. *)
Theorem cache_write_follows_response (w : World) :
  reachable w →
  cache w = cacheOf (log w)
  ∧ (∀ i pre d n response post,
       actionsOf i (log w) = pre ++ CacheAdd d n response :: post →
       Resumed (SendSettled (Fulfilled response)) ∈ pre
       ∧ (∀ a, a ∈ pre ++ post → ¬ isCacheAdd a)
       ∧ ∃ r tl, pre = Invoke r (Some d) :: tl ∧ nameIn r w = Some n ∧ n ≠ [])
  ∧ (∀ i r d tl,
       actionsOf i (log w) = Invoke r d :: tl →
       d = None ∨ truthy (nameIn r w) = false →
       ∀ a, a ∈ tl → ¬ isCacheAdd a).
Proof.
  intros Hr.
  assert (Hmain : ∀ i pre d n response post,
       actionsOf i (log w) = pre ++ CacheAdd d n response :: post →
       Resumed (SendSettled (Fulfilled response)) ∈ pre
       ∧ (∀ a, a ∈ pre ++ post → ¬ isCacheAdd a)
       ∧ ∃ r tl, pre = Invoke r (Some d) :: tl ∧ nameIn r w = Some n ∧ n ≠ []).
  { intros i pre d n response post E.
    destruct (reachable_writesOnce w Hr i) as (_ & _ & [H3|(r & d0 & tl & E3 & _ & Hs)]).
    { rewrite H3 in E. by destruct pre. }
    rewrite E3 in E. destruct pre as [|b pre]; [done|].
    injection E as <- E.
    destruct Hs as [Hfree|(pre0 & response0 & d' & c & n0 & post0 & -> & Hn & -> & Hpp)].
    { destruct (Hfree (CacheAdd d n response)); [|done].
      rewrite E. apply elem_of_app. right. by left. }
    replace (pre0 ++ [Resumed (SendSettled (Fulfilled response0));
                      Update Received (Some response0);
                      CacheAdd d' (c :: n0) response0] ++ post0)
      with ((pre0 ++ [Resumed (SendSettled (Fulfilled response0));
                      Update Received (Some response0)])
            ++ CacheAdd d' (c :: n0) response0 :: post0) in E
      by (by rewrite <- app_assoc).
    apply (app_cons_unique isCacheAdd) in E as (<- & [= <- <- <-] & <-); [|done..| |].
    - split; [|split].
      + apply elem_of_cons. right. apply elem_of_app. right. by left.
      + intros a [[->|[Ha|Ha]%elem_of_app]%elem_of_cons|Ha]%elem_of_app.
        * by intros [].
        * apply Hpp, elem_of_app. by left.
        * apply elem_of_cons in Ha as [->|Ha]; [by intros []|].
          apply list_elem_of_singleton in Ha as ->. by intros [].
        * apply Hpp, elem_of_app. by right.
      + eexists r, _. done.
    - intros a [Ha|Ha]%elem_of_app.
      + apply Hpp, elem_of_app. by left.
      + apply elem_of_cons in Ha as [->|Ha]; [by intros []|].
        apply list_elem_of_singleton in Ha as ->. by intros [].
    - intros a Ha. apply Hpp, elem_of_app. by right. }
  split; [by destruct (reachable_wellNumbered w Hr) as (_ & _ & _ & _ & _ & ?)|].
  split; [exact Hmain|].
  intros i r d tl E Hno a Ha Hw. destruct a as [| | | | | |d' n' response'| | | | | | | |]; try done.
  apply list_elem_of_split in Ha as (pre' & post' & ->).
  rewrite app_comm_cons in E.
  destruct (Hmain i _ _ _ _ _ E) as (_ & _ & r0 & tl0 & [= ? ? ?] & Hn & Hne).
  subst. destruct Hno as [?|Ht]; [done|]. rewrite Hn in Ht. by destruct n'.
Qed.

Lemma done_reachable : reachable done.
Proof. apply reachable_exec, sent_reachable. Qed.

(** The one write of the named request of a.http. *)
Lemma cache_write_follows_response_witness :
  reachable done
  ∧ actionsOf 0%nat (log done)
    = [Invoke 0%nat (Some (lit "a.http")); Update Pending None; Send;
       Resumed (SendSettled (Fulfilled response1));
       Update Received (Some response1)]
      ++ CacheAdd (lit "a.http") (lit "login") response1
         :: [RunTests response1 None; RenderWebview response1 NoTests (Col 2);
             AddToRequestHistory 0%nat; Resumed (HistorySettled (Fulfilled ()))]
  ∧ Resumed (SendSettled (Fulfilled response1))
    ∈ [Invoke 0%nat (Some (lit "a.http")); Update Pending None; Send;
       Resumed (SendSettled (Fulfilled response1));
       Update Received (Some response1)].
Proof.
  assert (E : actionsOf 0%nat (log done)
    = [Invoke 0%nat (Some (lit "a.http")); Update Pending None; Send;
       Resumed (SendSettled (Fulfilled response1));
       Update Received (Some response1)]
      ++ CacheAdd (lit "a.http") (lit "login") response1
         :: [RunTests response1 None; RenderWebview response1 NoTests (Col 2);
             AddToRequestHistory 0%nat; Resumed (HistorySettled (Fulfilled ()))])
    by (vm_compute; reflexivity).
  split; [exact done_reachable|]. split; [exact E|].
  destruct (cache_write_follows_response done done_reachable) as (_ & H & _).
  exact (proj1 (H 0%nat _ (lit "a.http") (lit "login") response1 _ E)).
Defined.

(** *** The scripts run in order, before the send *)

Lemma execute_fulfilled (script : option jsstring) (b : ScriptBehaviour) (u : unit) :
  truthy script = true → (execute script b).2 = Some (Fulfilled u) →
  b = Returns ∧ (execute script b).1 = [].
Proof.
  unfold execute. intros ->. cbn. destruct b as [m st| |e]; [done|done|].
  unfold showErrorMessage. by destruct e as [|? ? [?|]].
Qed.

Lemma execute_rejected (script : option jsstring) (b : ScriptBehaviour) (e : Thrown) :
  (execute script b).2 = Some (Rejected e) →
  ∃ code message stack, e = Obj code message (Some stack).
Proof.
  unfold execute. destruct (truthy script); cbn; [|done].
  destruct b as [m st| |e']; [intros [= <-]; eauto|done|].
  unfold showErrorMessage. destruct e' as [|? ? [?|]]; cbn; try done.
  intros [= <-]. eauto.
Qed.

Lemma scriptTrace_app (l k : list (option jsstring)) :
  scriptTrace (l ++ k) = scriptTrace l ++ scriptTrace k.
Proof. unfold scriptTrace. apply bind_app. Qed.

Lemma scriptTrace_no_Send (l : list (option jsstring)) : Send ∉ scriptTrace l.
Proof.
  unfold scriptTrace. intros (s & Hs & _)%list_elem_of_bind.
  destruct (truthy s); revert Hs; no_such_member.
Qed.

Lemma startActions_shape (todo : list (option jsstring)) :
  match startPc todo with
  | AwaitScript script rest =>
      truthy script = true
      ∧ ∃ skipped, todo = skipped ++ script :: rest
          ∧ startActions todo = scriptTrace skipped ++ [Execute script]
  | AwaitSend => startActions todo = scriptTrace todo ++ [Send]
  | _ => False
  end.
Proof.
  induction todo as [|s todo IH]; cbn [startPc startActions]; [done|].
  destruct (truthy s) eqn:Hs.
  - split; [done|]. by exists [].
  - destruct (startPc todo) as [s' rest| | |]; try done.
    + destruct IH as (Ht & skipped & -> & ->). split; [done|].
      exists (s :: skipped). split; [done|].
      change (s :: skipped) with ([s] ++ skipped).
      rewrite scriptTrace_app. unfold scriptTrace at 1. cbn. by rewrite Hs.
    + rewrite IH. change (s :: todo) with ([s] ++ todo).
      rewrite scriptTrace_app. unfold scriptTrace at 2. cbn. by rewrite Hs.
Qed.

Lemma catchActions_no_Send (t : Task) (e : Thrown) (w : World) :
  Send ∉ catchActions t e w.
Proof.
  unfold catchActions. destruct (isCancelledIn (request t) w), e; no_such_member.
Qed.

Lemma previewActions_no_Send (t : Task) (env : Env) response result :
  Send ∉ previewActions t env response result.
Proof.
  unfold previewActions. destruct (activeTextEditor env); cbn zeta;
    [destruct (previewResponseInUntitledDocument (settings t));
      [|destruct (columnTruthy _)]|]; no_such_member.
Qed.

Lemma receivedActions_no_Send (t : Task) (env : Env) response (w : World) :
  Send ∉ receivedActions t env response w.
Proof.
  unfold receivedActions, cacheActions.
  pose proof (previewActions_no_Send t env response
                (testRunner env response (testsIn (request t) w))) as Hp.
  destruct (isCancelledIn (request t) w); [no_such_member|].
  destruct (nameIn (request t) w) as [[|c n]|], (document t);
    revert Hp; no_such_member.
Qed.

(** A resumed task sends only when its last script has returned. *)
Lemma resumeActions_Send (t : Task) (a : Answer) (env : Env) (w : World) :
  Send ∈ resumeActions t a env w →
  ∃ script rest b,
    pc t = AwaitScript script rest ∧ a = ScriptRan b
    ∧ (truthy script = true →
       b = Returns
       ∧ resumeActions t a env w = Resumed (ScriptRan Returns) :: startActions rest
       ∧ nextPc t a w = Some (startPc rest)).
Proof.
  unfold resumeActions, nextPc.
  destruct (pc t) as [script rest| | |] eqn:Hpc; destruct a as [b|o|o];
    try (by intros ?%elem_of_nil).
  - intros [?|[Ha|Ha]%elem_of_app]%elem_of_cons; [done|..].
    + by apply list_elem_of_fmap in Ha as (s & ? & _).
    + destruct (execute script b).2 as [[[]|e]|] eqn:Hex.
      * exists script, rest, b. split; [done|]. split; [done|]. intros Hs.
        destruct (execute_fulfilled script b () Hs Hex) as [-> ->]. done.
      * by apply catchActions_no_Send in Ha.
      * by apply elem_of_nil in Ha.
  - intros [?|Ha]%elem_of_cons; [done|]. destruct o.
    + by apply receivedActions_no_Send in Ha.
    + by apply catchActions_no_Send in Ha.
  - intros [?|Ha]%elem_of_cons; [done|]. destruct o as [[]|e].
    + by apply elem_of_nil in Ha.
    + by apply catchActions_no_Send in Ha.
Qed.

Lemma scriptsInOrder_unchanged (w w' : World) (i : RunId) :
  (nextRequest w ≤ nextRequest w')%nat →
  (∀ r, (r < nextRequest w)%nat → scriptsIn r w' = scriptsIn r w) →
  unchangedAt i w w' → scriptsInOrder w i → scriptsInOrder w' i.
Proof.
  intros Hq Hsc [El Et] [H1 H2]. unfold scriptsInOrder. rewrite El, Et. split.
  - intros t Ht. destruct (H1 t Ht) as [Hr Hshape]. split; [lia|].
    by rewrite (Hsc _ Hr).
  - intros Hs. destruct (H2 Hs) as (r & d & post & Hr & E).
    exists r, d, post. split; [lia|]. by rewrite (Hsc _ Hr).
Qed.

Lemma step_scriptsInOrder (x : Input) (w : World) :
  wellNumbered w → (∀ i, scriptsInOrder w i) → ∀ i, scriptsInOrder (step x w) i.
Proof.
  intros Hw Hall i.
  destruct (step_view x w Hw)
    as (Hq & _ & Hname & [Hsame|[(r & s & d & Hr & Hst)|(j & t & a & env & Ht & Hres)]]).
  - eapply scriptsInOrder_unchanged; [done| |done|done]. intros r Hr. by apply Hname.
  - destruct Hst as (Hother & _ & _ & El & Et).
    destruct (decide (i = nextRun w)) as [->|Hi].
    2:{ eapply scriptsInOrder_unchanged; [done| |by apply Hother|done].
        intros r' Hr'. by apply Hname. }
    unfold scriptsInOrder. rewrite El, Et.
    pose proof (startActions_shape (scriptsIn r (step x w))) as Hshape.
    split.
    + intros t' [= <-]. cbn [request document pc]. split; [done|].
      destruct (startPc (scriptsIn r (step x w))) as [s' rest| | |]; try done.
      * destruct Hshape as (Hs' & skipped & E & ->). eauto.
      * by rewrite Hshape.
    + intros Hs. exists r, d, []. split; [done|].
      destruct (startPc (scriptsIn r (step x w))) as [s' rest| | |]; try done.
      * destruct Hshape as (Hs' & skipped & E & Ea). rewrite Ea in Hs.
        pose proof (scriptTrace_no_Send skipped). revert Hs. no_such_member.
      * by rewrite Hshape.
  - destruct Hres as (Hother & El & Et).
    destruct (decide (i = j)) as [->|Hi].
    2:{ eapply scriptsInOrder_unchanged; [done| |by apply Hother|done].
        intros r' Hr'. by apply Hname. }
    destruct (Hall j) as [H1 H2]. destruct (H1 t Ht) as [Hr Hshape].
    pose proof (proj2 (Hname _ Hr)) as Hsc.
    unfold scriptsInOrder. rewrite El, Et.
    (* a send that was made before stays where it is *)
    assert (Hold : Send ∈ actionsOf j (log w) →
              ∃ r d post, (r < nextRequest (step x w))%nat
                ∧ actionsOf j (log w) ++ resumeActions t a env w
                  = Invoke r d :: Update Pending None
                      :: scriptTrace (scriptsIn r (step x w)) ++ Send :: post).
    { intros Hs. destruct (H2 Hs) as (r & d & post & Hr' & ->).
      exists r, d, (post ++ resumeActions t a env w). split; [lia|].
      rewrite (proj2 (Hname _ Hr')). cbn. by rewrite <- !app_assoc. }
    destruct (pc t) as [script rest| | |] eqn:Hpc.
    + destruct Hshape as (Hscript & before & Esc & Eold).
      assert (Hnosend : Send ∉ actionsOf j (log w)).
      { rewrite Eold. pose proof (scriptTrace_no_Send before). no_such_member. }
      destruct a as [b|o|o].
      2,3: (unfold resumeActions, nextPc; rewrite Hpc, app_nil_r; split;
            [intros t' [= <-]; cbn; split; [lia|]; rewrite Hsc; eauto
            |by intros ?]).
      destruct (execute script b) as [shown promise] eqn:Hex.
      assert (Ea : resumeActions t (ScriptRan b) env w
                   = Resumed (ScriptRan b) :: (Shows <$> shown)
                     ++ match promise with
                        | None => []
                        | Some (Fulfilled _) => startActions rest
                        | Some (Rejected e) => catchActions t e w
                        end).
      { unfold resumeActions. by rewrite Hpc, Hex. }
      assert (En : nextPc t (ScriptRan b) w
                   = match promise with
                     | None => Some Stuck
                     | Some (Fulfilled _) => Some (startPc rest)
                     | Some (Rejected _) => None
                     end).
      { unfold nextPc. by rewrite Hpc, Hex. }
      rewrite Ea, En. destruct promise as [[[]|e]|].
      * destruct (execute_fulfilled script b () Hscript) as [-> Hshown];
          [by rewrite Hex|]. rewrite Hex in Hshown. cbn in Hshown. subst shown.
        cbn [fmap list_fmap app option_fmap option_map].
        assert (Etrace : scriptTrace (before ++ [script])
                         = scriptTrace before
                           ++ [Execute script; Resumed (ScriptRan Returns)]).
        { rewrite scriptTrace_app. f_equal. unfold scriptTrace. cbn.
          by rewrite Hscript. }
        pose proof (startActions_shape rest) as Hrest.
        rewrite Eold. cbn [app].
        destruct (startPc rest) as [s' rest'| | |]; try done.
        -- destruct Hrest as (Hs' & skipped & -> & ->). split.
           ++ intros t' [= <-]. cbn [request document pc withPc]. split; [lia|].
              split; [done|]. exists (before ++ [script] ++ skipped).
              rewrite Hsc, Esc. split; [by rewrite <- !app_assoc|].
              rewrite !scriptTrace_app. f_equal. f_equal.
              rewrite <- !app_assoc. f_equal. unfold scriptTrace at 2. cbn.
              by rewrite Hscript.
           ++ intros Hs. exfalso.
              pose proof (scriptTrace_no_Send before).
              pose proof (scriptTrace_no_Send skipped).
              revert Hs. no_such_member.
        -- rewrite Hrest.
           assert (Eall : Invoke (request t) (document t) :: Update Pending None
                          :: (scriptTrace before ++ [Execute script])
                             ++ Resumed (ScriptRan Returns) :: scriptTrace rest ++ [Send]
                          = Invoke (request t) (document t) :: Update Pending None
                            :: scriptTrace (scriptsIn (request t) (step x w)) ++ [Send]).
           { rewrite Hsc, Esc. change (script :: rest) with ([script] ++ rest).
             rewrite app_assoc, (scriptTrace_app _ rest), Etrace.
             f_equal. f_equal. by rewrite <- !app_assoc. }
           rewrite Eall. split.
           ++ intros t' [= <-]. cbn [request document pc withPc]. split; [lia|done].
           ++ intros _. exists (request t), (document t), []. split; [lia|done].
      * split; [done|]. intros Hs. exfalso. rewrite Eold in Hs.
        pose proof (scriptTrace_no_Send before).
        pose proof (catchActions_no_Send t e w).
        revert Hs. no_such_member.
        match goal with H : _ ∈ Shows <$> _ |- _ =>
          by apply list_elem_of_fmap in H as (? & ? & _) end.
      * split.
        -- intros t' [= <-]. cbn [request document pc withPc]. split; [lia|].
           rewrite Eold. pose proof (scriptTrace_no_Send before).
           no_such_member.
           match goal with H : _ ∈ Shows <$> _ |- _ =>
             by apply list_elem_of_fmap in H as (? & ? & _) end.
        -- intros Hs. exfalso. rewrite Eold in Hs.
           pose proof (scriptTrace_no_Send before).
           revert Hs. no_such_member.
           match goal with H : _ ∈ Shows <$> _ |- _ =>
             by apply list_elem_of_fmap in H as (? & ? & _) end.
    + split.
      * intros t' Ht'. unfold nextPc in Ht'. rewrite Hpc in Ht'.
        destruct a as [b|[response|e]|o]; cbn in Ht'.
        -- injection Ht' as <-. cbn [request document pc withPc]. split; [lia|].
           unfold resumeActions. rewrite Hpc, app_nil_r, Hsc. done.
        -- destruct (isCancelledIn (request t) w); [done|].
           injection Ht' as <-. cbn. split; [lia|done].
        -- done.
        -- injection Ht' as <-. cbn [request document pc withPc]. split; [lia|].
           unfold resumeActions. rewrite Hpc, app_nil_r, Hsc. done.
      * intros _. apply Hold. rewrite Hshape. apply elem_of_cons. right.
        apply elem_of_cons. right. apply elem_of_app. right. by left.
    + split.
      * intros t' Ht'. unfold nextPc in Ht'. rewrite Hpc in Ht'.
        destruct a; cbn in Ht'; try done; injection Ht' as <-; cbn; split; (lia || done).
      * intros [Hs|Hs]%elem_of_app; [by apply Hold|].
        apply resumeActions_Send in Hs as (? & ? & ? & ? & _). congruence.
    + assert (Ea : resumeActions t a env w = [])
        by (unfold resumeActions; rewrite Hpc; by destruct a).
      assert (En : nextPc t a w = Some Stuck)
        by (unfold nextPc; rewrite Hpc; by destruct a).
      rewrite Ea, En, app_nil_r in *. split.
      * intros t' [= <-]. cbn. split; [lia|done].
      * intros Hs. by destruct Hshape.
Qed.

Lemma reachable_scriptsInOrder (w : World) : reachable w → ∀ i, scriptsInOrder w i.
Proof.
  intros [inputs ->]. induction inputs as [|x inputs IH] using rev_ind.
  - intros i. unfold scriptsInOrder. cbn. split; [done|]. by intros ?%elem_of_nil.
  - rewrite exec_snoc. apply step_scriptsInOrder; [|done].
    apply exec_wellNumbered, initial_wellNumbered.
Qed.

Lemma statusAfter_app (l k : list Action) s :
  statusAfter (l ++ k) s = statusAfter k (statusAfter l s).
Proof. unfold statusAfter. by rewrite foldl_app. Qed.

Lemma statusAfter_Shows (shown : list Shown) s :
  statusAfter (Shows <$> shown) s = s.
Proof. induction shown as [|x l IH]; [done|]. exact IH. Qed.

(** C8, as the code has it.  In every world the controller reaches: an
    invocation that has sent its request did so after handing every script of
    the request to execute, in list order, each script that is not empty
    having returned before the next call; and when a script that is awaited
    throws or does not compile, the invocation never sends the request,
    whatever happens afterwards, and if execute rejects, the invocation is
    over and the status becomes Error unless the cancelled flag of the request
    is set, in which case the status entry is left as it is. *)
Theorem scripts_run_before_send (w : World) :
  reachable w →
  (∀ i, Send ∈ actionsOf i (log w) →
     ∃ r d post,
       actionsOf i (log w)
       = Invoke r d :: Update Pending None
           :: scriptTrace (scriptsIn r w) ++ Send :: post)
  ∧ (∀ i t script rest b env,
       findTask i (tasks w) = Some t → pc t = AwaitScript script rest →
       b ≠ Returns →
       (∀ inputs,
          Send ∉ actionsOf i (log (exec inputs (settle i (ScriptRan b) env w))))
       ∧ ∀ e, (execute script b).2 = Some (Rejected e) →
           findTask i (tasks (settle i (ScriptRan b) env w)) = None
           ∧ statusEntry (settle i (ScriptRan b) env w)
             = if isCancelledIn (request t) w then statusEntry w
               else Some (Error, None)).
Proof.
  intros Hr. split.
  - intros i Hs. destruct (reachable_scriptsInOrder w Hr i) as [_ H2].
    destruct (H2 Hs) as (r & d & post & _ & E). eauto.
  - intros i t script rest b env Ht Hpc Hb.
    destruct (reachable_scriptsInOrder w Hr i) as [H1 _].
    destruct (H1 t Ht) as [_ Hshape]. rewrite Hpc in Hshape.
    destruct Hshape as (Hscript & before & _ & Eold).
    destruct (reachable_wellNumbered w Hr) as (Hts & _).
    destruct (findTask_Some _ _ _ Ht) as [Hi Hin].
    destruct (settle_present i (ScriptRan b) env w t Ht)
      as (El & Et & _ & _ & En & _ & _ & Es & _).
    assert (Hacts : Send ∉ resumeActions t (ScriptRan b) env w).
    { intros (? & ? & ? & Hpc' & [= <-] & Hx)%resumeActions_Send.
      rewrite Hpc in Hpc'. injection Hpc' as <- <-.
      by destruct (Hx Hscript) as [? _]. }
    assert (Hnext : nextPc t (ScriptRan b) w
                    = match (execute script b).2 with
                      | Some (Rejected _) => None
                      | _ => Some Stuck
                      end).
    { unfold nextPc. rewrite Hpc.
      destruct (execute script b).2 as [[[]|e]|] eqn:Hex; try done.
      by destruct (execute_fulfilled script b () Hscript Hex). }
    split.
    + intros inputs.
      destruct (idle_exec i inputs (settle i (ScriptRan b) env w)) as (_ & _ & ->).
      * rewrite En. destruct (Hts t Hin). lia.
      * unfold idle. rewrite Et, Hnext.
        destruct (execute script b).2 as [[|e]|].
        -- right. eexists. by rewrite findTask_setPc, decide_True, Ht.
        -- left. by rewrite findTask_dropTask, decide_True.
        -- right. eexists. by rewrite findTask_setPc, decide_True, Ht.
      * rewrite El, actionsOf_app, actionsOf_tag_own, Eold.
        pose proof (scriptTrace_no_Send before). revert Hacts. no_such_member.
    + intros e Hex. rewrite Et, Es, Hnext, Hex.
      split; [by rewrite findTask_dropTask, decide_True|].
      unfold resumeActions. rewrite Hpc, Hex.
      change (Resumed (ScriptRan b) :: ?l) with ([Resumed (ScriptRan b)] ++ l).
      rewrite !statusAfter_app, statusAfter_Shows. unfold catchActions.
      destruct (isCancelledIn (request t) w); [done|].
      by destruct (execute_rejected script b e Hex) as (? & ? & ? & ->).
Qed.

Lemma scripted_reachable : reachable scripted.
Proof. apply reachable_intro. Qed.

(** A script throws an Error while the request is not cancelled. *)
Lemma scripts_run_before_send_witness :
  reachable scripted
  ∧ isCancelledIn 0%nat scripted = false
  ∧ findTask 0%nat (tasks (settle 0%nat (ScriptRan (Throws error0)) env0 scripted)) = None
  ∧ statusEntry (settle 0%nat (ScriptRan (Throws error0)) env0 scripted)
    = Some (Error, None).
Proof.
  split; [exact scripted_reachable|]. split; [reflexivity|].
  destruct (scripts_run_before_send scripted scripted_reachable) as [_ H].
  destruct (H 0%nat
              {| invocation := 0%nat; request := 0%nat; settings := settings0;
                 document := Some (lit "a.http");
                 pc := AwaitScript (Some (lit "throw new Error()")) [] |}
              (Some (lit "throw new Error()")) [] (Throws error0) env0
              eq_refl eq_refl ltac:(discriminate)) as [_ H'].
  exact (H' error0 eq_refl).
Defined.

(** C8 as stated fails: the request is cancelled while its script runs, the
    script then throws an Error, and the status does not become Error. *)
Lemma cancelled_script_failure_keeps_status :
  (execute (Some (lit "throw new Error()")) (Throws error0)).2
  = Some (Rejected error0)
  ∧ actionsOf 0%nat (log scriptCancelled)
    = [Invoke 0%nat (Some (lit "a.http")); Update Pending None;
       Execute (Some (lit "throw new Error()"));
       Resumed (ScriptRan (Throws error0));
       Shows (ConsoleError (Some (lit "Error: boom")));
       Shows (ErrorMessage (lit "Error: boom"))]
  ∧ statusEntry scriptCancelled = Some (Cancelled, None)
  ∧ statusEntry scriptCancelled ≠ Some (Error, None).
Proof.
  split; [reflexivity|]. split; [vm_compute; reflexivity|].
  split; [reflexivity|discriminate].
Qed.

(** C1 as stated fails: the named request is run again by rerun, the new
    response arrives, and the cache entry of the name still holds the response
    of the first run. *)
Lemma rerun_leaves_cache_entry :
  nameIn 0%nat reanswered = Some (lit "login")
  ∧ responsesFor 0%nat reanswered = [response1; response2]
  ∧ cache reanswered !! (lit "a.http", lit "login") = Some response1
  ∧ response1 ≠ response2.
Proof.
  split; [reflexivity|]. split; [vm_compute; reflexivity|].
  split; [vm_compute; reflexivity|discriminate].
Qed.

(** The response to a run from a document overwrites the entry. *)
Lemma cache_written_for_documents_only_witness :
  reachable sent
  ∧ cache (settle 0%nat (SendSettled (Fulfilled response1)) env0 sent)
    = <[(lit "a.http", lit "login") := response1]> (cache sent).
Proof.
  split; [exact sent_reachable|].
  destruct (cache_written_for_documents_only sent sent_reachable) as (_ & H & _).
  exact (H 0%nat
           {| invocation := 0%nat; request := 0%nat; settings := settings0;
              document := Some (lit "a.http"); pc := AwaitSend |}
           env0 response1 (lit "a.http") 108 (lit "ogin")
           eq_refl eq_refl eq_refl eq_refl eq_refl).
Defined.

End ControllerProofs.

(** ** The Selector *)

Section SelectorProofs.
Import Selector SelectorContract Examples.

Lemma splitOn_length {A} (sep : A → bool) (l : list A) :
  length (splitOn sep l) = S (length (filter (λ x, sep x = true) l)).
Proof.
  induction l as [|x l IH]; [done|]. cbn [splitOn]. rewrite filter_cons.
  destruct (sep x) eqn:Hx.
  - rewrite decide_True by done. cbn. by rewrite IH.
  - rewrite decide_False by done. rewrite <- IH.
    by destruct (splitOn sep l).
Qed.

Lemma blocksFrom_count (recognized : jsstring → bool) (first : nat)
  (cs : list (list jsstring)) :
  (length (blocksFrom recognized first cs)
   + length (filter (λ c, hasEmptyBody recognized c = true) cs))%nat
  = length cs.
Proof.
  revert first. induction cs as [|c cs IH]; intros first; [done|].
  cbn [blocksFrom]. rewrite filter_cons.
  destruct (hasEmptyBody recognized c) eqn:Hc.
  - rewrite decide_True by done. cbn [length]. rewrite <- (IH (first + length c + 1)%nat). lia.
  - rewrite decide_False by done. cbn [length].
    rewrite <- (IH (first + length c + 1)%nat). lia.
Qed.

(** *** The relations of the contract are functions *)

Section Pieces.
Context {A : Type} (sep : A → Prop) (sepb : A → bool).
Hypothesis sepb_spec : ∀ x, sepb x = true ↔ sep x.

Lemma sepb_false (x : A) : ¬ sep x → sepb x = false.
Proof. intros H. destruct (sepb x) eqn:E; [|done]. by apply sepb_spec in E. Qed.

Lemma splitOn_piece (piece : list A) :
  Forall (λ x, ¬ sep x) piece → splitOn sepb piece = [piece].
Proof.
  induction 1 as [|x piece Hx _ IH]; [done|].
  cbn [splitOn]. by rewrite (sepb_false x Hx), IH.
Qed.

Lemma splitOn_next (piece : list A) (x : A) (rest : list A) :
  Forall (λ x, ¬ sep x) piece → sep x →
  splitOn sepb (piece ++ x :: rest) = piece :: splitOn sepb rest.
Proof.
  intros Hp Hx. induction Hp as [|y piece Hy _ IH]; cbn [app splitOn].
  - by rewrite (proj2 (sepb_spec x) Hx).
  - by rewrite (sepb_false y Hy), IH.
Qed.

Lemma pieces_splitOn (l : list A) (ps : list (list A)) :
  pieces sep l ps → ps = splitOn sepb l.
Proof.
  induction 1 as [piece Hp|piece x rest ps Hp Hx _ IH].
  - by rewrite splitOn_piece.
  - by rewrite splitOn_next, IH.
Qed.

Lemma splitOn_pieces (l : list A) : pieces sep l (splitOn sepb l).
Proof.
  induction l as [|x l IH]; cbn [splitOn].
  - by apply pieces_last.
  - destruct (sepb x) eqn:Hx.
    + apply (pieces_next sep [] x l); [done| by apply sepb_spec |done].
    + assert (Hnx : ¬ sep x) by (intros H%sepb_spec; congruence).
      inversion IH as [piece Hp E1 E2|piece y rest ps Hp Hy Hps E1 E2].
      * apply pieces_last. by constructor.
      * apply (pieces_next sep (x :: piece) y rest); [by constructor|done..].
Qed.

Lemma pieces_intro (l : list A) (ps : list (list A)) :
  splitOn sepb l = ps → pieces sep l ps.
Proof. intros <-. apply splitOn_pieces. Qed.

Lemma pieces_free (l : list A) (ps : list (list A)) :
  pieces sep l ps → Forall (Forall (λ x, ¬ sep x)) ps.
Proof. induction 1; by constructor. Qed.

Lemma pieces_elem (l : list A) (ps : list (list A)) :
  pieces sep l ps → ∀ p x, p ∈ ps → x ∈ p → x ∈ l.
Proof.
  induction 1 as [piece _|piece y rest ps _ _ _ IH]; intros p x Hp Hx.
  - apply list_elem_of_singleton in Hp. by subst.
  - apply elem_of_cons in Hp as [->|Hp].
    + apply elem_of_app. by left.
    + apply elem_of_app. right. apply elem_of_cons. right. by eapply IH.
Qed.

Lemma selected_filter (l k : list A) :
  selected sep l k → k = filter (λ x, sepb x = true) l.
Proof.
  induction 1 as [|x l k Hx _ IH|x l k Hx _ IH]; [done|..]; rewrite filter_cons.
  - rewrite decide_True by by apply sepb_spec. by rewrite IH.
  - rewrite decide_False; [done|]. by rewrite sepb_false.
Qed.

Lemma filter_selected (l : list A) :
  selected sep l (filter (λ x, sepb x = true) l).
Proof.
  induction l as [|x l IH]; [constructor|]. rewrite filter_cons.
  destruct (sepb x) eqn:Hx.
  - rewrite decide_True by done. apply selected_keep; [by apply sepb_spec|done].
  - rewrite decide_False by done. apply selected_drop; [|done].
    intros H%sepb_spec. congruence.
Qed.

Lemma selected_intro (l k : list A) :
  filter (λ x, sepb x = true) l = k → selected sep l k.
Proof. intros <-. apply filter_selected. Qed.

End Pieces.

(** *** The functions of split against the words of the contract *)

Lemma lineFeed_spec (c : N) : (10 =? c) = true ↔ lineFeed c.
Proof. unfold lineFeed. rewrite N.eqb_eq. naive_solver. Qed.

Lemma trimStart_split (s : jsstring) :
  ∃ indent, whiteSpace indent ∧ s = indent ++ trimStart s
            ∧ ∀ c, head (trimStart s) = Some c → isWhiteSpace c = false.
Proof.
  induction s as [|x s (indent & Hi & Hs & Hh)].
  - exists []. split; [constructor|]. by split.
  - cbn [trimStart]. destruct (isWhiteSpace x) eqn:Hx.
    + exists (x :: indent). split; [by constructor|]. split; [|done].
      cbn. by rewrite <- Hs.
    + exists []. split; [constructor|]. split; [done|].
      intros c [= <-]. done.
Qed.

Lemma trimStart_app (indent s : jsstring) :
  whiteSpace indent → (∀ c, head s = Some c → isWhiteSpace c = false) →
  trimStart (indent ++ s) = s.
Proof.
  intros Hi Hs. induction Hi as [|x indent Hx _ IH]; cbn [app trimStart].
  - destruct s as [|c s]; [done|]. cbn. by rewrite (Hs c).
  - by rewrite Hx.
Qed.

Lemma trimStart_empty (s : jsstring) : trimStart s = [] ↔ whiteSpace s.
Proof.
  split.
  - intros E. destruct (trimStart_split s) as (indent & Hi & Hs & _).
    rewrite E, app_nil_r in Hs. by subst.
  - intros H. induction H as [|x s Hx _ IH]; [done|]. cbn. by rewrite Hx.
Qed.

Lemma trim_empty (s : jsstring) : trim s = [] ↔ whiteSpace s.
Proof.
  unfold trim. split.
  - intros E. apply (f_equal reverse) in E. rewrite reverse_involutive in E.
    cbn in E. apply trimStart_empty, Forall_reverse in E.
    rewrite reverse_involutive in E.
    destruct (trimStart_split s) as (indent & Hi & Hs & _).
    rewrite Hs. by apply Forall_app.
  - intros H. apply trimStart_empty in H. rewrite H. done.
Qed.

Lemma isBlank_spec (line : jsstring) : isBlank line = true ↔ whiteSpace line.
Proof.
  unfold isBlank, whiteSpace. rewrite forallb_forall, Forall_forall.
  split; intros H c Hc; apply H; by apply list_elem_of_In.
Qed.

Lemma startsWith_spec (p s : jsstring) :
  startsWith p s = true ↔ ∃ rest, s = p ++ rest.
Proof.
  revert s. induction p as [|a p IH]; intros s; cbn [startsWith].
  - split; [by exists s|done].
  - destruct s as [|b s].
    + split; [done|]. by intros (rest & ?).
    + rewrite andb_true_iff, N.eqb_eq, IH. split.
      * intros (-> & rest & ->). by exists rest.
      * intros (rest & [= -> ->]). split; [done|]. by exists rest.
Qed.

Lemma isBoundary_spec (line : jsstring) : isBoundary line = true ↔ boundary line.
Proof.
  unfold isBoundary, boundary. rewrite startsWith_spec. split.
  - intros (name & E). destruct (trimStart_split line) as (indent & Hi & Hs & _).
    exists indent, name. split; [done|]. by rewrite <- E.
  - intros (indent & name & Hi & ->). exists name.
    apply trimStart_app; [done|]. by intros c [= <-].
Qed.

Lemma metadataOf_spec (line : jsstring) :
  is_Some (metadataOf line) ↔ metadataLine line.
Proof.
  unfold metadataLine. split.
  - intros [entry' E]. unfold metadataOf in E.
    destruct (trimStart_split line) as (indent & Hi & Hs & _).
    assert (Hrest : ∀ comment rest, trimStart line = comment ++ rest →
              comment = lit "#" ∨ comment = lit "//" →
              (∃ entry, trimStart rest = 64 :: entry) →
              ∃ indent comment gap entry,
                whiteSpace indent ∧ (comment = lit "#" ∨ comment = lit "//")
                ∧ whiteSpace gap ∧ line = indent ++ comment ++ gap ++ 64 :: entry).
    { intros comment rest Et Hc (entry & Ee).
      destruct (trimStart_split rest) as (gap & Hg & Hr & _).
      exists indent, comment, gap, entry. repeat split; [done..|].
      by rewrite Hs at 1; rewrite Et, Hr, Ee. }
    destruct (trimStart line) as [|a [|b rest]] eqn:Et; [done|..].
    + destruct (decide (a = 35)) as [->|Ha].
      * apply (Hrest (lit "#") []); [done|by left|]. cbn in E. done.
      * exfalso. destruct a as [|a]; [done|].
        do 6 (destruct a as [a|a|]; try done).
    + destruct (decide (a = 35)) as [->|Ha].
      { apply (Hrest (lit "#") (b :: rest)); [done|by left|].
        cbn [fmap option_fmap option_map] in E.
        destruct (trimStart (b :: rest)) as [|e entry]; [done|].
        destruct (decide (e = 64)) as [->|He]; [by exists entry|].
        exfalso. destruct e as [|e]; [done|].
        do 7 (destruct e as [e|e|]; try done). }
      destruct (decide (a = 47 ∧ b = 47)) as [[-> ->]|Hab].
      { apply (Hrest (lit "//") rest); [done|by right|].
        cbn [fmap option_fmap option_map] in E.
        destruct (trimStart rest) as [|e entry]; [done|].
        destruct (decide (e = 64)) as [->|He]; [by exists entry|].
        exfalso. destruct e as [|e]; [done|].
        do 7 (destruct e as [e|e|]; try done). }
      exfalso. destruct a as [|a]; [done|].
      do 6 (destruct a as [a|a|]; try done).
      destruct b as [|b]; [done|].
      do 6 (destruct b as [b|b|]; try done). naive_solver.
  - intros (indent & comment & gap & entry & Hi & Hc & Hg & ->).
    unfold metadataOf.
    assert (Hentry : trimStart (gap ++ 64 :: entry) = 64 :: entry).
    { apply trimStart_app; [done|]. by intros c [= <-]. }
    assert (E1 : lit "#" = [35]) by (vm_compute; reflexivity).
    assert (E2 : lit "//" = [47; 47]) by (vm_compute; reflexivity).
    destruct Hc as [-> | ->]; rewrite ?E1, ?E2.
    + rewrite trimStart_app; [|done|by intros c [= <-]].
      cbn -[trimStart cut trim]. rewrite Hentry. by destruct (cut 58 entry).
    + rewrite trimStart_app; [|done|by intros c [= <-]].
      cbn -[trimStart cut trim]. rewrite Hentry. by destruct (cut 58 entry).
Qed.

Lemma passedOver_spec (line : jsstring) :
  passedOver line ↔ isBlank line = true ∨ is_Some (metadataOf line).
Proof. unfold passedOver. by rewrite isBlank_spec, metadataOf_spec. Qed.

Lemma parseBlock_spec (recognized : jsstring → bool) (candidate : list jsstring)
  (found : gmap jsstring (option jsstring)) :
  ∃ before,
    candidate = before ++ (parseBlock recognized candidate found).2
    ∧ Forall passedOver before
    ∧ ∀ start, head (parseBlock recognized candidate found).2 = Some start →
               ¬ passedOver start.
Proof.
  revert found. induction candidate as [|l ls IH]; intros found.
  - exists []. split; [done|]. split; [constructor|done].
  - cbn [parseBlock]. destruct (isBlank l) eqn:Hb.
    { destruct (IH found) as (before & E & Hp & Hs).
      exists (l :: before). split; [by rewrite E at 1|].
      split; [|done]. constructor; [|done]. apply passedOver_spec. by left. }
    destruct (metadataOf l) as [[key value]|] eqn:Hm.
    { destruct (IH (if recognized key then <[key:=value]> found else found))
        as (before & E & Hp & Hs).
      exists (l :: before). split; [by rewrite E at 1|].
      split; [|done]. constructor; [|done]. apply passedOver_spec.
      right. by rewrite Hm. }
    exists []. split; [done|]. split; [constructor|].
    intros start [= <-]. rewrite passedOver_spec, Hb, Hm.
    intros [?|[? ?]]; done.
Qed.

Lemma linesOf_head (body start : jsstring) (after : list jsstring) :
  linesOf body (start :: after) → ∃ rest, body = start ++ rest.
Proof.
  inversion 1; subst.
  - exists []. by rewrite app_nil_r.
  - by eexists.
Qed.

Lemma joinLines_linesOf (ls : list jsstring) :
  ls ≠ [] → Forall (Forall (λ c, ¬ lineFeed c)) ls → linesOf (joinLines ls) ls.
Proof.
  intros Hne Hall. induction Hall as [|l ls Hl Hls IH]; [done|].
  destruct ls as [|l' ls].
  - by apply pieces_last.
  - cbn [joinLines]. apply pieces_next; [done|done|]. by apply IH.
Qed.

(** The body of a candidate is the body the contract describes. *)
Lemma bodyOf_bodyIs (recognized : jsstring → bool) (candidate : list jsstring) :
  Forall (Forall (λ c, ¬ lineFeed c)) candidate →
  bodyIs candidate (bodyOf recognized candidate).
Proof.
  intros Hfree. unfold bodyOf.
  destruct (parseBlock_spec recognized candidate ∅) as (before & E & Hp & Hs).
  destruct (parseBlock recognized candidate ∅).2 as [|start after] eqn:Er.
  - rewrite app_nil_r in E. subst before. by apply body_none.
  - rewrite E at 1. apply body_from; [done|by apply Hs|].
    apply joinLines_linesOf; [done|].
    rewrite E in Hfree. by apply Forall_app in Hfree as [_ ?].
Qed.

Lemma bodyIs_whiteSpace (candidate : list jsstring) (body : jsstring) :
  bodyIs candidate body → whiteSpace body → Forall passedOver candidate.
Proof.
  intros [c Hc|before start after b Hb Hs Hl] Hw; [done|].
  destruct (linesOf_head _ _ _ Hl) as (rest & ->).
  apply Forall_app in Hw as [Hw _]. destruct Hs. by left.
Qed.

Lemma hasEmptyBody_spec (recognized : jsstring → bool) (candidate : list jsstring) :
  hasEmptyBody recognized candidate = true ↔ emptyBody candidate.
Proof.
  unfold hasEmptyBody, emptyBody, bodyOf. rewrite bool_decide_eq_true, trim_empty.
  destruct (parseBlock_spec recognized candidate ∅) as (before & E & Hp & Hs).
  destruct (parseBlock recognized candidate ∅).2 as [|start after] eqn:Er.
  - rewrite app_nil_r in E. subst before. split; [|intros _; constructor].
    intros _. exists []. split; [by apply body_none|constructor].
  - split.
    + intros Hw. destruct (Hs start eq_refl). left.
      destruct after; cbn [joinLines] in Hw; [done|].
      by apply Forall_app in Hw as [? _].
    + intros (body & Hb & Hw). pose proof (bodyIs_whiteSpace _ _ Hb Hw) as Hall.
      rewrite E in Hall. apply Forall_app in Hall as [_ Hall].
      apply Forall_cons in Hall as [Hst _]. by destruct (Hs start eq_refl).
Qed.

Lemma blocksFrom_kept (recognized : jsstring → bool) (first : nat)
  (cs : list (list jsstring)) :
  Forall (Forall (Forall (λ c, ¬ lineFeed c))) cs →
  ∃ kept,
    selected (λ c, ¬ emptyBody c) cs kept
    ∧ Forall2 (λ b c, bodyIs c (rawText b) ∧ ¬ whiteSpace (rawText b))
        (blocksFrom recognized first cs) kept.
Proof.
  intros Hfree. revert first.
  induction Hfree as [|c cs Hc _ IH]; intros first; cbn [blocksFrom].
  - exists []. split; constructor.
  - destruct (IH (first + length c + 1)%nat) as (kept & Hk & Hb).
    destruct (hasEmptyBody recognized c) eqn:He.
    + exists kept. split; [|done]. apply selected_drop; [|done].
      intros Hn. by apply Hn, (hasEmptyBody_spec recognized).
    + assert (Hne : ¬ emptyBody c).
      { intros H%(hasEmptyBody_spec recognized). congruence. }
      exists (c :: kept). split; [by apply selected_keep|].
      constructor; [|done]. cbn [rawText]. split; [by apply bodyOf_bodyIs|].
      intros Hw. apply Hne. exists (bodyOf recognized c).
      split; [by apply bodyOf_bodyIs|done].
Qed.

(** Every document has lines, boundaries and candidate blocks as the contract
    describes them, so that the count below speaks of every document. *)
Lemma document_described (recognized : jsstring → bool) (documentText : jsstring) :
  ∃ ls boundaries cs empties,
    linesOf documentText ls ∧ selected boundary ls boundaries
    ∧ candidatesOf ls cs ∧ selected emptyBody cs empties.
Proof.
  exists (lines documentText),
    (filter (λ l, isBoundary l = true) (lines documentText)),
    (candidates documentText),
    (filter (λ c, hasEmptyBody recognized c = true) (candidates documentText)).
  split; [apply (splitOn_pieces _ _ lineFeed_spec)|].
  split; [apply (filter_selected _ _ isBoundary_spec)|].
  split; [apply (splitOn_pieces _ _ isBoundary_spec)|].
  apply (filter_selected _ _ (hasEmptyBody_spec recognized)).
Qed.

(** C5.  For every document text, and whatever the recognized metadata
    keys: when the lines of the text are its pieces between line feeds, the
    boundaries are the lines that start, up to leading white space, with ###,
    the candidate blocks are the pieces of the lines between the boundaries,
    and the empty candidates are those whose body, taken from the first line
    that is neither blank nor a metadata line, is white space only, then
    split returns as many blocks as there are boundaries, plus one, minus the
    empty candidates; and its blocks are, in order, the candidates that are
    not empty, each with its body as raw text, so that no empty candidate
    appears in the output. *)
Theorem split_block_count (recognized : jsstring → bool) (documentText : jsstring)
  (ls boundaries : list jsstring) (cs empties : list (list jsstring)) :
  linesOf documentText ls → selected boundary ls boundaries →
  candidatesOf ls cs → selected emptyBody cs empties →
  length (split recognized documentText)
  = (length boundaries + 1 - length empties)%nat
  ∧ (length (split recognized documentText) + length empties)%nat
    = (length boundaries + 1)%nat
  ∧ ∃ kept,
      selected (λ c, ¬ emptyBody c) cs kept
      ∧ Forall2 (λ b c, bodyIs c (rawText b) ∧ ¬ whiteSpace (rawText b))
          (split recognized documentText) kept.
Proof.
  intros Hls Hbs Hcs Hes.
  pose proof (pieces_free _ _ _ Hls) as Hfree.
  apply (pieces_splitOn _ _ lineFeed_spec) in Hls.
  apply (selected_filter _ _ isBoundary_spec) in Hbs.
  pose proof (pieces_elem _ _ _ Hcs) as Helem.
  apply (pieces_splitOn _ _ isBoundary_spec) in Hcs.
  apply (selected_filter _ _ (hasEmptyBody_spec recognized)) in Hes.
  assert (Hsplit : split recognized documentText = blocksFrom recognized 0 cs).
  { unfold split, candidates, lines. by rewrite <- Hls, <- Hcs. }
  pose proof (blocksFrom_count recognized 0 cs) as Hcount.
  rewrite <- Hes, Hcs, splitOn_length, <- Hbs, <- Hcs, <- Hsplit in Hcount.
  split; [lia|]. split; [lia|]. rewrite Hsplit. apply blocksFrom_kept.
  apply Forall_forall. intros c Hc. apply Forall_forall. intros l Hl.
  rewrite Forall_forall in Hfree. apply Hfree. by apply (Helem c).
Qed.

Lemma split_block_count_witness :
  let cs := [[lit "GET https://a/x"];
             [lit "# @name n"; []];
             [lit "// @note"; lit "POST https://a/y"; [];
              lit "note=a ### b"]] in
  linesOf document0 documentLines0
  ∧ selected boundary documentLines0 [lit "### second"; lit "  ### third"]
  ∧ candidatesOf documentLines0 cs
  ∧ selected emptyBody cs [[lit "# @name n"; []]]
  ∧ length (split recognized0 document0) = 2%nat
  ∧ rawText <$> split recognized0 document0
    = [lit "GET https://a/x";
       lit "POST https://a/y" ++ 10 :: 10 :: lit "note=a ### b"].
Proof.
  intros cs.
  assert (H1 : linesOf document0 documentLines0).
  { apply (pieces_intro _ _ lineFeed_spec). vm_compute. reflexivity. }
  assert (H2 : selected boundary documentLines0
                 [lit "### second"; lit "  ### third"]).
  { apply (selected_intro _ _ isBoundary_spec). vm_compute. reflexivity. }
  assert (H3 : candidatesOf documentLines0 cs).
  { apply (pieces_intro _ _ isBoundary_spec). vm_compute. reflexivity. }
  assert (H4 : selected emptyBody cs [[lit "# @name n"; []]]).
  { apply (selected_intro _ _ (hasEmptyBody_spec recognized0)).
    vm_compute. reflexivity. }
  split; [exact H1|]. split; [exact H2|]. split; [exact H3|].
  split; [exact H4|]. split.
  - exact (proj1 (split_block_count recognized0 document0 documentLines0 _ cs _
                    H1 H2 H3 H4)).
  - vm_compute. reflexivity.
Defined.

End SelectorProofs.
(** ** The VariableResolver *)

Section ResolverProofs.
Import Selector VariableResolver Examples.

Lemma render_literal (text : jsstring) : render (literal text) = text.
Proof. destruct text; [done|]. unfold render. cbn. by rewrite app_nil_r. Qed.

Lemma render_app (l k : list Segment) : render (l ++ k) = render l ++ render k.
Proof. unfold render. apply bind_app. Qed.

(** The scanner loses no text. *)
Lemma scanFrom_render (s : jsstring) (st : ScanState) :
  render (scanFrom st s) = pending st ++ s.
Proof.
  revert st. induction s as [s IH] using (induction_ltof1 _ length).
  unfold ltof in IH. intros st. destruct s as [|c s'].
  - cbn [scanFrom]. rewrite app_nil_r. destruct st; apply render_literal.
  - assert (Hsingle : render (scanFrom match st with
                 | Outside text => Outside (text ++ [c])
                 | Inside text nested inner => Inside text nested (inner ++ [c])
                 end s') = pending st ++ c :: s').
    { rewrite IH by (cbn; lia). destruct st; cbn [pending];
        rewrite <- ?app_assoc; done. }
    cbn [scanFrom]. destruct s' as [|c' s'']; [exact Hsingle|].
    destruct ((c =? 123) && (c' =? 123)) eqn:Hopen.
    + apply andb_true_iff in Hopen as [->%N.eqb_eq ->%N.eqb_eq].
      destruct st as [text|text [|] inner]; rewrite IH by (cbn; lia);
        cbn [pending]; rewrite <- ?app_assoc; done.
    + destruct ((c =? 125) && (c' =? 125)) eqn:Hclose; [|exact Hsingle].
      apply andb_true_iff in Hclose as [->%N.eqb_eq ->%N.eqb_eq].
      destruct st as [text|text [|] inner].
      * exact Hsingle.
      * rewrite IH by (cbn; lia). cbn [pending]. rewrite <- ?app_assoc. done.
      * rewrite render_app, render_literal.
        change (Placeholder inner :: ?l) with ([Placeholder inner] ++ l).
        rewrite render_app, IH by (cbn; lia). unfold render at 1. cbn.
        unfold rawToken. rewrite <- ?app_assoc. cbn. by rewrite <- ?app_assoc.
Qed.

Lemma scan_render (s : jsstring) : render (scan s) = s.
Proof. unfold scan. by rewrite scanFrom_render. Qed.

Lemma render_cons (g : Segment) (l : list Segment) :
  render (g :: l) = render [g] ++ render l.
Proof. exact (render_app [g] l). Qed.

Lemma render_Literal (text : jsstring) : render [Literal text] = text.
Proof. unfold render. cbn. by rewrite app_nil_r. Qed.

Lemma render_Placeholder (inner : jsstring) :
  render [Placeholder inner] = rawToken inner.
Proof. unfold render. cbn. by rewrite app_nil_r. Qed.

(** *** Resolving again what is resolved *)

Lemma resolveSpan_unrecognized (ps : list Provider) (depth : nat) (inner : jsstring) :
  unrecognized ps inner →
  resolveSpan ps depth [] inner
  = Kept {| name := variableName (parseSpan inner);
            problem := UnresolvedVariableWarning |}.
Proof.
  intros H. unfold unrecognized in H. destruct depth; cbn [resolveSpan];
    rewrite bool_decide_eq_false_2 by apply not_elem_of_nil; by rewrite H.
Qed.

Lemma interpolate_settled (ps : list Provider) (maxDepth : nat)
  (segments : list Segment) (text : jsstring) (os : list ResolutionOutcome) :
  (∀ inner, Placeholder inner ∈ segments → unrecognized ps inner) →
  foldl (λ acc g,
           match g with
           | Literal l => (acc.1 ++ l, acc.2)
           | Placeholder inner =>
               let '(t, os) := resolveTop ps maxDepth inner in
               (acc.1 ++ t, acc.2 ++ os)
           end) (text, os) segments
  = (text ++ render segments, os ++ omap warningOf segments).
Proof.
  revert text os. induction segments as [|g segments IH]; intros text os H.
  - cbn. by rewrite !app_nil_r.
  - cbn [foldl]. rewrite (render_cons g segments). destruct g as [l|inner].
    + rewrite IH by (intros i Hi; apply H; by right). cbn [fst snd omap warningOf].
      by rewrite render_Literal, <- app_assoc.
    + unfold resolveTop. rewrite resolveSpan_unrecognized by (apply H; by left).
      rewrite IH by (intros i Hi; apply H; by right). cbn [fst snd omap warningOf].
      by rewrite render_Placeholder, <- !app_assoc.
Qed.

Lemma resolveField_settled (ps : list Provider) (maxDepth : nat) (permits : bool)
  (v : Value) :
  settled ps v → resolveField ps maxDepth permits v = (v, standing v).
Proof.
  destruct v as [s|json]; [|done]. cbn [settled standing]. intros H.
  unfold resolveField.
  pose proof (interpolate_settled ps maxDepth (scan s) [] [] H) as Hfold.
  rewrite scan_render in Hfold. cbn [app] in Hfold.
  destruct (scan s) as [|[l|inner] [|g segments]] eqn:E; destruct permits;
    try (by rewrite Hfold).
  rewrite resolveSpan_unrecognized; [done|]. apply H. by left.
Qed.

Lemma resolveOptional_settled (ps : list Provider) (maxDepth : nat) (v : option Value) :
  settledOptional ps v →
  resolveOptional ps maxDepth v = (v, standingOptional v).
Proof.
  destruct v as [x|]; [|done]. cbn. intros H. by rewrite resolveField_settled.
Qed.

Lemma resolveHeaders_settled (ps : list Provider) (maxDepth : nat)
  (hs : list (jsstring * Value)) :
  Forall (λ h, settled ps h.2) hs →
  resolveHeaders ps maxDepth hs = (hs, hs ≫= λ h, standing h.2).
Proof.
  unfold resolveHeaders. induction 1 as [|[k v] hs Hv Hhs IH]; [done|].
  cbn [foldr]. rewrite IH. cbn [fst snd] in *. by rewrite resolveField_settled.
Qed.

Lemma standing_warnings (v : Value) (o : ResolutionOutcome) :
  o ∈ standing v → problem o = UnresolvedVariableWarning.
Proof.
  destruct v as [s|json]; cbn [standing]; [|by intros ?%elem_of_nil].
  intros (g & _ & Hg)%list_elem_of_omap. destruct g; [done|].
  by injection Hg as <-.
Qed.

(** C7.  A descriptor in which no placeholder is left that any provider
    recognizes is returned by resolve as it is; the outcomes are the
    unresolved-variable warnings of the placeholders that stand in it as
    literal text, one for each, and no error (none at all when no placeholder
    stands in it); and resolving the result again gives the same result and
    the same outcomes. *)
Theorem resolve_again_is_noop (ps : list Provider) (maxDepth : nat)
  (permitsNative : bool) (d : RequestDescriptor) :
  fullyResolved ps d →
  resolveDescriptor ps maxDepth permitsNative d = (d, standingIn d)
  ∧ (∀ o, o ∈ standingIn d → problem o = UnresolvedVariableWarning ∧ ¬ isError o)
  ∧ resolveDescriptor ps maxDepth permitsNative
      (resolveDescriptor ps maxDepth permitsNative d).1
    = resolveDescriptor ps maxDepth permitsNative d.
Proof.
  intros (Hm & Hu & Hh & Hb & Hn & Hp & Ht).
  assert (E : resolveDescriptor ps maxDepth permitsNative d = (d, standingIn d)).
  { unfold resolveDescriptor, standingIn.
    rewrite !resolveField_settled, resolveHeaders_settled,
      !resolveOptional_settled by done.
    assert (Eb : resolveBody ps maxDepth permitsNative (body d)
                 = (body d, match body d with
                            | Some (Content v) => standing v
                            | _ => []
                            end)).
    { unfold resolveBody. destruct (body d) as [[v|f]|]; [|done..].
      by rewrite resolveField_settled. }
    rewrite Eb. by destruct d. }
  split; [exact E|]. split; [|by rewrite E].
  assert (Hw : ∀ o, o ∈ standingIn d → problem o = UnresolvedVariableWarning).
  { intros o. unfold standingIn. rewrite !elem_of_app.
    intros [Ho|[Ho|[Ho|[Ho|[Ho|[Ho|Ho]]]]]];
      try (by eapply standing_warnings).
    - apply list_elem_of_bind in Ho as (h & Ho & _). by eapply standing_warnings.
    - destruct (body d) as [[v|f]|]; try (by apply elem_of_nil in Ho).
      by eapply standing_warnings.
    - destruct (requestName d); [by eapply standing_warnings | by apply elem_of_nil in Ho].
    - destruct (preRequestScript d); [by eapply standing_warnings | by apply elem_of_nil in Ho].
    - destruct (testScript d); [by eapply standing_warnings | by apply elem_of_nil in Ho]. }
  intros o Ho. split; [by apply Hw|]. unfold isError. rewrite (Hw o Ho). by intros [].
Qed.

(** *** Two variables that refer to each other *)

Lemma cut_absent (c : N) (s : jsstring) : c ∉ s → cut c s = (s, None).
Proof.
  induction s as [|x s IH]; [done|]. intros [Hx Hs]%not_elem_of_cons.
  cbn [cut]. rewrite (proj2 (N.eqb_neq x c)) by congruence. by rewrite IH.
Qed.

Lemma trimStart_id (s : jsstring) :
  Forall (λ c, isWhiteSpace c = false) s → trimStart s = s.
Proof. destruct 1 as [|c s Hc _]; [done|]. cbn. by rewrite Hc. Qed.

Lemma trim_id (s : jsstring) :
  Forall (λ c, isWhiteSpace c = false) s → trim s = s.
Proof.
  intros H. unfold trim. rewrite (trimStart_id s H).
  rewrite trimStart_id by by apply Forall_reverse. apply reverse_involutive.
Qed.

Lemma plainName_chars (a : jsstring) :
  plainName a →
(124 ∉ a) ∧ (46 ∉ a) ∧ Forall (λ c, isWhiteSpace c = false) a
  ∧ Forall (λ c, c ≠ 123 ∧ c ≠ 125) a ∧ startsWith [36] a = false.
Proof.
  intros (Hne & Hhd & Hall). split; [|split; [|split; [|split]]].
  - intros Hin. rewrite Forall_forall in Hall. by destruct (Hall _ Hin) as (_ & _ & ? & _).
  - intros Hin. rewrite Forall_forall in Hall. by destruct (Hall _ Hin) as (_ & _ & _ & ? & _).
  - eapply Forall_impl; [done|]. by intros c (_ & _ & _ & _ & ?).
  - eapply Forall_impl; [done|]. by intros c (? & ? & _).
  - destruct a as [|c a]; [done|]. cbn [startsWith]. rewrite andb_true_r.
    apply N.eqb_neq. intros <-. by apply Hhd.
Qed.

Lemma parseSpan_plain (a : jsstring) :
  plainName a →
  parseSpan a = {| variableName := a; path := None; arguments := []; fallback := None |}.
Proof.
  intros (Hbar & Hdot & Hws & _ & Hdollar)%plainName_chars.
  unfold parseSpan. rewrite (cut_absent 124) by done.
  rewrite trim_id by done. rewrite Hdollar. by rewrite (cut_absent 46).
Qed.

Lemma scanFrom_inside (a acc : jsstring) :
  Forall (λ c, c ≠ 123 ∧ c ≠ 125) a →
  scanFrom (Inside [] false acc) (a ++ [125; 125]) = [Placeholder (acc ++ a)].
Proof.
  intros H. revert acc. induction H as [|c a [Ho Hc] _ IH]; intros acc.
  - cbn. by rewrite app_nil_r.
  - replace (acc ++ c :: a) with ((acc ++ [c]) ++ a) by by rewrite <- app_assoc.
    rewrite <- IH. cbn [app scanFrom].
    rewrite (proj2 (N.eqb_neq c 123)), (proj2 (N.eqb_neq c 125)) by done.
    cbn [andb]. by destruct (a ++ [125; 125]).
Qed.

Lemma scan_rawToken (a : jsstring) :
  Forall (λ c, c ≠ 123 ∧ c ≠ 125) a → scan (rawToken a) = [Placeholder a].
Proof.
  intros H. unfold scan, rawToken. cbn [app scanFrom N.eqb Pos.eqb andb].
  by rewrite scanFrom_inside.
Qed.

Lemma resolveSpan_revisited (ps : list Provider) (depth : nat)
  (chain : list jsstring) (inner : jsstring) :
  variableName (parseSpan inner) ∈ chain →
  resolveSpan ps depth chain inner
  = Failed {| name := default (variableName (parseSpan inner)) (head chain);
              problem := CircularVariableReference
                           (chain ++ [variableName (parseSpan inner)]) |}.
Proof.
  intros H. destruct depth; cbn [resolveSpan]; by rewrite bool_decide_eq_true_2.
Qed.

Lemma resolveSpan_found (ps : list Provider) (depth : nat) (chain : list jsstring)
  (inner : jsstring) (p : Provider) (s : jsstring) :
  variableName (parseSpan inner) ∉ chain →
  find (λ p, canResolve p (parseSpan inner)) ps = Some p →
  resolve p (parseSpan inner) = Found (Text s) →
  resolveSpan ps (S depth) chain inner
  = resolveAgain
      (Some (resolveSpan ps depth (chain ++ [variableName (parseSpan inner)]))) s.
Proof.
  intros Hc Hf Hr. cbn [resolveSpan].
  by rewrite bool_decide_eq_false_2, Hf, Hr.
Qed.

Section MutualReference.
Variable builtin : jsstring → list jsstring → Lookup.
Variable cacheSnapshot : gmap (TextDocument * jsstring) HttpResponse.
Variable document : TextDocument.
Variable extract : HttpResponse → jsstring → Lookup.
Variables fileScoped environment processEnv : gmap jsstring jsstring.

#[local] Abbreviation providers :=
  (providersOf builtin cacheSnapshot document extract fileScoped environment
     processEnv).

Lemma find_fileScoped (a v : jsstring) :
  plainName a → fileScoped !! a = Some v →
  find (λ p, canResolve p (parseSpan a)) providers = Some (mapping fileScoped)
  ∧ resolve (mapping fileScoped) (parseSpan a) = Found (Text v).
Proof.
  intros Ha Hv. rewrite (parseSpan_plain a Ha).
  destruct (plainName_chars a Ha) as (_ & _ & _ & _ & Hd).
  unfold providersOf. cbn -[startsWith bool_decide]. rewrite Hd, Hv.
  rewrite bool_decide_eq_true_2 by eauto. done.
Qed.

(** C6.  Whatever the other providers hold and whatever the built-ins do:
    when the file-scoped variables define a as the placeholder of b and b as
    the placeholder of a, for two different plain names, and the maximum depth
    allows two further levels, the resolution of the span of a ends, with the
    error CircularVariableReference and the chain a, b, a; the field that
    consists of that span keeps its text and gets that one error. *)
Theorem mutual_reference_is_circular (a b : jsstring) (maxDepth : nat)
  (permitsNative : bool) :
  plainName a → plainName b → a ≠ b →
  fileScoped !! a = Some (rawToken b) → fileScoped !! b = Some (rawToken a) →
  (2 ≤ maxDepth)%nat →
  resolveSpan providers maxDepth [] a
  = Failed {| name := a; problem := CircularVariableReference [a; b; a] |}
  ∧ resolveField providers maxDepth permitsNative (Text (rawToken a))
    = (Text (rawToken a),
       [{| name := a; problem := CircularVariableReference [a; b; a] |}]).
Proof.
  intros Ha Hb Hab Hva Hvb Hdepth.
  set (ps := providers).
  destruct (find_fileScoped a _ Ha Hva) as [Hfa Hra].
  destruct (find_fileScoped b _ Hb Hvb) as [Hfb Hrb].
  pose proof (parseSpan_plain a Ha) as Epa. pose proof (parseSpan_plain b Hb) as Epb.
  destruct (plainName_chars a Ha) as (_ & _ & _ & Hba & _).
  destruct (plainName_chars b Hb) as (_ & _ & _ & Hbb & _).
  destruct maxDepth as [|[|depth]]; [lia..|].
  assert (Espan : resolveSpan ps (S (S depth)) [] a
            = Failed {| name := a; problem := CircularVariableReference [a; b; a] |}).
  { rewrite (resolveSpan_found ps (S depth) [] a (mapping fileScoped) (rawToken b));
      [|apply not_elem_of_nil|exact Hfa|exact Hra].
    unfold resolveAgain. rewrite (scan_rawToken b Hbb). cbn [foldl resolveSegment].
    rewrite Epa. cbn [variableName app].
    rewrite (resolveSpan_found ps depth [a] b (mapping fileScoped) (rawToken a));
      [| |exact Hfb|exact Hrb].
    2:{ rewrite Epb. cbn. rewrite list_elem_of_singleton. congruence. }
    unfold resolveAgain. rewrite (scan_rawToken a Hba). cbn [foldl resolveSegment].
    rewrite Epb. cbn [variableName app].
    rewrite resolveSpan_revisited; [|rewrite Epa; cbn; by left].
    by rewrite Epa. }
  split; [exact Espan|].
  unfold resolveField. rewrite (scan_rawToken a Hba).
  destruct permitsNative.
  - by rewrite Espan.
  - cbn [foldl]. unfold resolveTop. rewrite Espan. done.
Qed.
End MutualReference.

(** *** The theorems at the example data *)

Lemma a_plainName : plainName (lit "a").
Proof.
  split; [done|]. split; [done|].
  repeat constructor; (done || by apply N.eqb_neq).
Qed.

Lemma b_plainName : plainName (lit "b").
Proof.
  split; [done|]. split; [done|].
  repeat constructor; (done || by apply N.eqb_neq).
Qed.

Lemma mutual_reference_is_circular_witness :
  resolveField
    (providersOf (λ _ _, NotFound) ∅ [] (λ _ _, NotFound) circularVariables ∅ ∅)
    2 false (Text (lit "{{a}}"))
  = (Text (lit "{{a}}"),
     [{| name := lit "a";
         problem := CircularVariableReference [lit "a"; lit "b"; lit "a"] |}]).
Proof.
  refine (proj2 (mutual_reference_is_circular (λ _ _, NotFound) ∅ []
                   (λ _ _, NotFound) circularVariables ∅ ∅ (lit "a") (lit "b")
                   2 false a_plainName b_plainName _ _ _ _)).
  - discriminate.
  - vm_compute. reflexivity.
  - vm_compute. reflexivity.
  - lia.
Defined.

Lemma resolved0_fullyResolved : fullyResolved providers0 resolved0.
Proof.
  assert (H : ∀ s segments, scan s = segments →
            Forall (λ g, match g with
                         | Placeholder inner => unrecognized providers0 inner
                         | Literal _ => True
                         end) segments →
            settled providers0 (Text s)).
  { intros s segments <- Hall inner Hin.
    rewrite Forall_forall in Hall. exact (Hall _ Hin). }
  repeat split; try done.
  - eapply H; [vm_compute; reflexivity|]. by repeat constructor.
  - eapply H; [vm_compute; reflexivity|]. by repeat constructor.
  - repeat constructor. eapply H; [vm_compute; reflexivity|]. by repeat constructor.
  - eapply H; [vm_compute; reflexivity|]. by repeat constructor.
Qed.

Lemma resolve_again_is_noop_witness :
  resolveDescriptor providers0 4 false resolved0 = (resolved0, standingIn resolved0).
Proof.
  exact (proj1 (resolve_again_is_noop providers0 4 false resolved0
                  resolved0_fullyResolved)).
Defined.

End ResolverProofs.

(** ** The page: replace, cleanLineBreaks and addUrlLinks *)

Section ReplaceProofs.
Import JsString.
Context {St : Type}.
Variable matchAt : jsstring → option nat.
Variable replacer : St → jsstring → St * jsstring.

(** When the function gives back every match it is asked about, [replace]
    gives back the text. *)
Lemma replaceFrom_id (I : St → Prop) (R : jsstring → Prop) :
  (∀ c s, R (c :: s) → R s) →
  (∀ st s n, I st → R s → matchAt s = Some (S n) →
     I (replacer st (take (S n) s)).1
     ∧ (replacer st (take (S n) s)).2 = take (S n) s) →
  ∀ s st skip, I st → R s → replaceFrom matchAt replacer st skip s = drop skip s.
Proof.
  intros Htail Hrep s. induction s as [|c s IH]; intros st skip Hst Hs.
  - by destruct skip.
  - cbn [replaceFrom]. destruct skip as [|k]; [|apply IH; eauto].
    destruct (matchAt (c :: s)) as [[|n]|] eqn:Em.
    + rewrite IH by eauto. done.
    + destruct (Hrep st (c :: s) n Hst Hs Em) as [Hst' Hout].
      destruct (replacer st (take (S n) (c :: s))) as [st' out]. cbn in *.
      subst out. rewrite IH by eauto. cbn. by rewrite take_drop.
    + rewrite IH by eauto. done.
Qed.

(** When what the function returns for a match holds the match, the result
    of [replace] holds the text. *)
Lemma replaceFrom_sublist :
  (∀ st m, m `sublist_of` (replacer st m).2) →
  ∀ s st skip, drop skip s `sublist_of` replaceFrom matchAt replacer st skip s.
Proof.
  intros Hrep s. induction s as [|c s IH]; intros st skip.
  - by destruct skip.
  - cbn [replaceFrom]. destruct skip as [|k]; [|apply IH].
    destruct (matchAt (c :: s)) as [[|n]|] eqn:Em.
    + cbn. constructor. apply (IH st 0%nat).
    + pose proof (Hrep st (take (S n) (c :: s))) as Hout.
      destruct (replacer st (take (S n) (c :: s))) as [st' out]. cbn [snd] in Hout.
      cbn [drop]. rewrite <- (take_drop (S n) (c :: s)).
      apply sublist_app; [exact Hout|]. cbn. apply IH.
    + cbn. constructor. apply (IH st 0%nat).
Qed.

(** When what the function returns for a match has the code units of a kind
    that the match has, so has the result of [replace]. *)
Lemma replaceFrom_filter (P : N → Prop) `{!∀ c, Decision (P c)} (I : St → Prop) :
  (∀ st m, I st →
     I (replacer st m).1 ∧ filter P (replacer st m).2 = filter P m) →
  ∀ s st skip, I st →
    filter P (replaceFrom matchAt replacer st skip s) = filter P (drop skip s).
Proof.
  intros Hrep s. induction s as [|c s IH]; intros st skip Hst.
  - by destruct skip.
  - cbn [replaceFrom]. destruct skip as [|k]; [|by apply IH].
    destruct (matchAt (c :: s)) as [[|n]|] eqn:Em.
    + cbn [drop]. rewrite !filter_cons, (IH st 0%nat) by done. done.
    + destruct (Hrep st (take (S n) (c :: s)) Hst) as [Hst' Hout].
      destruct (replacer st (take (S n) (c :: s))) as [st' out]. cbn [fst snd] in *.
      rewrite filter_app, Hout, IH by done.
      rewrite <- filter_app. cbn [drop]. f_equal.
      change (take (S n) (c :: s) ++ drop n s) with
        (take (S n) (c :: s) ++ drop (S n) (c :: s)).
      by rewrite take_drop.
    + cbn [drop]. rewrite !filter_cons, (IH st 0%nat) by done. done.
Qed.
End ReplaceProofs.

Section HtmlProofs.
Import JsString ResponseHtml.

(** *** cleanLineBreaks *)

Lemma eatChar_Some (ic : bool) (p : N) (s rest : jsstring) :
  eatChar ic p s = Some rest → ∃ c, s = c :: rest ∧ atomMatches ic (Char p) c = true.
Proof.
  destruct s as [|c s]; [done|]. unfold eatChar.
  destruct (atomMatches ic (Char p) c) eqn:E; [|done]. intros [= <-]. by exists c.
Qed.

Lemma eatChar_same (p : N) (s : jsstring) : eatChar true p (p :: s) = Some s.
Proof. unfold eatChar, atomMatches. by rewrite N.eqb_refl. Qed.

Lemma eatLit_same (p s : jsstring) : eatLit true p (p ++ s) = Some s.
Proof.
  induction p as [|x p IH]; [done|]. cbn [app eatLit]. by rewrite eatChar_same.
Qed.

(** A pattern character that is not a letter matches itself only. *)
Lemma atomMatches_other (p c : N) :
  p < 65 → atomMatches true (Char p) c = true → c = p.
Proof.
  intros Hp. cbn. intros Hc%N.eqb_eq. unfold canonicalize in Hc.
  destruct ((97 <=? p) && (p <=? 122)) eqn:Hq.
  { apply andb_true_iff in Hq as [?%N.leb_le _]. lia. }
  destruct ((97 <=? c) && (c <=? 122)) eqn:Hr; [|done].
  apply andb_true_iff in Hr as [?%N.leb_le ?%N.leb_le]. lia.
Qed.

Lemma spanTag_Some (s : jsstring) (n : nat) :
  spanTag s = Some n → ∃ s', s = 60 :: s'.
Proof.
  unfold spanTag. destruct (eatChar true 60 s) as [s1|] eqn:E; [|done].
  apply eatChar_Some in E as (c & -> & Hc). intros _. exists s1.
  by apply atomMatches_other in Hc as ->.
Qed.

Lemma lineBreak_Some (s : jsstring) (n : nat) :
  lineBreak s = Some n → ∃ c s', s = c :: s' ∧ isLineBreak c = true.
Proof.
  destruct s as [|c s]; [done|]. cbn. unfold isLineBreak.
  destruct (c =? 13) eqn:E13.
  { intros _. exists c, s. by rewrite E13. }
  destruct (c =? 10) eqn:E10; [|done]. intros _. exists c, s. by rewrite E13, E10.
Qed.

Lemma hasLineBreak_false (m : jsstring) :
  hasLineBreak m = false ↔ Forall (λ c, isLineBreak c = false) m.
Proof.
  unfold hasLineBreak. induction m as [|c m IH]; cbn.
  - split; [constructor|done].
  - rewrite orb_false_iff, IH, Forall_cons. done.
Qed.

Lemma filter_no_lineBreak (m : jsstring) :
  hasLineBreak m = false → filter (λ c, isLineBreak c = true) m = [].
Proof.
  intros H%hasLineBreak_false. induction H as [|c m Hc _ IH]; [done|].
  rewrite filter_cons, decide_False by congruence. done.
Qed.

Lemma Forall_removelast {A} (P : A → Prop) (l : list A) :
  Forall P l → Forall P (removelast l).
Proof.
  induction 1 as [|x l Hx Hl IH]; [constructor|]. cbn.
  destruct l; [constructor|]. by constructor.
Qed.

(** X3.  cleanLineBreaks returns the code as it is when the code has no
    line break, and when it has no [<], so no span. *)
Theorem cleanLineBreaks_unchanged (code : jsstring) :
  Forall (λ c, isLineBreak c = false) code ∨ 60 ∉ code →
  cleanLineBreaks code = code.
Proof.
  unfold cleanLineBreaks. intros [Hcode|Hcode].
  - refine (replaceFrom_id matcher onMatch (λ _, True)
              (Forall (λ c, isLineBreak c = false)) _ _ code [] 0%nat I Hcode).
    + intros c s H. by apply Forall_cons in H as [_ ?].
    + intros st s n _ Hs _. split; [done|]. unfold onMatch.
      rewrite (proj2 (hasLineBreak_false _) (Forall_take _ _ _ Hs)).
      by destruct (hasPrefix (lit "</") (take (S n) s)).
  - refine (replaceFrom_id matcher onMatch (λ st, st = []) (λ s, 60 ∉ s)
              _ _ code [] 0%nat eq_refl Hcode).
    + intros c s H Hin. apply H. by right.
    + intros st s n -> Hs Hm. unfold matcher in Hm.
      destruct (spanTag s) as [k|] eqn:Et.
      { apply spanTag_Some in Et as [s' ->]. exfalso. apply Hs. by left. }
      apply lineBreak_Some in Hm as (c & s' & -> & Hc).
      unfold onMatch, hasLineBreak. cbn [take existsb]. by rewrite Hc.
Qed.

Lemma cleanLineBreaks_unchanged_witness :
  cleanLineBreaks (lit "<span>a</span>") = lit "<span>a</span>".
Proof.
  apply cleanLineBreaks_unchanged. left. by repeat constructor.
Defined.

(** X4.  cleanLineBreaks only inserts: the code is a subsequence of the
    result, and the result has the line-break code units of the code, in their
    order, and no others. *)
Theorem cleanLineBreaks_keeps_text (code : jsstring) :
  code `sublist_of` cleanLineBreaks code
  ∧ filter (λ c, isLineBreak c = true) (cleanLineBreaks code)
    = filter (λ c, isLineBreak c = true) code.
Proof.
  unfold cleanLineBreaks. split.
  - apply (replaceFrom_sublist matcher onMatch) with (skip := 0%nat).
    intros st m. unfold onMatch. destruct (hasLineBreak m).
    + destruct st; [done|]. cbn [snd]. apply sublist_inserts_l, sublist_inserts_r. done.
    + by destruct (hasPrefix (lit "</") m).
  - apply (replaceFrom_filter matcher onMatch (λ c, isLineBreak c = true)
             (Forall (λ x, hasLineBreak x = false))) with (skip := 0%nat);
      [|constructor].
    intros st m Hst. unfold onMatch. destruct (hasLineBreak m) eqn:Hm.
    + split; [done|]. destruct st as [|x st]; [done|]. cbn [snd].
      rewrite !filter_app.
      assert (E1 : ∀ l : list jsstring,
                filter (λ c, isLineBreak c = true)
                  (concat ((λ _, lit "</span>") <$> l)) = []).
      { induction l as [|y l IH]; [done|]. cbn [fmap list_fmap concat].
        rewrite filter_app. fold (@fmap list _ _ _ (λ _ : jsstring, lit "</span>") l).
        by rewrite IH. }
      assert (E2 : ∀ l : list jsstring, Forall (λ x, hasLineBreak x = false) l →
                filter (λ c, isLineBreak c = true) (concat l) = []).
      { induction 1 as [|y l Hy _ IH]; [done|]. cbn [concat].
        by rewrite filter_app, IH, filter_no_lineBreak. }
      by rewrite E1, E2, app_nil_r.
    + destruct (hasPrefix (lit "</") m); cbn [fst snd].
      * split; [by apply Forall_removelast|done].
      * split; [|done]. apply Forall_app. split; [done|]. by constructor.
Qed.

Lemma eatLit_colon (s rest : jsstring) :
  eatLit true (lit "://") s = Some rest → ∃ s', s = 58 :: s'.
Proof.
  cbn [lit list_ascii_of_string List.map eatLit].
  destruct (eatChar true _ s) as [s1|] eqn:E; [|done]. intros _.
  apply eatChar_Some in E as (c & -> & Hc).
  apply atomMatches_other in Hc; [|done]. exists s1. by rewrite Hc.
Qed.

Lemma afterScheme_colon (s : jsstring) (n : nat) :
  afterScheme s = Some n → 58 ∈ s.
Proof.
  unfold afterScheme. destruct (eatLit true (lit "://") s) as [s'|] eqn:E; [|done].
  apply eatLit_colon in E as [s'' ->]. intros _. by left.
Qed.

Lemma urlRegex_colon (s : jsstring) (n : nat) : urlRegex s = Some n → 58 ∈ s.
Proof.
  unfold urlRegex. cbn [lit list_ascii_of_string List.map eatLit].
  destruct (eatChar true _ s) as [s1|] eqn:E1; [|done].
  apply eatChar_Some in E1 as (c1 & -> & _). cbn [mbind option_bind].
  destruct (eatChar true _ s1) as [s2|] eqn:E2; [|done].
  apply eatChar_Some in E2 as (c2 & -> & _). cbn [mbind option_bind].
  destruct (eatChar true _ s2) as [s3|] eqn:E3; [|done].
  apply eatChar_Some in E3 as (c3 & -> & _). cbn [mbind option_bind].
  destruct (eatChar true _ s3) as [s4|] eqn:E4; [|done].
  apply eatChar_Some in E4 as (c4 & -> & _). cbn [mbind option_bind].
  intros H. do 4 right.
  destruct (eatChar true 115 s4) as [s5|] eqn:E5; cbn [mbind option_bind] in H.
  - apply eatChar_Some in E5 as (c5 & -> & _).
    destruct (afterScheme s5) as [k|] eqn:E6.
    + right. by eapply afterScheme_colon.
    + destruct (afterScheme (c5 :: s5)) as [k|] eqn:E7; [|done].
      by eapply afterScheme_colon.
  - destruct (afterScheme s4) as [k|] eqn:E7; [|done]. by eapply afterScheme_colon.
Qed.

(** X9.  addUrlLinks only inserts: the text is a subsequence of the result;
    and a text without a colon has no URL and is returned as it is. *)
Theorem addUrlLinks_keeps_text (innerHtml : jsstring) :
  innerHtml `sublist_of` addUrlLinks innerHtml
  ∧ (58 ∉ innerHtml → addUrlLinks innerHtml = innerHtml).
Proof.
  unfold addUrlLinks. split.
  - apply (replaceFrom_sublist urlRegex (λ (_ : unit) m, ((), link m)))
      with (skip := 0%nat).
    intros _ m. cbn [snd]. unfold link.
    rewrite <- (take_drop (urlEndPosition m) m) at 1.
    do 2 apply sublist_inserts_l. apply sublist_app; [done|].
    do 12 apply sublist_inserts_l. done.
  - intros Hc.
    refine (replaceFrom_id urlRegex (λ (_ : unit) m, ((), link m)) (λ _, True)
              (λ s, 58 ∉ s) _ _ innerHtml () 0%nat I Hc).
    + intros c s H Hin. apply H. by right.
    + intros st s n _ Hs Hm. by apply urlRegex_colon in Hm.
Qed.

(** *** addUrlLinks *)

Lemma hasPrefix_app (p s : jsstring) : hasPrefix p s = true ↔ ∃ r, s = p ++ r.
Proof.
  revert s. induction p as [|a p IH]; intros s; cbn.
  - split; [by exists s|done].
  - destruct s as [|b s].
    + split; [done|]. by intros [r ?].
    + rewrite andb_true_iff, N.eqb_eq, IH. split.
      * intros [-> [r ->]]. by exists r.
      * intros [r [= -> ->]]. split; [done|by exists r].
Qed.

Lemma indexOf_Some (p s : jsstring) (i : nat) :
  indexOf p s = Some i →
  hasPrefix p (drop i s) = true
  ∧ ∀ j, (j < i)%nat → hasPrefix p (drop j s) = false.
Proof.
  revert i. induction s as [|c s IH]; intros i; cbn [indexOf].
  - destruct (hasPrefix p []) eqn:Hp; [|done]. intros [= <-]. split; [done|lia].
  - destruct (hasPrefix p (c :: s)) eqn:Hp.
    + intros [= <-]. split; [done|lia].
    + destruct (indexOf p s) as [k|]; [|done]. intros [= <-].
      destruct (IH k eq_refl) as [H1 H2]. split; [done|].
      intros [|j] Hj; [done|]. cbn. apply H2. lia.
Qed.

Lemma indexOf_None (p s : jsstring) (j : nat) :
  indexOf p s = None → hasPrefix p (drop j s) = false.
Proof.
  revert j. induction s as [|c s IH]; intros j; cbn [indexOf].
  - destruct (hasPrefix p []) eqn:Hp; [done|]. intros _. by destruct j.
  - destruct (hasPrefix p (c :: s)) eqn:Hp; [done|].
    destruct (indexOf p s) as [k|] eqn:Ek; [done|]. intros _.
    destruct j as [|j]; [done|]. cbn. by apply IH.
Qed.

Lemma indexOf_is_None (p s : jsstring) :
  (∀ j, hasPrefix p (drop j s) = false) → indexOf p s = None.
Proof.
  intros H. destruct (indexOf p s) as [i|] eqn:E; [|done].
  apply indexOf_Some in E as [E _]. by rewrite H in E.
Qed.

(** An occurrence in the first [k] code units is an occurrence in the text,
    and it ends within them. *)
Lemma hasPrefix_take (p s : jsstring) (j k : nat) :
  p ≠ [] → hasPrefix p (drop j (take k s)) = true →
  hasPrefix p (drop j s) = true ∧ (j + length p ≤ k)%nat.
Proof.
  intros Hp [r E]%hasPrefix_app.
  assert (Hlen : (j + length p ≤ length (take k s))%nat).
  { apply (f_equal length) in E. rewrite length_drop, length_app in E.
    destruct p; [done|]. cbn in *. lia. }
  split; [|rewrite length_take in Hlen; lia].
  apply hasPrefix_app. exists (r ++ drop k s).
  rewrite <- (take_drop k s) at 1. rewrite drop_app_le by lia.
  by rewrite E, <- app_assoc.
Qed.

Lemma urlEndPosition_spec (m : jsstring) :
  (urlEndPosition m ≤ length m)%nat
  ∧ (∀ char i, char ∈ encodedEndCharacters → indexOf char m = Some i →
       (urlEndPosition m ≤ i)%nat)
  ∧ (urlEndPosition m = length m
     ∨ ∃ char, char ∈ encodedEndCharacters
               ∧ indexOf char m = Some (urlEndPosition m)).
Proof.
  unfold urlEndPosition.
  generalize encodedEndCharacters as chars. intros chars.
  induction chars as [|char chars IH] using rev_ind; [cbn; split; [lia|split; [|by left]]|].
  { by intros ? ? ?%elem_of_nil. }
  rewrite foldl_app. cbn [foldl].
  destruct IH as (Hle & Hmin & Hat).
  assert (Hsnoc : ∀ c, c ∈ chars ++ [char] → c ∈ chars ∨ c = char).
  { intros c [Hc|Hc]%elem_of_app; [by left|].
    apply list_elem_of_singleton in Hc. by right. }
  set (position := foldl _ (length m) chars) in *.
  destruct (indexOf char m) as [index|] eqn:Ei.
  - destruct (Nat.ltb_spec index position) as [Hlt|Hge].
    + split; [lia|]. split.
      * intros c i [Hc| ->]%Hsnoc Hi.
        -- specialize (Hmin c i Hc Hi). lia.
        -- rewrite Ei in Hi. injection Hi as <-. lia.
      * right. exists char. split; [apply elem_of_app; right; by left|done].
    + split; [done|]. split.
      * intros c i [Hc| ->]%Hsnoc Hi; [by eapply Hmin|].
        rewrite Ei in Hi. injection Hi as <-. lia.
      * destruct Hat as [Hat|(c & Hc & Hat)]; [by left|].
        right. exists c. split; [apply elem_of_app; by left|done].
  - split; [done|]. split.
    + intros c i [Hc| ->]%Hsnoc Hi; [by eapply Hmin|].
      by rewrite Ei in Hi.
    + destruct Hat as [Hat|(c & Hc & Hat)]; [by left|].
      right. exists c. split; [apply elem_of_app; by left|done].
Qed.

(** X8.  The function addUrlLinks gives to replace cuts a match into the
    URL and the rest: the URL is what stands before the first of the encoded
    end characters (it holds none of them), the rest is empty or begins with
    one of them, and the link holds the URL as target and as text, followed by
    the rest. *)
Theorem link_stops_at_encoded_character (m : jsstring) :
  ∃ url extraCharacters,
    m = url ++ extraCharacters
    ∧ link m
      = lit "<a href=" ++ [34] ++ url ++ [34] ++ lit " target=" ++ [34]
        ++ lit "_blank" ++ [34] ++ lit " rel=" ++ [34]
        ++ lit "noopener noreferrer" ++ [34] ++ lit ">" ++ url ++ lit "</a>"
        ++ extraCharacters
    ∧ (∀ char, char ∈ encodedEndCharacters → indexOf char url = None)
    ∧ (extraCharacters = []
       ∨ ∃ char, char ∈ encodedEndCharacters
                 ∧ hasPrefix char extraCharacters = true).
Proof.
  destruct (urlEndPosition_spec m) as (Hle & Hmin & Hat).
  exists (take (urlEndPosition m) m), (drop (urlEndPosition m) m).
  split; [by rewrite take_drop|]. split; [done|]. split.
  - intros char Hchar. apply indexOf_is_None. intros j.
    destruct (hasPrefix char (drop j (take (urlEndPosition m) m))) eqn:Hp; [|done].
    assert (Hne : char ≠ []).
    { unfold encodedEndCharacters in Hchar.
      repeat (apply elem_of_cons in Hchar as [->|Hchar]; [done|]).
      by apply elem_of_nil in Hchar. }
    apply hasPrefix_take in Hp as [Hp Hj]; [|done].
    assert (Hlen : (0 < length char)%nat) by (destruct char; [done|cbn; lia]).
    destruct (indexOf char m) as [i|] eqn:Ei.
    + apply indexOf_Some in Ei as Hi. destruct Hi as [_ Hi].
      specialize (Hmin char i Hchar Ei). rewrite Hi in Hp by lia. done.
    + by rewrite (indexOf_None _ _ j Ei) in Hp.
  - destruct Hat as [Hat|(char & Hchar & Hat)].
    + left. rewrite Hat. apply drop_all.
    + right. exists char. split; [done|]. by apply indexOf_Some in Hat as [? _].
Qed.

Lemma urlRun_app (run rest : jsstring) :
  Forall (λ c, isUrlChar c = true) run →
  (∀ c, head rest = Some c → isUrlChar c = false) →
  urlRun (run ++ rest) = length run.
Proof.
  intros Hrun Hrest. induction Hrun as [|c run Hc _ IH].
  - destruct rest as [|c rest]; [done|]. cbn. by rewrite (Hrest c).
  - cbn. by rewrite Hc, IH.
Qed.

Lemma urlRun_split (s : jsstring) :
  Forall (λ c, isUrlChar c = true) (take (urlRun s) s)
  ∧ (∀ c, head (drop (urlRun s) s) = Some c → isUrlChar c = false)
  ∧ length (take (urlRun s) s) = urlRun s.
Proof.
  induction s as [|c s IH]; [by repeat split|]. cbn [urlRun].
  destruct (isUrlChar c) eqn:Hc.
  - destruct IH as (H1 & H2 & H3). cbn. split; [by constructor|]. split; [done|].
    by rewrite H3.
  - cbn. split; [constructor|]. split; [by intros ? [= <-]|done].
Qed.

Lemma afterScheme_spec (s : jsstring) (n : nat) :
  afterScheme s = Some n
  ↔ ∃ run rest,
      s = 58 :: 47 :: 47 :: run ++ rest
      ∧ run ≠ [] ∧ Forall (λ c, isUrlChar c = true) run
      ∧ (∀ c, head rest = Some c → isUrlChar c = false)
      ∧ n = (3 + length run)%nat.
Proof.
  unfold afterScheme. cbn [lit list_ascii_of_string List.map eatLit]. split.
  - destruct (eatChar true _ s) as [s1|] eqn:E1; [|done].
    apply eatChar_Some in E1 as (c1 & -> & ->%atomMatches_other); [|done].
    cbn [mbind option_bind].
    destruct (eatChar true _ s1) as [s2|] eqn:E2; [|done].
    apply eatChar_Some in E2 as (c2 & -> & ->%atomMatches_other); [|done].
    cbn [mbind option_bind].
    destruct (eatChar true _ s2) as [s3|] eqn:E3; [|done].
    apply eatChar_Some in E3 as (c3 & -> & ->%atomMatches_other); [|done].
    cbn [mbind option_bind].
    destruct (urlRun_split s3) as (H1 & H2 & H3).
    destruct (urlRun s3) as [|m] eqn:Er; [done|]. intros [= <-].
    exists (take (S m) s3), (drop (S m) s3).
    split; [by rewrite take_drop|]. split; [by destruct s3|].
    split; [done|]. split; [done|]. by rewrite H3.
  - intros (run & rest & -> & Hne & Hrun & Hrest & ->).
    repeat (rewrite eatChar_same; cbn [mbind option_bind]).
    rewrite urlRun_app by done.
    destruct run; [done|]. done.
Qed.

(** X7.  urlRegex matches at the start of a text exactly when the text
    begins with the letters h, t, t, p in either case, an optional s in either
    case, a colon and two slashes, and then at least one code unit other than
    white space, the two quotes, the angle brackets, the closing square
    bracket, the closing parenthesis and the backslash; the match takes all
    such code units that follow. *)
Theorem urlRegex_spec (s : jsstring) (n : nat) :
  urlRegex s = Some n
  ↔ ∃ h t1 t2 p secure run rest,
      s = h :: t1 :: t2 :: p :: secure ++ 58 :: 47 :: 47 :: run ++ rest
      ∧ (h = 104 ∨ h = 72) ∧ (t1 = 116 ∨ t1 = 84) ∧ (t2 = 116 ∨ t2 = 84)
      ∧ (p = 112 ∨ p = 80)
      ∧ (secure = [] ∨ secure = [115] ∨ secure = [83])
      ∧ run ≠ [] ∧ Forall (λ c, isUrlChar c = true) run
      ∧ (∀ c, head rest = Some c → isUrlChar c = false)
      ∧ n = (7 + length secure + length run)%nat.
Proof.
  unfold urlRegex. cbn [lit list_ascii_of_string List.map eatLit]. split.
  - destruct (eatChar true _ s) as [s1|] eqn:E1; [|done].
    apply eatChar_Some in E1 as (h & -> & Hh%atomMatches_letter); [|done].
    cbn [mbind option_bind].
    destruct (eatChar true _ s1) as [s2|] eqn:E2; [|done].
    apply eatChar_Some in E2 as (t1 & -> & Ht1%atomMatches_letter); [|done].
    cbn [mbind option_bind].
    destruct (eatChar true _ s2) as [s3|] eqn:E3; [|done].
    apply eatChar_Some in E3 as (t2 & -> & Ht2%atomMatches_letter); [|done].
    cbn [mbind option_bind].
    destruct (eatChar true _ s3) as [s4|] eqn:E4; [|done].
    apply eatChar_Some in E4 as (p & -> & Hp%atomMatches_letter); [|done].
    cbn [mbind option_bind].
    destruct (eatChar true 115 s4 ≫= afterScheme) as [k|] eqn:E5.
    + intros [= <-]. destruct (eatChar true 115 s4) as [s5|] eqn:E6; [|done].
      apply eatChar_Some in E6 as (c & -> & Hc%atomMatches_letter); [|done].
      cbn [mbind option_bind] in E5.
      apply afterScheme_spec in E5 as (run & rest & -> & Hne & Hrun & Hrest & ->).
      exists h, t1, t2, p, [c], run, rest. cbn in *.
      repeat (split; [done || (by destruct Hc as [-> | ->]; eauto)|]). lia.
    + intros Hk. destruct (afterScheme s4) as [k|] eqn:E6; [|done].
      injection Hk as <-.
      apply afterScheme_spec in E6 as (run & rest & -> & Hne & Hrun & Hrest & ->).
      exists h, t1, t2, p, [], run, rest. cbn in *.
      repeat (split; [done || eauto|]). lia.
  - intros (h & t1 & t2 & p & secure & run & rest & -> & Hh & Ht1 & Ht2 & Hp
            & Hsec & Hne & Hrun & Hrest & ->).
    assert (Hm : ∀ x lower, 97 <= lower <= 122 → x = lower ∨ x = lower - 32 →
              ∀ tl, eatChar true lower (x :: tl) = Some tl).
    { intros x lower Hl Hx tl. unfold eatChar.
      by rewrite (proj2 (atomMatches_letter x lower Hl) Hx). }
    rewrite (Hm h 104) by (done || lia). cbn [mbind option_bind].
    rewrite (Hm t1 116) by (done || lia). cbn [mbind option_bind].
    rewrite (Hm t2 116) by (done || lia). cbn [mbind option_bind].
    rewrite (Hm p 112) by (done || lia). cbn [mbind option_bind].
    assert (Ha : afterScheme (58 :: 47 :: 47 :: run ++ rest) = Some (3 + length run)%nat).
    { apply afterScheme_spec. by exists run, rest. }
    destruct Hsec as [->|[->| ->]]; cbn [app length].
    + assert (E : eatChar true 115 (58 :: 47 :: 47 :: run ++ rest) = None) by done.
      rewrite E. cbn [mbind option_bind]. rewrite Ha. cbn. f_equal; lia.
    + rewrite (Hm 115 115) by (done || lia || by left). cbn [mbind option_bind].
      rewrite Ha. f_equal; lia.
    + rewrite (Hm 83 115) by (done || lia || by right). cbn [mbind option_bind].
      rewrite Ha. f_equal; lia.
Qed.
End HtmlProofs.

(** ** cleanLineBreaks on highlighted code *)

Section HighlightedProofs.
Import JsString ResponseHtml Highlighted.

Lemma replaceFrom_skip {St} matchAt (replacer : St → jsstring → St * jsstring)
  (st : St) (x rest : jsstring) :
  replaceFrom matchAt replacer st (length x) (x ++ rest)
  = replaceFrom matchAt replacer st 0 rest.
Proof. induction x as [|c x IH]; [done|]. exact IH. Qed.

(** A match at the start of the text is replaced, and the search goes on
    behind it. *)
Lemma replaceFrom_found {St} matchAt (replacer : St → jsstring → St * jsstring)
  (st : St) (m rest : jsstring) :
  m ≠ [] → matchAt (m ++ rest) = Some (length m) →
  replaceFrom matchAt replacer st 0 (m ++ rest)
  = (replacer st m).2 ++ replaceFrom matchAt replacer (replacer st m).1 0 rest.
Proof.
  destruct m as [|c m]; [done|]. intros _ E. cbn [app replaceFrom length] in *.
  rewrite E.
  change (take (S (length m)) (c :: m ++ rest)) with (c :: take (length m) (m ++ rest)).
  rewrite take_app_length. destruct (replacer st (c :: m)) as [st' out]. cbn [fst snd].
  by rewrite replaceFrom_skip.
Qed.

Lemma upToGt_attributes (attributes rest : jsstring) :
  Forall (λ c, c ≠ 62 ∧ isLineBreak c = false) attributes →
  upToGt (attributes ++ 62 :: rest) = Some (S (length attributes)).
Proof.
  induction 1 as [|c l [Hc _] _ IH]; [done|]. cbn [app upToGt length].
  rewrite (proj2 (N.eqb_neq c 62) Hc), IH. done.
Qed.

Lemma spanName_attributes (attributes rest : jsstring) :
  Forall (λ c, c ≠ 62 ∧ isLineBreak c = false) attributes →
  spanName (lit "span" ++ attributes ++ 62 :: rest) = Some (5 + length attributes)%nat.
Proof.
  intros H. unfold spanName. rewrite eatLit_same. cbn [mbind option_bind].
  by rewrite upToGt_attributes.
Qed.

Lemma matcher_open (attributes rest : jsstring) :
  Forall (λ c, c ≠ 62 ∧ isLineBreak c = false) attributes →
  matcher (openTag attributes ++ rest) = Some (length (openTag attributes)).
Proof.
  intros H.
  assert (E : openTag attributes ++ rest = 60 :: lit "span" ++ attributes ++ 62 :: rest).
  { unfold openTag. rewrite <- !app_assoc. done. }
  assert (El : length (openTag attributes) = (6 + length attributes)%nat).
  { unfold openTag. rewrite !length_app. cbn. lia. }
  rewrite E, El. unfold matcher, spanTag. rewrite eatChar_same. cbn [mbind option_bind].
  assert (Eslash : eatChar true 47 (lit "span" ++ attributes ++ 62 :: rest) = None) by done.
  rewrite Eslash. cbn [mbind option_bind]. by rewrite spanName_attributes.
Qed.

Lemma matcher_close (rest : jsstring) :
  matcher (lit "</span>" ++ rest) = Some (length (lit "</span>")).
Proof.
  assert (E : lit "</span>" ++ rest = 60 :: 47 :: lit "span" ++ [] ++ 62 :: rest) by done.
  rewrite E. unfold matcher, spanTag. rewrite eatChar_same. cbn [mbind option_bind].
  rewrite eatChar_same. cbn [mbind option_bind].
  by rewrite spanName_attributes.
Qed.

Lemma spanTag_other (c : N) (s : jsstring) : c ≠ 60 → spanTag (c :: s) = None.
Proof.
  intros Hc. destruct (spanTag (c :: s)) as [n|] eqn:E; [|done].
  apply spanTag_Some in E as [s' [= -> _]]. done.
Qed.

Lemma matcher_text (c : N) (s : jsstring) :
  c ≠ 60 → isLineBreak c = false → matcher (c :: s) = None.
Proof.
  intros Hc Hb. unfold matcher. rewrite spanTag_other by done.
  unfold isLineBreak in Hb. apply orb_false_iff in Hb as [H13 H10].
  cbn [lineBreak]. by rewrite H13, H10.
Qed.

(** How the text of the pieces begins. *)
Lemma flatten_head (pieces : list Piece) :
  wellFormed pieces → head pieces ≠ Some (Break LF) →
  head (flatten pieces) ≠ Some 10.
Proof.
  destruct pieces as [|[a| |[]|c] rest]; cbn [head wellFormed]; try done.
  intros [[_ Hc] _] _. cbn. intros [= ->]. done.
Qed.

Lemma matcher_break (b : LineBreak) (rest : list Piece) :
  wellFormed (Break b :: rest) →
  matcher (breakText b ++ flatten rest) = Some (length (breakText b)).
Proof.
  intros [Hb Hrest]. unfold matcher.
  destruct b; cbn [breakText app length]; rewrite spanTag_other by done;
    [done| |done].
  pose proof (flatten_head rest Hrest (Hb eq_refl)) as Hh.
  cbn [lineBreak]. change (13 =? 13) with true. cbn match.
  destruct (flatten rest) as [|d s]; [done|].
  destruct (N.eqb_spec d 10) as [->|]; done.
Qed.

Lemma hasLineBreak_openTag (attributes : jsstring) :
  Forall (λ c, c ≠ 62 ∧ isLineBreak c = false) attributes →
  hasLineBreak (openTag attributes) = false.
Proof.
  intros H. apply hasLineBreak_false. unfold openTag.
  apply Forall_app. split; [by repeat constructor|].
  apply Forall_app. split; [|by repeat constructor].
  eapply Forall_impl; [exact H|]. by intros c [_ ?].
Qed.

Lemma flatten_cons (p : Piece) (rest : list Piece) :
  flatten (p :: rest) = pieceText p ++ flatten rest.
Proof. done. Qed.

Lemma flatten_app (l k : list Piece) : flatten (l ++ k) = flatten l ++ flatten k.
Proof. unfold flatten. by rewrite fmap_app, concat_app. Qed.

Lemma flatten_closes (openSpans : list jsstring) :
  flatten ((λ _, Close) <$> openSpans)
  = concat ((λ _, lit "</span>") <$> (openTag <$> openSpans)).
Proof. unfold flatten. by rewrite <- !list_fmap_compose. Qed.

Lemma flatten_opens (openSpans : list jsstring) :
  flatten (Open <$> openSpans) = concat (openTag <$> openSpans).
Proof. unfold flatten. by rewrite <- !list_fmap_compose. Qed.

Lemma removelast_fmap {A B} (f : A → B) (l : list A) :
  removelast (f <$> l) = f <$> removelast l.
Proof.
  induction l as [|a l IH]; [done|]. cbn. destruct l; [done|]. cbn in *. by rewrite IH.
Qed.

Lemma onMatch_open (openSpans : list jsstring) (attributes : jsstring) :
  Forall (λ c, c ≠ 62 ∧ isLineBreak c = false) attributes →
  onMatch openSpans (openTag attributes)
  = (openSpans ++ [openTag attributes], openTag attributes).
Proof.
  intros H. unfold onMatch. rewrite hasLineBreak_openTag by done.
  assert (Ep : hasPrefix (lit "</") (openTag attributes) = false) by done.
  by rewrite Ep.
Qed.

Lemma onMatch_close (openSpans : list jsstring) :
  onMatch openSpans (lit "</span>") = (removelast openSpans, lit "</span>").
Proof. done. Qed.

Lemma onMatch_break (openSpans : list jsstring) (b : LineBreak) :
  onMatch openSpans (breakText b)
  = (openSpans,
     concat ((λ _, lit "</span>") <$> openSpans) ++ breakText b ++ concat openSpans).
Proof.
  unfold onMatch.
  assert (Eb : hasLineBreak (breakText b) = true) by by destruct b.
  rewrite Eb. destruct openSpans; [|done]. cbn. by rewrite app_nil_r.
Qed.

(** On well-formed pieces [cleanLineBreaks] does what [clean] says. *)
Lemma replaceFrom_clean (pieces : list Piece) (openSpans : list jsstring) :
  wellFormed pieces →
  replaceFrom matcher onMatch (openTag <$> openSpans) 0 (flatten pieces)
  = flatten (clean openSpans pieces).
Proof.
  revert openSpans. induction pieces as [|p rest IH]; intros openSpans; [done|].
  intros Hwf. pose proof Hwf as [Hp Hrest]. rewrite flatten_cons.
  destruct p as [attributes| |b|c]; cbn [pieceText clean]; cbn beta iota in Hp.
  - rewrite replaceFrom_found;
      [|intros E; by apply (f_equal length) in E|by apply matcher_open].
    rewrite onMatch_open by done. cbn [fst snd].
    specialize (IH (openSpans ++ [attributes]) Hrest).
    rewrite fmap_app in IH. cbn [fmap list_fmap] in IH.
    by rewrite IH, flatten_cons.
  - rewrite replaceFrom_found; [|done|by apply matcher_close].
    rewrite onMatch_close. cbn [fst snd]. rewrite removelast_fmap.
    by rewrite IH, flatten_cons.
  - rewrite replaceFrom_found; [|by destruct b|by apply matcher_break].
    rewrite onMatch_break. cbn [fst snd]. rewrite IH by done.
    rewrite flatten_app, flatten_cons, flatten_app, flatten_closes, flatten_opens.
    cbn [pieceText]. by rewrite <- !app_assoc.
  - destruct Hp as [Hc Hl]. cbn [app replaceFrom].
    rewrite matcher_text by done. rewrite IH by done. by rewrite flatten_cons.
Qed.

Lemma depthAfter_app (d : nat) (l k : list Piece) :
  depthAfter d (l ++ k) = depthAfter d l ≫= λ d', depthAfter d' k.
Proof.
  revert d. induction l as [|p l IH]; intros d; [done|].
  destruct p; cbn [app depthAfter]; [apply IH| |apply IH..].
  destruct d; [done|apply IH].
Qed.

Lemma depthAfter_opens (d : nat) (openSpans : list jsstring) :
  depthAfter d (Open <$> openSpans) = Some (d + length openSpans)%nat.
Proof.
  revert d. induction openSpans as [|a l IH]; intros d; cbn; [f_equal; lia|].
  rewrite IH. f_equal. lia.
Qed.

Lemma depthAfter_closes (d : nat) (openSpans : list jsstring) :
  depthAfter (length openSpans + d) ((λ _, Close) <$> openSpans) = Some d.
Proof. induction openSpans as [|a l IH]; [done|]. exact IH. Qed.

Lemma linesOf_line (line rest : list Piece) (b : LineBreak) :
  Forall (λ p, isBreak p = false) line →
  linesOf (line ++ Break b :: rest) = line :: linesOf rest.
Proof.
  induction 1 as [|p line Hp _ IH]; [done|]. cbn [app linesOf]. by rewrite Hp, IH.
Qed.

Lemma linesOf_last (line : list Piece) :
  Forall (λ p, isBreak p = false) line → linesOf line = [line].
Proof.
  induction 1 as [|p line Hp _ IH]; [done|]. cbn [linesOf]. by rewrite Hp, IH.
Qed.

(** The lines of the cleaned pieces, with the line begun before them. *)
Lemma clean_balanced (pieces : list Piece) (openSpans : list jsstring)
  (line : list Piece) :
  Forall (λ p, isBreak p = false) line →
  depthAfter 0 line = Some (length openSpans) →
  depthAfter (length openSpans) pieces = Some 0%nat →
  Forall balanced (linesOf (line ++ clean openSpans pieces)).
Proof.
  revert openSpans line. induction pieces as [|p rest IH]; intros openSpans line Hl Hd Hp.
  - cbn in Hp. injection Hp as Hp. rewrite app_nil_r, linesOf_last by done.
    constructor; [|constructor]. unfold balanced. by rewrite Hd, Hp.
  - destruct p as [attributes| |b|c]; cbn [clean depthAfter] in *.
    + replace (line ++ Open attributes :: clean (openSpans ++ [attributes]) rest)
        with ((line ++ [Open attributes]) ++ clean (openSpans ++ [attributes]) rest)
        by by rewrite <- app_assoc.
      apply IH.
      * apply Forall_app. split; [done|by constructor].
      * rewrite depthAfter_app, Hd, length_app. cbn. f_equal. lia.
      * rewrite length_app. cbn. by rewrite Nat.add_1_r.
    + destruct (length openSpans) as [|d] eqn:El; [done|].
      replace (line ++ Close :: clean (removelast openSpans) rest)
        with ((line ++ [Close]) ++ clean (removelast openSpans) rest)
        by by rewrite <- app_assoc.
      assert (Er : length (removelast openSpans) = d).
      { destruct openSpans as [|a l _] using rev_ind; [done|].
        rewrite removelast_last. rewrite length_app in El. cbn in El. lia. }
      apply IH.
      * apply Forall_app. split; [done|by constructor].
      * rewrite depthAfter_app, Hd, Er. done.
      * by rewrite Er.
    + replace (line ++ ((λ _, Close) <$> openSpans)
                 ++ Break b :: (Open <$> openSpans) ++ clean openSpans rest)
        with ((line ++ ((λ _, Close) <$> openSpans))
                ++ Break b :: (Open <$> openSpans) ++ clean openSpans rest)
        by by rewrite <- app_assoc.
      rewrite linesOf_line.
      2:{ apply Forall_app. split; [done|]. by apply Forall_fmap, Forall_true. }
      constructor.
      * unfold balanced. rewrite depthAfter_app, Hd. cbn.
        rewrite <- (Nat.add_0_r (length openSpans)). apply depthAfter_closes.
      * apply IH; [by apply Forall_fmap, Forall_true| |done].
        by rewrite depthAfter_opens.
    + replace (line ++ Text c :: clean openSpans rest)
        with ((line ++ [Text c]) ++ clean openSpans rest) by by rewrite <- app_assoc.
      apply IH; [|by rewrite depthAfter_app, Hd|done].
      apply Forall_app. split; [done|by constructor].
Qed.

Lemma wellFormed_closes (openSpans : list jsstring) (rest : list Piece) :
  wellFormed rest → wellFormed (((λ _, Close) <$> openSpans) ++ rest).
Proof. intros H. induction openSpans as [|a l IH]; [done|]. by split. Qed.

Lemma wellFormed_opens (openSpans : list jsstring) (rest : list Piece) :
  Forall (Forall (λ c, c ≠ 62 ∧ isLineBreak c = false)) openSpans →
  wellFormed rest → wellFormed ((Open <$> openSpans) ++ rest).
Proof. intros Ho H. induction Ho as [|a l Ha _ IH]; [done|]. by split. Qed.

Lemma clean_head (openSpans : list jsstring) (pieces : list Piece) :
  head pieces ≠ Some (Break LF) → head (clean openSpans pieces) ≠ Some (Break LF).
Proof.
  destruct pieces as [|[a| |b|c] rest]; cbn [clean head]; try done.
  intros Hb. destruct openSpans; [|done]. cbn. congruence.
Qed.

Lemma clean_wellFormed (pieces : list Piece) (openSpans : list jsstring) :
  Forall (Forall (λ c, c ≠ 62 ∧ isLineBreak c = false)) openSpans →
  wellFormed pieces → wellFormed (clean openSpans pieces).
Proof.
  revert openSpans. induction pieces as [|p rest IH]; intros openSpans Ho; [done|].
  intros [Hp Hrest]. destruct p as [attributes| |b|c]; cbn [clean].
  - split; [done|]. apply IH; [|done]. apply Forall_app. split; [done|by constructor].
  - split; [done|]. apply IH; [|done]. by apply Forall_removelast.
  - apply wellFormed_closes. split.
    + intros ->. destruct openSpans as [|a l]; [|done]. cbn [fmap list_fmap app].
      by apply clean_head, Hp.
    + apply wellFormed_opens; [done|]. by apply IH.
  - split; [done|]. by apply IH.
Qed.

(** X5.  For highlighted code, given by pieces that are read back as they
    are and in which every span that is closed was opened and every span is
    closed in the end: the result of cleanLineBreaks is the text of the pieces
    that [clean] gives, these pieces are read back as they are, and each of
    their lines closes the spans it opens. *)
Theorem cleanLineBreaks_balances_lines (pieces : list Piece) :
  wellFormed pieces → depthAfter 0 pieces = Some 0%nat →
  cleanLineBreaks (flatten pieces) = flatten (clean [] pieces)
  ∧ wellFormed (clean [] pieces)
  ∧ Forall balanced (linesOf (clean [] pieces)).
Proof.
  intros Hwf Hd. split; [|split].
  - unfold cleanLineBreaks. by rewrite <- (replaceFrom_clean pieces []).
  - by apply clean_wellFormed.
  - by apply (clean_balanced pieces [] []).
Qed.

Lemma cleanLineBreaks_balances_lines_witness :
  linesOf (clean [] [Open (lit " class=a"); Text 120; Break LF; Text 121; Close])
  = [[Open (lit " class=a"); Text 120; Close];
     [Open (lit " class=a"); Text 121; Close]]
  ∧ Forall balanced
      (linesOf (clean [] [Open (lit " class=a"); Text 120; Break LF; Text 121; Close])).
Proof.
  split; [reflexivity|].
  refine (proj2 (proj2 (cleanLineBreaks_balances_lines
                          [Open (lit " class=a"); Text 120; Break LF; Text 121; Close]
                          _ eq_refl))).
  cbn. repeat split; try done. by repeat constructor.
Defined.

Lemma linesOf_prefix (line rest : list Piece) :
  Forall (λ p, isBreak p = false) line →
  ∃ first others, linesOf rest = first :: others
                  ∧ linesOf (line ++ rest) = (line ++ first) :: others.
Proof.
  intros H. induction H as [|p line Hp _ IH].
  - destruct (linesOf rest) as [|first others] eqn:E; [|by eauto].
    destruct rest as [|q rest]; [done|]. cbn in E.
    destruct (isBreak q); [done|]. by destruct (linesOf rest).
  - destruct IH as (first & others & E1 & E2). exists first, others.
    split; [done|]. cbn [app linesOf]. by rewrite Hp, E2.
Qed.

Lemma depthAfter_None (l k : list Piece) :
  depthAfter 0 l = None → depthAfter 0 (l ++ k) = None.
Proof. intros H. by rewrite depthAfter_app, H. Qed.

(** Pieces whose lines are balanced are left as they are. *)
Lemma clean_balanced_id (pieces : list Piece) (openSpans : list jsstring)
  (line : list Piece) :
  Forall (λ p, isBreak p = false) line →
  depthAfter 0 line = Some (length openSpans) →
  Forall balanced (linesOf (line ++ pieces)) →
  clean openSpans pieces = pieces.
Proof.
  revert openSpans line. induction pieces as [|p rest IH]; intros openSpans line Hl Hd Hb;
    [done|].
  destruct p as [attributes| |b|c]; cbn [clean].
  - f_equal. apply (IH _ (line ++ [Open attributes])).
    + apply Forall_app. split; [done|by constructor].
    + rewrite depthAfter_app, Hd, length_app. cbn. f_equal. lia.
    + by rewrite <- app_assoc.
  - f_equal. destruct openSpans as [|a l _] using rev_ind.
    + exfalso.
      destruct (linesOf_prefix (line ++ [Close]) rest) as (first & others & _ & E).
      { apply Forall_app. split; [done|by constructor]. }
      rewrite <- app_assoc in E. cbn [app] in E. rewrite E in Hb.
      apply Forall_cons in Hb as [Hb _]. unfold balanced in Hb.
      rewrite depthAfter_None in Hb; [done|]. by rewrite depthAfter_app, Hd.
    + rewrite removelast_last. apply (IH _ (line ++ [Close])).
      * apply Forall_app. split; [done|by constructor].
      * rewrite depthAfter_app, Hd, length_app. cbn.
        by rewrite Nat.add_1_r.
      * by rewrite <- app_assoc.
  - rewrite linesOf_line in Hb by done. apply Forall_cons in Hb as [Hline Hb].
    unfold balanced in Hline. rewrite Hd in Hline. injection Hline as Hline.
    destruct openSpans; [|done]. cbn [fmap list_fmap app]. f_equal.
    by apply (IH [] []).
  - f_equal. apply (IH _ (line ++ [Text c])).
    + apply Forall_app. split; [done|by constructor].
    + by rewrite depthAfter_app, Hd.
    + by rewrite <- app_assoc.
Qed.

(** X6.  On such highlighted code cleanLineBreaks is idempotent: cleaning
    the result again changes nothing. *)
Theorem cleanLineBreaks_idempotent (pieces : list Piece) :
  wellFormed pieces → depthAfter 0 pieces = Some 0%nat →
  cleanLineBreaks (cleanLineBreaks (flatten pieces))
  = cleanLineBreaks (flatten pieces).
Proof.
  intros Hwf Hd. unfold cleanLineBreaks.
  pose proof (replaceFrom_clean pieces [] Hwf) as E1.
  pose proof (replaceFrom_clean (clean [] pieces) []
                (clean_wellFormed pieces [] ltac:(constructor) Hwf)) as E2.
  cbn [fmap list_fmap] in E1, E2. rewrite E1, E2.
  f_equal. apply (clean_balanced_id _ [] []); [done..|].
  by apply (clean_balanced pieces [] []).
Qed.

Lemma cleanLineBreaks_idempotent_witness :
  cleanLineBreaks
    (cleanLineBreaks
       (flatten [Open (lit " class=a"); Text 120; Break LF; Text 121; Close]))
  = cleanLineBreaks
      (flatten [Open (lit " class=a"); Text 120; Break LF; Text 121; Close]).
Proof.
  apply cleanLineBreaks_idempotent; [|reflexivity].
  cbn. repeat split; try done. by repeat constructor.
Defined.
End HighlightedProofs.

(** ** The folding ranges *)

Section FoldingProofs.
Import ResponsePage.

Lemma closing_above (c : nat) (y : nat * nat) (rest : list (nat * nat)) :
  (c < y.2)%nat → closing c (y :: rest) = closing c rest.
Proof. intros H. cbn. destruct (Nat.leb_spec y.2 c); [lia|done]. Qed.

Lemma closeStack_above (i c : nat) (y : nat * nat) (rest stack : list (nat * nat))
  (m : gmap nat (nat * nat)) :
  below i c stack → (c ≤ y.2)%nat →
  closeStack (y :: rest) stack m = closeStack rest stack m.
Proof.
  revert i c. induction stack as [|x stack IH]; intros i c; [done|].
  intros (Hi & Hc & Hb) Hy. cbn [closeStack foldr].
  fold (closeStack (y :: rest) stack m). fold (closeStack rest stack m).
  rewrite closing_above by lia. rewrite (IH x.1 x.2) by (done || lia). done.
Qed.

Lemma closeStack_insert (rest stack : list (nat * nat)) (k : nat) (v : nat * nat)
  (m : gmap nat (nat * nat)) :
  Forall (λ x, S x.1 ≠ k) stack →
  closeStack rest stack (<[k := v]> m) = <[k := v]> (closeStack rest stack m).
Proof.
  induction 1 as [|x stack Hx _ IH]; [done|]. cbn [closeStack foldr].
  fold (closeStack rest stack (<[k := v]> m)). fold (closeStack rest stack m).
  rewrite IH. destruct (closing x.2 rest); [|done].
  by rewrite insert_insert_ne.
Qed.

Lemma rangesOnto_insert (entries : list (nat * nat)) (k : nat) (v : nat * nat)
  (m : gmap nat (nat * nat)) :
  Forall (λ x, S x.1 ≠ k) entries →
  rangesOnto entries (<[k := v]> m) = <[k := v]> (rangesOnto entries m).
Proof.
  induction 1 as [|x rest Hx _ IH]; [done|]. cbn [rangesOnto]. rewrite IH.
  destruct rest as [|y rest]; [done|].
  destruct (x.2 <? y.2)%nat; [|done].
  destruct (closing x.2 (y :: rest)); [|done].
  by rewrite insert_insert_ne.
Qed.

Lemma below_Forall (i c : nat) (stack : list (nat * nat)) :
  below i c stack → Forall (λ x, (x.1 < i)%nat ∧ (x.2 < c)%nat) stack.
Proof.
  revert i c. induction stack as [|x stack IH]; intros i c; [constructor|].
  intros (Hi & Hc & Hb). constructor; [done|].
  eapply Forall_impl; [exact (IH _ _ Hb)|]. cbn. lia.
Qed.

Lemma below_weaken (i c i' c' : nat) (stack : list (nat * nat)) :
  below i c stack → (i ≤ i')%nat → (c ≤ c')%nat → below i' c' stack.
Proof.
  destruct stack; [done|]. cbn. intros (? & ? & ?) ? ?.
  split; [lia|]. split; [lia|done].
Qed.

(** The [while] loop closes the entries of the stack that the current entry
    closes, and leaves the others for the entries to come. *)
Lemma popWhile_spec (cur : nat * nat) (i c : nat) (rest stack : list (nat * nat))
  (result : gmap nat (nat * nat)) :
  below i c stack → (i ≤ cur.1)%nat → Forall (λ y, (cur.1 < y.1)%nat) rest →
  let st := popWhile cur.2 cur.1 stack result in
  below cur.1 cur.2 st.1
  ∧ closeStack rest st.1 (rangesOnto (cur :: rest) st.2)
    = closeStack (cur :: rest) stack (rangesOnto (cur :: rest) result).
Proof.
  revert i c result. induction stack as [|x stack IH]; intros i c result; [done|].
  intros (Hi & Hc & Hb) Hcur Hrest. cbn [popWhile].
  destruct (Nat.leb_spec cur.2 x.2) as [Hle|Hlt].
  - destruct (IH x.1 x.2 (<[S x.1 := (S x.1, cur.1)]> result) Hb ltac:(lia) Hrest)
      as [Hb' E].
    split; [exact Hb'|]. cbn zeta in E. rewrite E.
    cbn [closeStack foldr].
    fold (closeStack (cur :: rest) stack (rangesOnto (cur :: rest) result)).
    assert (Ec : closing x.2 (cur :: rest) = Some cur.1).
    { cbn. by destruct (Nat.leb_spec cur.2 x.2); [|lia]. }
    rewrite Ec, rangesOnto_insert, closeStack_insert; [done| |].
    + apply below_Forall in Hb. eapply Forall_impl; [exact Hb|]. cbn. lia.
    + constructor; [lia|]. eapply Forall_impl; [exact Hrest|]. cbn. lia.
  - cbn [fst snd]. split; [cbn; split; [lia|split; [lia|done]]|].
    symmetry. apply (closeStack_above (S x.1) (S x.2)); [|lia].
    cbn. split; [lia|split; [lia|done]].
Qed.

Lemma loop_spec (prev : nat * nat) (rest stack : list (nat * nat))
  (result : gmap nat (nat * nat)) :
  below prev.1 prev.2 stack → ascending (prev :: rest) →
  (loop prev rest (stack, result)).2
  = closeStack rest stack (rangesOnto (prev :: rest) result).
Proof.
  revert prev stack result. induction rest as [|cur rest IH]; intros prev stack result.
  - intros _ _. cbn. induction stack as [|x stack IHs]; [done|]. cbn. exact IHs.
  - intros Hb [Hprev Hasc]. cbn [loop]. unfold visit. cbn [fst snd].
    apply Forall_cons in Hprev as [Hpc Hprev].
    destruct Hasc as [Hcur Hasc].
    destruct (Nat.ltb_spec prev.2 cur.2) as [Hlt|Hge].
    + rewrite IH; [|cbn; split; [lia|split; [lia|done]]|done].
      cbn [closeStack foldr]. fold (closeStack rest stack (rangesOnto (cur :: rest) result)).
      rewrite (closeStack_above prev.1 prev.2) by (done || lia).
      cbn [rangesOnto]. destruct (Nat.ltb_spec prev.2 cur.2); [|lia].
      rewrite closing_above by lia.
      destruct (closing prev.2 rest) as [e|]; [|done].
      rewrite closeStack_insert; [done|].
      apply below_Forall in Hb. eapply Forall_impl; [exact Hb|]. cbn. lia.
    + assert (Er : rangesOnto (prev :: cur :: rest) result
                   = rangesOnto (cur :: rest) result).
      { cbn [rangesOnto]. by destruct (Nat.ltb_spec prev.2 cur.2); [lia|]. }
      rewrite Er. destruct (Nat.ltb_spec cur.2 prev.2) as [Hlt|Hge'].
      * destruct (popWhile_spec cur prev.1 prev.2 rest stack result Hb ltac:(lia) Hcur)
          as [Hb' E].
        cbn zeta in E. rewrite <- E.
        destruct (popWhile cur.2 cur.1 stack result) as [stack' result'].
        by apply IH.
      * rewrite IH; [|eapply below_weaken; [exact Hb|lia|lia]|done].
        symmetry. by apply (closeStack_above prev.1 prev.2); [|lia].
Qed.

Lemma leadingSpaceCount_elem (lines : list jsstring) (i c : nat) :
  (i, c) ∈ leadingSpaceCount lines ↔ indentOf lines i = Some c.
Proof.
  unfold leadingSpaceCount, indentOf. rewrite list_elem_of_omap. split.
  - intros ([j line] & Hin & E). apply elem_of_lookup_imap in Hin as (j' & y & [= -> ->] & Hl).
    cbn in E. destruct (search y) as [num|] eqn:Es; simplify_eq/=.
    by rewrite Hl.
  - intros E. destruct (lines !! i) as [line|] eqn:Hl; [|done]. cbn in E.
    exists (i, line). split; [by apply (elem_of_lookup_imap_2 pair)|].
    cbn. by rewrite E.
Qed.

Lemma ascending_imap (g : nat → nat) (lines : list jsstring) :
  (∀ i j, (i < j)%nat → (g i < g j)%nat) →
  ascending (omap (λ e : nat * jsstring, (λ num, (e.1, num)) <$> search e.2)
               (imap (λ i line, (g i, line)) lines))
  ∧ Forall (λ y : nat * nat, (g 0%nat ≤ y.1)%nat)
      (omap (λ e : nat * jsstring, (λ num, (e.1, num)) <$> search e.2)
         (imap (λ i line, (g i, line)) lines)).
Proof.
  revert g. induction lines as [|line lines IH]; intros g Hg; [by split|].
  rewrite imap_cons. destruct (IH (g ∘ S)) as [Ha Hf].
  { intros i j Hij. cbn. apply Hg. lia. }
  cbn [omap list_omap] in *. cbn [fst snd].
  change (imap ((λ i line0, (g i, line0)) ∘ S) lines)
    with (imap (λ i line0, ((g ∘ S) i, line0)) lines).
  destruct (search line) as [num|]; cbn.
  - split.
    + split; [|exact Ha]. eapply Forall_impl; [exact Hf|].
      intros y Hy. cbn in *. specialize (Hg 0%nat 1%nat). lia.
    + constructor; [cbn; lia|]. eapply Forall_impl; [exact Hf|].
      intros y Hy. cbn in *. specialize (Hg 0%nat 1%nat). lia.
  - split; [exact Ha|]. eapply Forall_impl; [exact Hf|].
    intros y Hy. cbn in *. specialize (Hg 0%nat 1%nat). lia.
Qed.

Lemma leadingSpaceCount_ascending (lines : list jsstring) :
  ascending (leadingSpaceCount lines).
Proof. apply (ascending_imap id). cbn. lia. Qed.

Lemma ascending_index (entries : list (nat * nat)) (i c c' : nat) :
  ascending entries → (i, c) ∈ entries → (i, c') ∈ entries → c = c'.
Proof.
  induction entries as [|x rest IH]; [by intros _ ?%elem_of_nil|].
  intros [Hx Ha]. rewrite Forall_forall in Hx.
  intros [<-|H1]%elem_of_cons [E|H2]%elem_of_cons.
  - congruence.
  - specialize (Hx _ H2). cbn in Hx. lia.
  - subst x. specialize (Hx _ H1). cbn in Hx. lia.
  - by apply IH.
Qed.

Lemma closing_Some (c e : nat) (rest : list (nat * nat)) :
  ascending rest →
  closing c rest = Some e
  ↔ (∃ c', (e, c') ∈ rest ∧ (c' ≤ c)%nat)
    ∧ ∀ n cn, (n, cn) ∈ rest → (n < e)%nat → (c < cn)%nat.
Proof.
  induction rest as [|[i ci] rest IH].
  - intros _. cbn. split; [done|]. by intros [(c' & ?%elem_of_nil & _) _].
  - intros [Hx Ha]. rewrite Forall_forall in Hx. cbn [closing snd fst].
    destruct (Nat.leb_spec ci c) as [Hle|Hgt].
    + split.
      * intros [= <-]. split; [exists ci; split; [by left|done]|].
        intros n cn [[= -> ->]|Hin]%elem_of_cons Hn; [lia|].
        specialize (Hx _ Hin). cbn in Hx. lia.
      * intros [(c' & [[= -> ->]|Hin]%elem_of_cons & Hc') Hall]; [done|].
        specialize (Hx _ Hin). cbn in Hx.
        specialize (Hall i ci ltac:(by left) Hx). lia.
    + rewrite (IH Ha). split.
      * intros [(c' & Hin & Hc') Hall]. split; [exists c'; split; [by right|done]|].
        intros n cn [[= -> ->]|Hn]%elem_of_cons; [lia|]. by apply Hall.
      * intros [(c' & [[= -> ->]|Hin]%elem_of_cons & Hc') Hall]; [lia|].
        split; [by exists c'|]. intros n cn Hn. apply Hall. by right.
Qed.

Lemma foldsAt_head (x : nat * nat) (rest : list (nat * nat)) (c e : nat) :
  ascending (x :: rest) →
  foldsAt (x :: rest) x.1 c e
  ↔ c = x.2
    ∧ (∃ y rest', rest = y :: rest' ∧ (x.2 < y.2)%nat)
    ∧ closing x.2 rest = Some e.
Proof.
  intros [Hx Ha]. pose proof Hx as Hx'. rewrite Forall_forall in Hx.
  rewrite (closing_Some _ _ _ Ha). destruct x as [i ci]. cbn [fst snd] in *.
  unfold foldsAt. split.
  - intros ([[= ->]|Hin]%elem_of_cons & (c' & Hc' & Hle) & (n & cn & Hn & Hlt) & Hall).
    2:{ specialize (Hx _ Hin). cbn in Hx. lia. }
    split; [done|].
    apply elem_of_cons in Hc' as [[= -> ->]|Hc']; [lia|].
    apply elem_of_cons in Hn as [[= -> ->]|Hn]; [lia|].
    split.
    + destruct rest as [|y rest']; [by apply elem_of_nil in Hn|].
      exists y, rest'. split; [done|].
      destruct y as [j cj]. cbn.
      apply (Hall j cj); [right; by left|].
      apply Forall_cons in Hx' as [Hj _]. cbn in Hj. split; [done|].
      destruct Ha as [Hy _]. rewrite Forall_forall in Hy.
      apply elem_of_cons in Hn as [[= -> ->]|Hn]; [lia|].
      specialize (Hy _ Hn). cbn in Hy. lia.
    + split; [by exists c'|]. intros m cm Hm Hme. apply (Hall m cm); [by right|].
      specialize (Hx _ Hm). cbn in Hx. lia.
  - intros (-> & (y & rest' & -> & Hy) & (c' & Hc' & Hle) & Hall).
    split; [by left|]. split; [exists c'; split; [by right|done]|].
    assert (He : (i < e)%nat) by (specialize (Hx _ Hc'); cbn in Hx; lia).
    split.
    + exists y.1, y.2. split; [right; destruct y; by left|].
      split; [specialize (Hx y ltac:(by left)); cbn in Hx; lia|].
      destruct Ha as [Hy' _]. rewrite Forall_forall in Hy'.
      apply elem_of_cons in Hc' as [<-|Hc']; [cbn in *; lia|].
      specialize (Hy' _ Hc'). cbn in Hy'. lia.
    + intros n cn [[= -> ->]|Hn]%elem_of_cons Hlt; [lia|].
      apply (Hall n cn Hn). lia.
Qed.

Lemma foldsAt_tail (x : nat * nat) (rest : list (nat * nat)) (p c e : nat) :
  ascending (x :: rest) → p ≠ x.1 →
  foldsAt (x :: rest) p c e ↔ foldsAt rest p c e.
Proof.
  intros [Hx Ha] Hp. rewrite Forall_forall in Hx. unfold foldsAt. split.
  - intros ([<-|Hin]%elem_of_cons & (c' & Hc' & Hle) & (n & cn & Hn & Hlt) & Hall);
      [done|].
    pose proof (Hx _ Hin) as Hpx. cbn in Hpx.
    split; [done|]. split.
    { exists c'. split; [|done].
      apply elem_of_cons in Hc' as [<-|Hc']; [cbn in *; lia|done]. }
    split.
    { exists n, cn. split; [|done].
      apply elem_of_cons in Hn as [<-|Hn]; [cbn in *; lia|done]. }
    intros m cm Hm Hlt'. apply (Hall m cm); [by right|done].
  - intros (Hin & (c' & Hc' & Hle) & (n & cn & Hn & Hlt) & Hall).
    pose proof (Hx _ Hin) as Hpx. cbn in Hpx.
    split; [by right|]. split; [exists c'; split; [by right|done]|].
    split; [exists n, cn; split; [by right|done]|].
    intros m cm [<-|Hm]%elem_of_cons Hlt'; [cbn in *; lia|]. by apply (Hall m cm).
Qed.

Lemma rangesOnto_lookup (entries : list (nat * nat)) (k : nat) (v : nat * nat) :
  ascending entries →
  rangesOnto entries ∅ !! k = Some v
  ↔ ∃ p c e, k = S p ∧ v = (S p, e) ∧ foldsAt entries p c e.
Proof.
  induction entries as [|x rest IH].
  - intros _. cbn. rewrite lookup_empty. split; [done|].
    by intros (p & c & e & _ & _ & ?%elem_of_nil & _).
  - intros Hasc. pose proof Hasc as [Hx Ha]. specialize (IH Ha).
    assert (Htail : rangesOnto rest ∅ !! k = Some v
              ↔ ∃ p c e, k = S p ∧ v = (S p, e) ∧ p ≠ x.1 ∧ foldsAt (x :: rest) p c e).
    { rewrite IH. split.
      - intros (p & c & e & -> & -> & Hf). exists p, c, e.
        assert (Hp : p ≠ x.1).
        { destruct Hf as [Hin _]. rewrite Forall_forall in Hx.
          specialize (Hx _ Hin). cbn in Hx. lia. }
        split; [done|]. split; [done|]. split; [done|]. by apply foldsAt_tail.
      - intros (p & c & e & -> & -> & Hp & Hf). exists p, c, e.
        split; [done|]. split; [done|]. by apply (foldsAt_tail x). }
    assert (Hhead : ∀ c e, foldsAt (x :: rest) x.1 c e
              ↔ c = x.2 ∧ (∃ y rest', rest = y :: rest' ∧ (x.2 < y.2)%nat)
                ∧ closing x.2 rest = Some e)
      by (intros; by apply foldsAt_head).
    cbn [rangesOnto].
    assert (Hno : ¬ (∃ c e, foldsAt (x :: rest) x.1 c e) →
              rangesOnto rest ∅ !! k = Some v
              ↔ ∃ p c e, k = S p ∧ v = (S p, e) ∧ foldsAt (x :: rest) p c e).
    { intros Hn. rewrite Htail. split.
      - intros (p & c & e & -> & -> & _ & Hf). by exists p, c, e.
      - intros (p & c & e & -> & -> & Hf). exists p, c, e.
        split; [done|]. split; [done|]. split; [|done].
        intros ->. apply Hn. by exists c, e. }
    destruct rest as [|y rest'].
    { apply Hno. intros (c & e & Hf). apply Hhead in Hf as (_ & (? & ? & ? & _) & _).
      done. }
    destruct (Nat.ltb_spec x.2 y.2) as [Hlt|Hge].
    2:{ apply Hno. intros (c & e & Hf).
        apply Hhead in Hf as (_ & (? & ? & [= <- <-] & ?) & _). lia. }
    destruct (closing x.2 (y :: rest')) as [e0|] eqn:Ec.
    2:{ apply Hno. intros (c & e & Hf). by apply Hhead in Hf as (_ & _ & ?). }
    destruct (decide (k = S x.1)) as [->|Hk].
    + rewrite lookup_insert_eq. split.
      * intros [= <-]. exists x.1, x.2, e0. split; [done|]. split; [done|].
        apply Hhead. split; [done|]. split; [by exists y, rest'|done].
      * intros (p & c & e & [= <-] & -> & Hf).
        apply Hhead in Hf as (_ & _ & [= ->]). done.
    + rewrite lookup_insert_ne by done. rewrite Htail. split.
      * intros (p & c & e & -> & -> & _ & Hf). by exists p, c, e.
      * intros (p & c & e & -> & -> & Hf). exists p, c, e.
        split; [done|]. split; [done|]. split; [congruence|done].
Qed.

Lemma getFoldingRange_ranges (lines : list jsstring) :
  getFoldingRange lines = rangesOnto (leadingSpaceCount lines) ∅.
Proof.
  unfold getFoldingRange.
  pose proof (leadingSpaceCount_ascending lines) as Ha.
  destruct (leadingSpaceCount lines) as [|first rest]; [done|].
  by rewrite loop_spec.
Qed.

Lemma foldsAt_lines (lines : list jsstring) (p c e : nat) :
  foldsAt (leadingSpaceCount lines) p c e
  ↔ indentOf lines p = Some c
    ∧ (∃ c', indentOf lines e = Some c' ∧ (c' ≤ c)%nat)
    ∧ (∃ n, (p < n < e)%nat ∧ is_Some (indentOf lines n))
    ∧ (∀ n cn, (p < n < e)%nat → indentOf lines n = Some cn → (c < cn)%nat).
Proof.
  unfold foldsAt. setoid_rewrite leadingSpaceCount_elem. split.
  - intros (Hp & He & (n & cn & Hn & Hlt) & Hall).
    repeat (split; [done|]). split; [by exists n|].
    intros m cm Hm Hcm. by apply (Hall m cm).
  - intros (Hp & He & (n & Hlt & [cn Hn]) & Hall).
    repeat (split; [done|]). split; [by exists n, cn|].
    intros m cm Hcm Hm. by apply (Hall m cm).
Qed.

(** X1.  getFoldingRange gives the line number k the range (s, e) exactly
    when k = s is the number, counted from 1, of a line that is not blank; the
    line of index e, counted from 0, is not blank and is indented no more
    than that line; at least one line that is not blank lies between the two;
    and every line between them that is not blank is indented more.  So blank
    lines are passed over, and a block that no later line closes has no
    range. *)
Theorem getFoldingRange_spec (lines : list jsstring) (k s e : nat) :
  getFoldingRange lines !! k = Some (s, e)
  ↔ ∃ p c,
      k = S p ∧ s = S p
      ∧ indentOf lines p = Some c
      ∧ (∃ c', indentOf lines e = Some c' ∧ (c' ≤ c)%nat)
      ∧ (∃ n, (p < n < e)%nat ∧ is_Some (indentOf lines n))
      ∧ (∀ n cn, (p < n < e)%nat → indentOf lines n = Some cn → (c < cn)%nat).
Proof.
  rewrite getFoldingRange_ranges, rangesOnto_lookup
    by apply leadingSpaceCount_ascending.
  split.
  - intros (p & c & e' & -> & [= -> ->] & Hf%foldsAt_lines). by exists p, c.
  - intros (p & c & -> & -> & Hf). exists p, c, e.
    split; [done|]. split; [done|]. by apply foldsAt_lines.
Qed.

(** X2.  A range of getFoldingRange is stored under its own start line,
    starts at line 1 or later, ends behind its start and inside the text; and
    two ranges never overlap in part: the one that starts later lies behind
    the other one or inside it. *)
Theorem folding_ranges_nest (lines : list jsstring) (k1 s1 e1 k2 s2 e2 : nat) :
  getFoldingRange lines !! k1 = Some (s1, e1) →
  getFoldingRange lines !! k2 = Some (s2, e2) →
  (k1 = s1 ∧ (1 ≤ s1)%nat ∧ (s1 < e1)%nat ∧ (e1 < length lines)%nat)
  ∧ ((s1 < s2)%nat → (e1 < s2)%nat ∨ (e2 ≤ e1)%nat).
Proof.
  rewrite !getFoldingRange_ranges, !rangesOnto_lookup
    by apply leadingSpaceCount_ascending.
  intros (p1 & c1 & e1' & -> & [= -> <-] & Hf1%foldsAt_lines).
  intros (p2 & c2 & e2' & -> & [= -> <-] & Hf2%foldsAt_lines).
  destruct Hf1 as (Hp1 & (c1' & He1 & Hle1) & (n1 & Hn1 & _) & Hall1).
  destruct Hf2 as (Hp2 & (c2' & He2 & Hle2) & _ & Hall2).
  split.
  - split; [done|]. split; [lia|]. split; [lia|].
    unfold indentOf in He1. destruct (lines !! e1) as [line|] eqn:El; [|done].
    by apply lookup_lt_Some in El.
  - intros Hlt. destruct (decide (p2 < e1)%nat) as [Hin|Hout]; [|left; lia].
    right. destruct (decide (e2 ≤ e1)%nat) as [|Hover]; [done|].
    pose proof (Hall1 p2 c2 ltac:(lia) Hp2).
    pose proof (Hall2 e1 c1' ltac:(lia) He1). lia.
Qed.

Lemma folding_ranges_nest_witness :
  let lines := [lit "a"; lit "  b"; lit "    c"; lit "  d"; lit ""; lit "e"] in
  getFoldingRange lines !! 1%nat = Some (1, 5)%nat
  ∧ getFoldingRange lines !! 2%nat = Some (2, 3)%nat
  ∧ ((1 < 2)%nat → (5 < 2)%nat ∨ (3 ≤ 5)%nat).
Proof.
  intros lines.
  assert (H1 : getFoldingRange lines !! 1%nat = Some (1, 5)%nat) by (vm_compute; reflexivity).
  assert (H2 : getFoldingRange lines !! 2%nat = Some (2, 3)%nat) by (vm_compute; reflexivity).
  split; [exact H1|]. split; [exact H2|].
  exact (proj2 (folding_ranges_nest lines _ _ _ _ _ _ H1 H2)).
Defined.
End FoldingProofs.

(** ** The active panel and the commands of the webview *)

Section CommandProofs.
Import HttpResponseWebview ResponseCommands.

Lemma handle_keeps_invariants (e : Event) (w : State) :
  expected e w →
  responsesAreOpen w ∧ panelsAreDistinct w ∧ pagesShowResponses w ∧ activeIsOpen w →
  responsesAreOpen (handle e w) ∧ panelsAreDistinct (handle e w)
  ∧ pagesShowResponses (handle e w) ∧ activeIsOpen (handle e w).
Proof.
  intros He (Hopen & Hdist & Hpages & Hactive).
  destruct e as [settings response result column|q|q active]; cbn [handle].
  - destruct (render_keeps_invariants settings response result column w Hopen Hdist)
      as [Ho Hd].
    split; [done|]. split; [done|].
    unfold pagesShowResponses, activeIsOpen, render.
    cbn [panels panelResponses panelStore activePanel].
    set (created := showResponseInDifferentTab settings || (length (panels w) =? 0)%nat).
    set (panel := if created then nextPanel w else default (nextPanel w) (last (panels w))).
    assert (Hpanel : panel ∈ (if created then panels w ++ [panel] else panels w)).
    { subst panel. destruct created eqn:Hc; [apply elem_of_app; right; by left|].
      apply orb_false_iff in Hc as [_ Hlen].
      destruct (last (panels w)) as [l|] eqn:Hlast; [by eapply last_Some_elem_of|].
      apply last_None in Hlast. rewrite Hlast in Hlen. done. }
    split.
    + intros p Hp. destruct (decide (p = panel)) as [->|Hne].
      * rewrite !lookup_insert_eq. by eexists _, _, _.
      * rewrite !lookup_insert_ne by done. apply Hpages.
        destruct created; [|done].
        apply elem_of_app in Hp as [Hp|Hp]; [done|].
        by apply list_elem_of_singleton in Hp.
    + by intros p [= <-].
  - destruct (onDidDispose_keeps_invariants q w Hopen Hdist) as [Ho Hd].
    split; [done|]. split; [done|].
    unfold pagesShowResponses, activeIsOpen, onDidDispose.
    cbn [fst panels panelResponses panelStore activePanel].
    destruct Hdist as [Hnd _].
    destruct (findIndex q (panels w)) as [i|] eqn:Hi.
    + apply findIndex_Some in Hi. split.
      * intros p [Hp Hne]%(elem_of_delete_NoDup _ _ q); [|done..].
        rewrite lookup_delete_ne by done. by apply Hpages.
      * intros p. case_bool_decide as Hq; [done|]. intros Hp.
        apply (elem_of_delete_NoDup _ _ q); [done..|].
        split; [by apply Hactive|]. intros ->. done.
    + split; [done|]. intros p. case_bool_decide; [done|]. apply Hactive.
  - unfold onDidChangeViewState. split; [done|]. split; [done|]. split; [done|].
    unfold activeIsOpen. cbn [activePanel panels]. destruct (active q); [|done].
    by intros p [= <-].
Qed.

Lemma reached_invariants (w : State) :
  reached w →
  responsesAreOpen w ∧ panelsAreDistinct w ∧ pagesShowResponses w ∧ activeIsOpen w.
Proof.
  induction 1 as [|e w _ IH He].
  - split; [|split; [|split]].
    + intros p [? Hp]. cbn in Hp. by rewrite lookup_empty in Hp.
    + split; [constructor|]. by intros p ?%elem_of_nil.
    + by intros p ?%elem_of_nil.
    + by intros p.
  - by apply handle_keeps_invariants.
Qed.

(** X10.  In every state the webview reaches by renders, disposals and
    view-state changes of open panels: an active panel is open, the active
    response is the response the page of the active panel was rendered from,
    and copyBody copies its body; without an active panel there is no active
    response and copyBody copies nothing, which is so after the active panel
    is disposed, whatever other panels are open. *)
Theorem active_response_is_shown (w : State) :
  reached w →
  (∀ p, activePanel w = Some p →
     p ∈ panels w
     ∧ ∃ response result object,
         activeResponse w = Some response
         ∧ copyBody w = Some (responseBody response)
         ∧ panelStore w !! p = Some object
         ∧ html object = Some (response, result))
  ∧ (activePanel w = None → activeResponse w = None ∧ copyBody w = None)
  ∧ (∀ p, activePanel w = Some p →
       activeResponse (onDidDispose p w).1 = None
       ∧ copyBody (onDidDispose p w).1 = None).
Proof.
  intros (_ & _ & Hpages & Hactive)%reached_invariants.
  unfold copyBody, activeResponse. split; [|split].
  - intros p Hp. split; [by apply Hactive|].
    destruct (Hpages p (Hactive p Hp)) as (response & result & object & Hr & Ho & Hh).
    exists response, result, object. rewrite Hp, Hr. done.
  - by intros ->.
  - intros p Hp. unfold onDidDispose. cbn [fst activePanel].
    by rewrite bool_decide_eq_true_2.
Qed.

Lemma active_response_is_shown_witness :
  let settings :=
    {| showResponseInDifferentTab := false; previewResponsePanelTakeFocus := true;
       requestNameAsResponseTabTitle := false |} in
  let response :=
    {| statusCode := 200; requestName := None; timingTotal := None;
       responseBody := lit "ok" |} in
  copyBody (handle (Rendered settings response NoTests (Col 2)) initial)
  = Some (lit "ok").
Proof.
  intros settings response.
  assert (Hr : reached (handle (Rendered settings response NoTests (Col 2)) initial)).
  { apply reached_handle; [apply reached_initial|done]. }
  destruct (proj1 (active_response_is_shown _ Hr) 0%nat eq_refl)
    as (_ & r & result & object & Ha & Hc & _).
  rewrite Hc. f_equal. cbn in Ha. by injection Ha as <-.
Defined.

(** X11.  As long as every render has showResponseInDifferentTab off, at
    most one panel is open, whatever else happens to the panels. *)
Theorem same_tab_keeps_one_panel (events : list Event) :
  sameTab events → (length (panels (play events initial)) ≤ 1)%nat.
Proof.
  unfold play. induction events as [|e events IH] using rev_ind; [cbn; lia|].
  intros [Hs He]%Forall_app. apply Forall_cons in He as [He _].
  rewrite foldl_snoc. specialize (IH Hs).
  set (w := foldl _ initial events) in *.
  destruct e as [settings response result column|q|q active]; cbn [handle].
  - unfold render. cbn [panels]. rewrite He. cbn [orb].
    destruct (panels w) as [|p l]; cbn in *; lia.
  - unfold onDidDispose. cbn [fst panels].
    destruct (findIndex q (panels w)) as [n|]; [|done].
    pose proof (sublist_length _ _ (sublist_delete (panels w) n)). lia.
  - done.
Qed.

Lemma same_tab_keeps_one_panel_witness :
  let settings :=
    {| showResponseInDifferentTab := false; previewResponsePanelTakeFocus := true;
       requestNameAsResponseTabTitle := false |} in
  let response :=
    {| statusCode := 200; requestName := None; timingTotal := None;
       responseBody := [] |} in
  (length (panels (play [Rendered settings response NoTests (Col 2);
                         Rendered settings response NoTests (Col 2)] initial)) ≤ 1)%nat.
Proof.
  intros settings response. apply same_tab_keeps_one_panel.
  by repeat constructor.
Defined.
End CommandProofs.

(** ** The course of an invocation of runCore *)

Section CourseProofs.
Import ScriptRunner RequestController ControllerCourse Examples.

Lemma count_app (f : Action → bool) (l k : list Action) :
  count f (l ++ k) = (count f l + count f k)%nat.
Proof. induction l as [|a l IH]; [done|]. cbn. rewrite IH. lia. Qed.

Lemma count_elem (f : Action → bool) (l : list Action) (a : Action) :
  a ∈ l → f a = true → (0 < count f l)%nat.
Proof.
  induction l as [|b l IH]; [by intros ?%elem_of_nil|].
  intros [->|Hin]%elem_of_cons Ha; cbn; [rewrite Ha; lia|].
  specialize (IH Hin Ha). lia.
Qed.

Lemma startActions_count (todo : list (option jsstring)) :
  count isSend (startActions todo) = sendsAt (startPc todo)
  ∧ count isHistory (startActions todo) = 0%nat
  ∧ historiesAt (startPc todo) = 0%nat.
Proof.
  induction todo as [|script rest IH]; cbn; [done|].
  destruct (truthy script); cbn; [done|]. exact IH.
Qed.

Lemma catchActions_count (f : Action → bool) (t : Task) (e : Thrown) (w : World) :
  f (Update Error None) = false → f LogError = false →
  (∀ x, f (ShowError x) = false) → count f (catchActions t e w) = 0%nat.
Proof.
  intros H1 H2 H3. unfold catchActions.
  destruct (isCancelledIn (request t) w); [done|]. destruct e; [done|].
  cbn. by rewrite H1, H2, H3.
Qed.

Lemma shows_count (f : Action → bool) (shown : list Shown) :
  (∀ x, f (Shows x) = false) → count f (Shows <$> shown) = 0%nat.
Proof.
  intros H. induction shown as [|x l IH]; [done|]. cbn. by rewrite H, IH.
Qed.

Lemma previewActions_count (f : Action → bool) (t : Task) (env : Env)
  response result :
  f LogError = false → (∀ x, f (ShowError x) = false) →
  (∀ r c, f (RenderText r c) = false) → (∀ r x c, f (RenderWebview r x c) = false) →
  count f (previewActions t env response result) = 0%nat.
Proof.
  intros H1 H2 H3 H4. unfold previewActions.
  destruct (activeTextEditor env); [|cbn; by rewrite H1, H2].
  destruct (previewResponseInUntitledDocument (settings t)); [cbn; by rewrite H3|].
  destruct (columnTruthy _); [cbn; by rewrite H4|done].
Qed.

Lemma cacheActions_count (f : Action → bool) (t : Task) response (w : World) :
  (∀ d n r, f (CacheAdd d n r) = false) → count f (cacheActions t response w) = 0%nat.
Proof.
  intros H. unfold cacheActions.
  destruct (nameIn (request t) w) as [[|c n]|]; [done| |done].
  destruct (document t); [|done]. cbn. by rewrite H.
Qed.

(** The sends and history entries a resumed task adds fit its next place. *)
Lemma resumeActions_count (t : Task) (a : Answer) (env : Env) (w : World) :
  match nextPc t a w with
  | Some p =>
      (sendsAt (pc t) + count isSend (resumeActions t a env w))%nat = sendsAt p
      ∧ (historiesAt (pc t) + count isHistory (resumeActions t a env w))%nat
        = historiesAt p
  | None =>
      (sendsAt (pc t) + count isSend (resumeActions t a env w) ≤ 1)%nat
      ∧ (historiesAt (pc t) + count isHistory (resumeActions t a env w)
         ≤ sendsAt (pc t) + count isSend (resumeActions t a env w))%nat
  end.
Proof.
  unfold resumeActions, nextPc.
  destruct (pc t) as [script rest| | |] eqn:Hpc, a as [b|o|o]; try done.
  - destruct (execute script b) as [shown [[[]|e]|]]; cbn [fst snd];
      cbn [count isHistory isSend]; rewrite !count_app, !shows_count by done.
    + by destruct (startActions_count rest) as (-> & -> & ->).
    + rewrite !catchActions_count by done. cbn. lia.
    + done.
  - destruct o as [response|e].
    + unfold receivedActions. destruct (isCancelledIn (request t) w); [cbn; lia|].
      cbn [count isHistory isSend]. rewrite !count_app. cbn [count isHistory isSend].
      rewrite !count_app. cbn [count isHistory isSend].
      rewrite !cacheActions_count, !previewActions_count by done. done.
    + cbn [count isHistory isSend]. rewrite !catchActions_count by done. cbn. lia.
  - destruct o as [[]|e]; cbn [count isHistory isSend];
      rewrite ?catchActions_count by done; cbn; lia.
Qed.

(** A history entry is added by the task that is resumed with a response,
    in the same turn. *)
Lemma resumeActions_history (t : Task) (a : Answer) (env : Env) (w : World)
  (r : ReqId) :
  AddToRequestHistory r ∈ resumeActions t a env w →
  ∃ response mid,
    pc t = AwaitSend ∧ r = request t
    ∧ resumeActions t a env w
      = [Resumed (SendSettled (Fulfilled response)); Update Received (Some response)]
        ++ mid ++ [AddToRequestHistory r]
    ∧ count isResumed mid = 0%nat.
Proof.
  intros Hin. pose proof (count_elem isHistory _ _ Hin eq_refl) as Hpos.
  revert Hin Hpos. unfold resumeActions.
  destruct (pc t) as [script rest| | |] eqn:Hpc, a as [b|o|o];
    try (by intros ?%elem_of_nil).
  - intros _. cbn [count isHistory]. rewrite count_app, shows_count by done.
    destruct (execute script b) as [shown [[[]|e]|]]; cbn [fst snd].
    + destruct (startActions_count rest) as (_ & -> & _). lia.
    + rewrite catchActions_count by done. lia.
    + cbn. lia.
  - destruct o as [response|e].
    + unfold receivedActions. destruct (isCancelledIn (request t) w).
      { intros _. cbn. lia. }
      intros Hin _.
      exists response,
        (cacheActions t response w
         ++ RunTests response (testsIn (request t) w)
            :: previewActions t env response
                 (testRunner env response (testsIn (request t) w))).
      assert (r = request t) as ->.
      { apply elem_of_cons in Hin as [?|Hin]; [done|].
        apply elem_of_cons in Hin as [?|Hin]; [done|].
        apply elem_of_app in Hin as [Hin|Hin].
        { apply (count_elem isHistory) in Hin; [|done].
          rewrite cacheActions_count in Hin by done. lia. }
        apply elem_of_cons in Hin as [?|Hin]; [done|].
        apply elem_of_app in Hin as [Hin|Hin].
        { apply (count_elem isHistory) in Hin; [|done].
          rewrite previewActions_count in Hin by done. lia. }
        apply list_elem_of_singleton in Hin. by injection Hin. }
      split; [done|]. split; [done|]. split.
      * cbn [app]. by rewrite <- !app_assoc.
      * rewrite count_app. cbn [count isResumed].
        by rewrite cacheActions_count, previewActions_count.
    + intros _. cbn [count isHistory]. rewrite catchActions_count by done. lia.
  - intros _. destruct o as [[]|e]; cbn [count isHistory];
      rewrite ?catchActions_count by done; lia.
Qed.

Lemma recorded_app (r : ReqId) (acts new : list Action) :
  recorded r acts → recorded r (acts ++ new).
Proof.
  intros (d & before & response & mid & post & -> & Hm).
  exists d, before, response, mid, (post ++ new). split; [|done].
  by simplify_list_eq.
Qed.

Lemma course_unchanged (w w' : World) (i : RunId) :
  unchangedAt i w w' → course w i → course w' i.
Proof. intros [Ea Et]. unfold course. by rewrite Ea, Et. Qed.

Lemma step_course (x : Input) (w : World) :
  wellNumbered w → (∀ i, scriptsInOrder w i) → (∀ i, course w i) →
  ∀ i, course (step x w) i.
Proof.
  intros Hw Hsc Hc i.
  destruct (step_view x w Hw)
    as (_ & _ & _ & [Hu|[(r & s & d & _ & Hs)|(j & t & a & env & Ht & Hr)]]).
  - by eapply course_unchanged.
  - destruct Hs as (Hu & _ & _ & Ea & Et).
    destruct (decide (i = nextRun w)) as [->|Hi]; [|by eapply course_unchanged; eauto].
    unfold course. rewrite Ea, Et. cbn [pc count isSend isHistory].
    destruct (startActions_count (scriptsIn r (step x w))) as (-> & Hh & ->).
    rewrite Hh. split; [done|].
    intros r0 Hin. exfalso.
    apply (count_elem isHistory) in Hin; [|done]. cbn in Hin. lia.
  - destruct Hr as (Hu & Ea & Et).
    destruct (decide (i = j)) as [->|Hi]; [|by eapply course_unchanged; eauto].
    destruct (Hc j) as [Hcount Hrec]. rewrite Ht in Hcount. destruct Hcount as [Hs Hh].
    unfold course. rewrite Ea, Et, !count_app, Hs, Hh.
    pose proof (resumeActions_count t a env w) as Hn. split.
    + by destruct (nextPc t a w).
    + intros r0 [Hin|Hin]%elem_of_app; [by apply (recorded_app r0), Hrec|].
      apply resumeActions_history in Hin as (response & mid & Ep & -> & -> & Hm).
      destruct (Hsc j) as [Hshape _]. specialize (Hshape t Ht) as [_ Hshape].
      rewrite Ep in Hshape. rewrite Hshape.
      exists (document t), (Update Pending None :: scriptTrace (scriptsIn (request t) w)),
        response, mid, []. split; [|done].
      cbn. rewrite <- !app_assoc. done.
Qed.

Lemma reachable_course (w : World) : reachable w → ∀ i, course w i.
Proof.
  intros [inputs ->]. induction inputs as [|x inputs IH] using rev_ind.
  - intros i. unfold course. cbn. split; [lia|]. by intros r ?%elem_of_nil.
  - rewrite exec_snoc. apply step_course; [| |done].
    + apply exec_wellNumbered, initial_wellNumbered.
    + apply reachable_scriptsInOrder, reachable_intro.
Qed.

(** X14.  In every world the controller reaches, an invocation of runCore
    sends at most once and adds its request to the history at most once, and
    when it has added a request, that request is its own and the entry follows
    the send, the arrival of a response and the update to Received in the
    same turn: a request that fails, whose script fails or that is cancelled
    before its response arrives never enters the history. *)
Theorem request_recorded_once_after_response (w : World) (i : RunId) :
  reachable w →
  (count isSend (actionsOf i (log w)) ≤ 1)%nat
  ∧ (count isHistory (actionsOf i (log w)) ≤ 1)%nat
  ∧ ∀ r, AddToRequestHistory r ∈ actionsOf i (log w) →
      ∃ d before response mid post,
        actionsOf i (log w)
        = Invoke r d :: before
          ++ [Send; Resumed (SendSettled (Fulfilled response));
              Update Received (Some response)]
          ++ mid ++ AddToRequestHistory r :: post
        ∧ count isResumed mid = 0%nat.
Proof.
  intros Hr. destruct (reachable_course w Hr i) as [Hcount Hrec].
  split; [|split; [|exact Hrec]].
  - destruct (findTask i (tasks w)) as [t|]; [|lia].
    destruct Hcount as [-> _]. destruct (pc t); cbn; lia.
  - destruct (findTask i (tasks w)) as [t|]; [|lia].
    destruct Hcount as [_ ->]. destruct (pc t); cbn; lia.
Qed.

Lemma request_recorded_once_after_response_witness :
  (count isSend (actionsOf 0%nat (log done)) ≤ 1)%nat
  ∧ (count isHistory (actionsOf 0%nat (log done)) ≤ 1)%nat.
Proof.
  destruct (request_recorded_once_after_response done 0%nat done_reachable)
    as (Hs & Hh & _).
  by split.
Defined.

(** *** rerun *)

Lemma actionsOf_snoc_head (i : RunId) (l k : list (option RunId * Action))
  (a : Action) (tl : list Action) :
  actionsOf i l = a :: tl → ∃ tl', actionsOf i (l ++ k) = a :: tl'.
Proof. intros E. rewrite actionsOf_app, E. by eexists. Qed.

Lemma runCore_lastStarted (r : ReqId) (s : IRestClientSettings)
  (d : option TextDocument) (w0 w : World) :
  wellNumbered w → nextRun w0 = nextRun w → log w0 = log w →
  lastStarted (runCore r s d w0).
Proof.
  intros (_ & _ & Hlog & _) En El.
  destruct (runCore_spec r s d w0) as (El' & _ & _ & _ & En' & Elast & _).
  unfold lastStarted. rewrite Elast, En', El', En, El.
  exists (nextRun w), d, (Update Pending None :: startActions (scriptsIn r w0)).
  split; [done|].
  by rewrite actionsOf_app, (actionsOf_fresh _ _ Hlog), actionsOf_tag_own.
Qed.

Lemma lastStarted_later (w w' : World) (k : list (option RunId * Action)) :
  lastRequestSettingTuple w' = lastRequestSettingTuple w →
  nextRun w' = nextRun w → log w' = log w ++ k →
  lastStarted w → lastStarted w'.
Proof.
  unfold lastStarted. intros E1 E2 E3. rewrite E1, E2, E3.
  destruct (lastRequestSettingTuple w) as [[r s]|]; [|done].
  intros (i & d & tl & Ei & Ea). exists i, d, (tl ++ actionsOf i k).
  split; [done|]. by rewrite actionsOf_app, Ea.
Qed.

Lemma step_lastStarted (x : Input) (w : World) :
  wellNumbered w → lastStarted w → lastStarted (step x w).
Proof.
  intros Hw Hl. destruct x as [n sc ts s d| | |j a env|p]; cbn [step].
  - unfold run. by apply (runCore_lastStarted _ _ _ _ w).
  - unfold rerun. destruct (lastRequestSettingTuple w) as [[r s]|] eqn:E; [|done].
    by apply (runCore_lastStarted _ _ _ _ w).
  - unfold cancel. destruct (lastPendingRequest w) as [r|];
      (eapply lastStarted_later; [| | |exact Hl]); cbn; try done.
    by rewrite <- app_assoc.
  - destruct (findTask j (tasks w)) as [t|] eqn:Ht.
    + destruct (settle_present j a env w t Ht) as (El & _ & _ & _ & En & Elast & _).
      by eapply lastStarted_later.
    + by rewrite settle_absent.
  - unfold panelDisposed.
    destruct (HttpResponseWebview.onDidDispose p (webview w)) as [v [|]].
    + eapply lastStarted_later; [| | |exact Hl]; cbn; try done.
      by rewrite <- app_assoc.
    + eapply lastStarted_later; [| | |exact Hl]; cbn; try done.
      by rewrite app_nil_r.
Qed.

Lemma reachable_lastStarted (w : World) : reachable w → lastStarted w.
Proof.
  intros [inputs ->]. induction inputs as [|x inputs IH] using rev_ind; [done|].
  rewrite exec_snoc. apply step_lastStarted; [|done].
  apply exec_wellNumbered, initial_wellNumbered.
Qed.

(** X12.  In every world the controller reaches: the last request-setting
    tuple is missing exactly when runCore was never entered, and rerun does
    nothing then; otherwise its request is the request of the invocation that
    was started last, and rerun starts a new invocation of that same request
    object without a document, which runs the scripts of the request again,
    and builds no new request. *)
Theorem rerun_repeats_last_started (w : World) :
  reachable w →
  (lastRequestSettingTuple w = None ↔ nextRun w = 0%nat)
  ∧ (nextRun w = 0%nat → rerun w = w)
  ∧ ∀ r s, lastRequestSettingTuple w = Some (r, s) →
      (∃ i d tl, nextRun w = S i ∧ actionsOf i (log w) = Invoke r d :: tl)
      ∧ store (rerun w) = store w
      ∧ nextRequest (rerun w) = nextRequest w
      ∧ lastRequestSettingTuple (rerun w) = Some (r, s)
      ∧ actionsOf (nextRun w) (log (rerun w))
        = Invoke r None :: Update Pending None :: startActions (scriptsIn r w).
Proof.
  intros Hr. pose proof (reachable_lastStarted w Hr) as Hl.
  pose proof (reachable_wellNumbered w Hr) as (_ & _ & Hlog & _).
  unfold lastStarted in Hl.
  split; [|split].
  - destruct (lastRequestSettingTuple w) as [[r s]|]; [|done].
    destruct Hl as (i & _ & _ & -> & _). done.
  - intros En. unfold rerun.
    destruct (lastRequestSettingTuple w) as [[r s]|]; [|done].
    destruct Hl as (i & _ & _ & Ei & _). lia.
  - intros r s E. rewrite E in Hl. split; [done|].
    unfold rerun. rewrite E.
    destruct (runCore_spec r s None w) as (El & _ & Es & Eq & _ & Elast & _).
    split; [done|]. split; [done|]. split; [done|].
    by rewrite El, actionsOf_app, (actionsOf_fresh _ _ Hlog), actionsOf_tag_own.
Qed.

Lemma rerun_repeats_last_started_witness :
  lastRequestSettingTuple done = Some (0%nat, settings0)
  ∧ actionsOf 1%nat (log (rerun done))
    = Invoke 0%nat None :: Update Pending None :: startActions (scriptsIn 0%nat done).
Proof.
  split; [reflexivity|].
  exact (proj2 (proj2 (proj2 (proj2
           (proj2 (proj2 (rerun_repeats_last_started done done_reachable))
              0%nat settings0 eq_refl))))).
Defined.

(** *** The webview closes *)

Lemma elem_of_delete_other {A} (l : list A) (i : nat) (p q : A) :
  l !! i = Some p → q ∈ l → q ≠ p → q ∈ delete i l.
Proof.
  intros Hi Hq Hne. rewrite delete_take_drop.
  rewrite <- (take_drop_middle l i p Hi) in Hq.
  apply elem_of_app in Hq as [Hq|Hq]; [apply elem_of_app; by left|].
  apply elem_of_cons in Hq as [->|Hq]; [done|]. apply elem_of_app. by right.
Qed.

(** X13.  When the only open panel is disposed, the webview fires its
    event and the controller sets the status entry to Closed; when another
    panel stays open, the status entry and the log are left alone.  Either
    way the tasks, the pending request and the request objects stay as they
    are: a request under way goes on. *)
Theorem closing_last_panel_resets_status (w : World)
  (p : HttpResponseWebview.PanelId) :
  (HttpResponseWebview.panels (webview w) = [p] →
     statusEntry (panelDisposed p w) = Some (Closed, None)
     ∧ log (panelDisposed p w)
       = log w ++ [(None, CloseAll); (None, Update Closed None)]
     ∧ HttpResponseWebview.panels (webview (panelDisposed p w)) = [])
  ∧ (∀ q, q ∈ HttpResponseWebview.panels (webview w) → q ≠ p →
       statusEntry (panelDisposed p w) = statusEntry w
       ∧ log (panelDisposed p w) = log w
       ∧ q ∈ HttpResponseWebview.panels (webview (panelDisposed p w)))
  ∧ tasks (panelDisposed p w) = tasks w
  ∧ lastPendingRequest (panelDisposed p w) = lastPendingRequest w
  ∧ store (panelDisposed p w) = store w.
Proof.
  assert (Hf : (HttpResponseWebview.onDidDispose p (webview w)).2
             = (length (HttpResponseWebview.panels
                          (HttpResponseWebview.onDidDispose p (webview w)).1)
                =? 0)%nat) by done.
  assert (Hp : HttpResponseWebview.panels
                 (HttpResponseWebview.onDidDispose p (webview w)).1
             = match HttpResponseWebview.findIndex p
                       (HttpResponseWebview.panels (webview w)) with
               | Some i => delete i (HttpResponseWebview.panels (webview w))
               | None => HttpResponseWebview.panels (webview w)
               end) by done.
  unfold panelDisposed.
  destruct (HttpResponseWebview.onDidDispose p (webview w)) as [v fired].
  cbn [fst snd] in Hf, Hp. split; [|split].
  - intros E. rewrite E in Hp. cbn in Hp. rewrite decide_True in Hp by done.
    cbn in Hp. rewrite Hp in Hf. subst fired. cbn. by rewrite <- app_assoc.
  - intros q Hq Hne.
    assert (Hq' : q ∈ HttpResponseWebview.panels v).
    { rewrite Hp.
      destruct (HttpResponseWebview.findIndex p
                  (HttpResponseWebview.panels (webview w))) as [i|] eqn:Hi; [|done].
      apply findIndex_Some in Hi. by eapply elem_of_delete_other. }
    destruct (HttpResponseWebview.panels v) as [|x l] eqn:El;
      [by apply elem_of_nil in Hq'|].
    subst fired. cbn. by rewrite El.
  - by destruct fired.
Qed.

(** *** A response that cannot be previewed *)

(** X15.  When the response of a request that is not cancelled arrives, the
    status entry becomes Received with the response, the request is added to
    the history and the invocation waits for that, whatever the editor looks
    like.  Without an active editor the preview fails: the error is logged
    and shown and the webview stays as it is.  With an active editor that has
    no view column and the preview in the webview, nothing is rendered and
    nothing is reported. *)
Theorem response_is_recorded_without_preview (w : World) (i : RunId) (t : Task)
  (env : Env) (response : HttpResponse) :
  findTask i (tasks w) = Some t → pc t = AwaitSend →
  isCancelledIn (request t) w = false →
  statusEntry (settle i (SendSettled (Fulfilled response)) env w)
  = Some (Received, Some response)
  ∧ findTask i (tasks (settle i (SendSettled (Fulfilled response)) env w))
    = Some (withPc t AwaitHistory)
  ∧ (∃ mid,
       log (settle i (SendSettled (Fulfilled response)) env w)
       = log w ++ ((λ a, (Some i, a)) <$>
                     [Resumed (SendSettled (Fulfilled response));
                      Update Received (Some response)]
                     ++ mid ++ [AddToRequestHistory (request t)])
       ∧ (activeTextEditor env = None →
            ∃ mid', mid = mid' ++ [LogError; ShowError PreviewFailure]
                    ∧ webview (settle i (SendSettled (Fulfilled response)) env w)
                      = webview w)
       ∧ (activeTextEditor env = Some Undefined →
            previewResponseInUntitledDocument (settings t) = false →
            mid = cacheActions t response w
                  ++ [RunTests response (testsIn (request t) w)]
            ∧ webview (settle i (SendSettled (Fulfilled response)) env w)
              = webview w)).
Proof.
  intros Ht Hpc Hc.
  destruct (settle_present i (SendSettled (Fulfilled response)) env w t Ht)
    as (El & Et & _ & _ & _ & _ & _ & Es & Ew & _).
  assert (En : nextPc t (SendSettled (Fulfilled response)) w = Some AwaitHistory).
  { unfold nextPc. by rewrite Hpc, Hc. }
  assert (Ea : resumeActions t (SendSettled (Fulfilled response)) env w
             = [Resumed (SendSettled (Fulfilled response));
                Update Received (Some response)]
               ++ (cacheActions t response w
                   ++ RunTests response (testsIn (request t) w)
                      :: previewActions t env response
                           (testRunner env response (testsIn (request t) w)))
               ++ [AddToRequestHistory (request t)]).
  { unfold resumeActions, receivedActions. rewrite Hpc, Hc.
    cbn [app]. by rewrite <- !app_assoc. }
  rewrite Es, Et, Ew, El, En, Ea. clear Es Et Ew El.
  assert (Hcache : ∀ s v,
            statusAfter (cacheActions t response w) s = s
            ∧ webviewAfter env (cacheActions t response w) v = v).
  { intros s v. unfold cacheActions.
    destruct (nameIn (request t) w) as [[|c n]|]; [done| |done].
    by destruct (document t). }
  split; [|split].
  - unfold statusAfter. rewrite !foldl_app. cbn [foldl].
    fold (statusAfter (cacheActions t response w) (Some (Received, Some response))).
    rewrite (proj1 (Hcache _ HttpResponseWebview.initial)).
    unfold previewActions. destruct (activeTextEditor env); [|done].
    destruct (previewResponseInUntitledDocument (settings t)); [done|].
    by destruct (columnTruthy _).
  - by rewrite findTask_setPc, decide_True, Ht.
  - eexists. split; [done|]. split.
    + intros Hed. unfold previewActions. rewrite Hed.
      exists (cacheActions t response w ++ [RunTests response (testsIn (request t) w)]).
      split; [by rewrite <- app_assoc|].
      unfold webviewAfter. rewrite !foldl_app. cbn [foldl].
      exact (proj2 (Hcache None (webview w))).
    + intros Hed Hun. unfold previewActions, previewColumnOf. rewrite Hed, Hun.
      assert (Hcol : columnTruthy
                (if decide (previewColumn (settings t) = ViewColumn_Active)
                 then Undefined else NaN) = false) by by case_decide.
      rewrite Hcol. split; [done|].
      unfold webviewAfter. rewrite !foldl_app. cbn [foldl].
      exact (proj2 (Hcache None (webview w))).
Qed.

Lemma response_is_recorded_without_preview_witness :
  statusEntry
    (settle 0%nat (SendSettled (Fulfilled response1))
       {| activeTextEditor := None; systemSettings := systemSettings0;
          testRunner := λ _ _, NoTests |} sent)
  = Some (Received, Some response1).
Proof.
  refine (proj1 (response_is_recorded_without_preview sent 0%nat
                   {| invocation := 0%nat; request := 0%nat; settings := settings0;
                      document := Some (lit "a.http"); pc := AwaitSend |}
                   _ response1 _ _ _)); reflexivity.
Defined.

(** *** What the webview shows *)

Lemma webviewAfter_responses (env : Env) (l : list Action)
  (v : HttpResponseWebview.State) (p : HttpResponseWebview.PanelId)
  (response : HttpResponse) :
  HttpResponseWebview.panelResponses (webviewAfter env l v) !! p = Some response →
  HttpResponseWebview.panelResponses v !! p = Some response
  ∨ ∃ result column, RenderWebview response result column ∈ l.
Proof.
  unfold webviewAfter. induction l as [|a l IH] using rev_ind; [by left|].
  rewrite foldl_snoc.
  assert (Hold : HttpResponseWebview.panelResponses
                   (foldl (λ v a, match a with
                                  | RenderWebview response result column =>
                                      HttpResponseWebview.render (systemSettings env)
                                        response result column v
                                  | _ => v
                                  end) v l) !! p = Some response →
            HttpResponseWebview.panelResponses v !! p = Some response
            ∨ ∃ result column, RenderWebview response result column ∈ l ++ [a]).
  { intros [H|(x & c & H)]%IH; [by left|]. right. exists x, c.
    apply elem_of_app. by left. }
  destruct a; try exact Hold.
  unfold HttpResponseWebview.render. cbn [HttpResponseWebview.panelResponses].
  intros [[_ <-]|[_ H]]%lookup_insert_Some; [|by apply Hold].
  right. eexists _, _. apply elem_of_app. right. by left.
Qed.

Lemma resumeActions_render (t : Task) (a : Answer) (env : Env) (w : World)
  response result column :
  RenderWebview response result column ∈ resumeActions t a env w →
  a = SendSettled (Fulfilled response).
Proof.
  unfold resumeActions.
  destruct (pc t) as [script rest| | |], a as [b|o|o]; try (by intros ?%elem_of_nil).
  - intros [?|[(s & ? & _)%list_elem_of_fmap|Hin]%elem_of_app]%elem_of_cons; [done..|].
    exfalso. destruct (execute script b) as [shown [[[]|e]|]]; cbn [snd] in Hin.
    + revert Hin. generalize rest. clear. intros rest.
      induction rest as [|s rest IH]; cbn [startActions].
      * intros [?|?%elem_of_nil]%elem_of_cons; done.
      * intros [?|Hin]%elem_of_cons; [done|].
        destruct (truthy s); [by apply elem_of_nil in Hin|by apply IH].
    + unfold catchActions in Hin. destruct (isCancelledIn _ _), e;
        repeat (apply elem_of_cons in Hin as [?|Hin]; [done|]);
        by apply elem_of_nil in Hin.
    + by apply elem_of_nil in Hin.
  - intros [?|Hin]%elem_of_cons; [done|]. destruct o as [r|e].
    + unfold receivedActions in Hin. destruct (isCancelledIn _ _);
        [by apply elem_of_nil in Hin|].
      apply elem_of_cons in Hin as [?|Hin]; [done|].
      apply elem_of_app in Hin as [Hin|Hin].
      { unfold cacheActions in Hin.
        destruct (nameIn _ _) as [[|c n]|], (document t);
          repeat (apply elem_of_cons in Hin as [?|Hin]; [done|]);
          by apply elem_of_nil in Hin. }
      apply elem_of_cons in Hin as [?|Hin]; [done|].
      apply elem_of_app in Hin as [Hin|Hin].
      * unfold previewActions in Hin.
        destruct (activeTextEditor env);
          [destruct (previewResponseInUntitledDocument _); [|destruct (columnTruthy _)]|];
          repeat (apply elem_of_cons in Hin as [E|Hin]; [by try injection E as -> _ _|]);
          by apply elem_of_nil in Hin.
      * apply list_elem_of_singleton in Hin. done.
    + exfalso. unfold catchActions in Hin. destruct (isCancelledIn _ _), e;
        repeat (apply elem_of_cons in Hin as [?|Hin]; [done|]);
        by apply elem_of_nil in Hin.
  - intros [?|Hin]%elem_of_cons; [done|]. exfalso. destruct o as [[]|e].
    + by apply elem_of_nil in Hin.
    + unfold catchActions in Hin. destruct (isCancelledIn _ _), e;
        repeat (apply elem_of_cons in Hin as [?|Hin]; [done|]);
        by apply elem_of_nil in Hin.
Qed.

(** X16.  In every world the controller reaches, a response the webview
    keeps for a panel was rendered by an invocation of runCore, which had
    received it from send. *)
Theorem webview_shows_received_responses (w : World) :
  reachable w →
  ∀ p response,
    HttpResponseWebview.panelResponses (webview w) !! p = Some response →
    ∃ i result column,
      RenderWebview response result column ∈ actionsOf i (log w)
      ∧ Resumed (SendSettled (Fulfilled response)) ∈ actionsOf i (log w).
Proof.
  intros [inputs ->]. induction inputs as [|x inputs IH] using rev_ind.
  - intros p response H. cbn in H. by rewrite lookup_empty in H.
  - rewrite exec_snoc. set (w := exec inputs initial) in *.
    assert (Hlater : ∀ k p response,
              HttpResponseWebview.panelResponses (webview w) !! p = Some response →
              ∃ i result column,
                RenderWebview response result column ∈ actionsOf i (log w ++ k)
                ∧ Resumed (SendSettled (Fulfilled response))
                  ∈ actionsOf i (log w ++ k)).
    { intros k p response H. destruct (IH p response H) as (i & x' & c & H1 & H2).
      exists i, x', c. rewrite actionsOf_app, !elem_of_app. by split; left. }
    destruct x as [n sc ts s d| | |j a env|q]; cbn [step].
    + unfold run.
      match goal with |- context [runCore ?r ?s ?d ?w0] =>
        destruct (runCore_spec r s d w0) as (El & _ & _ & _ & _ & _ & _ & _ & _ & Ew) end.
      rewrite Ew, El. cbn [webview log]. apply Hlater.
    + unfold rerun. destruct (lastRequestSettingTuple w) as [[r s]|].
      * destruct (runCore_spec r s None w) as (El & _ & _ & _ & _ & _ & _ & _ & _ & Ew).
        rewrite Ew, El. apply Hlater.
      * exact IH.
    + unfold cancel. destruct (lastPendingRequest w) as [r|];
        cbn [webview update emit setStatusEntry setStore log];
        rewrite <- ?app_assoc; apply Hlater.
    + destruct (findTask j (tasks w)) as [t|] eqn:Ht.
      * destruct (settle_present j a env w t Ht)
          as (El & _ & _ & _ & _ & _ & _ & _ & Ew & _).
        intros p response. rewrite Ew, El.
        intros [H|(result & column & H)]%webviewAfter_responses; [exact (Hlater _ p response H)|].
        exists j, result, column. rewrite actionsOf_app, actionsOf_tag_own.
        rewrite !elem_of_app. split; [by right|]. right.
        pose proof (resumeActions_render _ _ _ _ _ _ _ H) as ->.
        unfold resumeActions in *.
        destruct (pc t); try (by apply elem_of_nil in H). by left.
      * by rewrite settle_absent.
    + unfold panelDisposed.
      assert (Hsub : ∀ p response,
                HttpResponseWebview.panelResponses
                  (HttpResponseWebview.onDidDispose q (webview w)).1 !! p = Some response →
                HttpResponseWebview.panelResponses (webview w) !! p = Some response).
      { intros p response. unfold HttpResponseWebview.onDidDispose.
        cbn [fst HttpResponseWebview.panelResponses].
        destruct (HttpResponseWebview.findIndex q _); [|done].
        by intros [_ ?]%lookup_delete_Some. }
      destruct (HttpResponseWebview.onDidDispose q (webview w)) as [v fired].
      cbn [fst] in Hsub. intros p response.
      destruct fired; cbn [webview update emit setStatusEntry setWebview log].
      * intros H%Hsub. rewrite <- app_assoc. exact (Hlater _ p response H).
      * intros H%Hsub. exact (IH p response H).
Qed.

Lemma webview_shows_received_responses_witness :
  ∃ i result column,
    RenderWebview response1 result column ∈ actionsOf i (log done)
    ∧ Resumed (SendSettled (Fulfilled response1)) ∈ actionsOf i (log done).
Proof.
  exact (webview_shows_received_responses done done_reachable 0%nat response1 eq_refl).
Defined.
End CourseProofs.

(** ** The parser factory, once more *)

Section FactoryProofs2.
Import RequestParserFactory.

Lemma whitespace_prefix_unique (ws ws' : jsstring) (c c' : N) (rest rest' : jsstring) :
  ws ++ c :: rest = ws' ++ c' :: rest' →
  Forall (λ x, isWhiteSpace x = true) ws → Forall (λ x, isWhiteSpace x = true) ws' →
  isWhiteSpace c = false → isWhiteSpace c' = false → c = c'.
Proof.
  revert ws'. induction ws as [|x ws IH]; intros [|x' ws'] E Hws Hws' Hc Hc'.
  - by injection E.
  - injection E as -> _. apply Forall_cons in Hws' as [Hx _]. congruence.
  - injection E as <- _. apply Forall_cons in Hws as [Hx _]. congruence.
  - injection E as -> E. apply Forall_cons in Hws as [_ Hws].
    apply Forall_cons in Hws' as [_ Hws']. by eapply IH.
Qed.

(** X17.  The choice of the factory depends on the first word only: text
    added behind a text that gets the curl parser leaves it with the curl
    parser, and a text whose first code unit that is not white space is not a
    c gets the HTTP parser, whatever follows. *)
Theorem createRequestParser_reads_first_word
  (sys : IRestClientSettings) (document : TextDocument)
  (settings : option IRestClientSettings) :
  (∀ raw more,
     createRequestParser sys raw document settings
     = CurlRequestParser raw (default sys settings) →
     createRequestParser sys (raw ++ more) document settings
     = CurlRequestParser (raw ++ more) (default sys settings))
  ∧ (∀ ws c rest,
       Forall (λ x, isWhiteSpace x = true) ws → isWhiteSpace c = false →
       c ≠ 99 → c ≠ 67 →
       createRequestParser sys (ws ++ c :: rest) document settings
       = HttpRequestParser (ws ++ c :: rest) (default sys settings) document).
Proof.
  unfold createRequestParser. split.
  - intros raw more. destruct (test curlRegex raw) eqn:E; [|done]. intros _.
    apply test_curl in E as (ws & c & u & r & l & rest & -> & H).
    assert (E : test curlRegex ((ws ++ c :: u :: r :: l :: rest) ++ more) = true).
    { apply test_curl. exists ws, c, u, r, l, (rest ++ more).
      split; [by rewrite <- app_assoc|done]. }
    by rewrite E.
  - intros ws c rest Hws Hc H99 H67.
    destruct (test curlRegex (ws ++ c :: rest)) eqn:E; [|done].
    apply test_curl in E as (ws' & c' & u & r & l & rest' & E & Hws' & Hc' & _).
    assert (Hcc : isWhiteSpace c' = false) by by destruct Hc' as [->| ->].
    pose proof (whitespace_prefix_unique _ _ _ _ _ _ E Hws Hws' Hc Hcc).
    destruct Hc'; congruence.
Qed.
End FactoryProofs2.

(** ** openDocument *)

Section TreeProofs.
Import HttpTreeProvider.

Lemma tabLoop_true (uri : jsstring) (l : list TabInput) :
  tabLoop uri l = true ↔ TabInputText uri ∈ l.
Proof.
  induction l as [|[u|] l IH]; cbn [tabLoop].
  - split; [done|by intros ?%elem_of_nil].
  - case_decide as Hu.
    + subst. split; [by left|done].
    + rewrite IH. split; [by right|].
      intros [[= ?]|?]%elem_of_cons; done.
  - rewrite IH. split; [by right|].
    intros [?|?]%elem_of_cons; done.
Qed.

(** X18.  openDocument shows the document in the column of the first tab
    group that has a text tab of it, and in column One when no tab group has
    one; never as a preview, and with the range selected. *)
Theorem openDocument_reveals_open_tab (uri : jsstring) (range : option (nat * nat))
  (tabGroups : list TabGroup) :
  (∀ before tabGroup after,
     tabGroups = before ++ tabGroup :: after →
     TabInputText uri ∈ tabs tabGroup →
     (∀ g, g ∈ before → TabInputText uri ∉ tabs g) →
     openDocument uri range tabGroups
     = {| shownUri := uri; preview := false; shownColumn := viewColumn tabGroup;
          selection := range |})
  ∧ ((∀ g, g ∈ tabGroups → TabInputText uri ∉ tabs g) →
     openDocument uri range tabGroups
     = {| shownUri := uri; preview := false; shownColumn := ViewColumn_One;
          selection := range |}).
Proof.
  assert (Hnone : ∀ l, (∀ g, g ∈ l → TabInputText uri ∉ tabs g) →
            ∀ rest, groupLoop uri (l ++ rest) = groupLoop uri rest).
  { induction l as [|g l IH]; intros H rest; [done|]. cbn [app groupLoop].
    destruct (tabLoop uri (tabs g)) eqn:E.
    - apply tabLoop_true in E. by apply (H g) in E; [|left].
    - apply IH. intros g' Hg'. apply H. by right. }
  unfold openDocument. split.
  - intros before tabGroup after -> Hin Hbefore. rewrite (Hnone before Hbefore).
    cbn [groupLoop]. by rewrite (proj2 (tabLoop_true _ _) Hin).
  - intros H. rewrite <- (app_nil_r tabGroups). by rewrite (Hnone tabGroups H).
Qed.
End TreeProofs.
